(** * Pulse schedules: interval bookkeeping of [qiskit/pulse/schedule.py]

    A shallow embedding of the eager [Schedule] tree, its per-channel
    timeslot lists, the interval helpers at the bottom of the module and
    the [ScheduleBlock] stubs for [filter]/[exclude], followed by the
    properties established about them.

    Conventions.
    - Python integers are [Z]; list positions are [nat].
    - A raised exception is a value of [result]; a method that mutates its
      receiver returns the receiver's state next to its result, so the
      state reached when an exception escapes stays observable.
    - A dict is an association list in insertion order; every access goes
      through [ts_get]/[ts_set], which read and overwrite the first binding
      of a key and append new keys at the end.
    - Components are values: a child schedule is the state it had when it
      was inserted. *)

From Stdlib Require Import ZArith String Ascii Bool Lia.
From Stdlib Require Import List Permutation Sorted OrderedTypeEx.
From Stdlib Require Import DecimalString.
From Equations Require Import Equations.
Import ListNotations.
Open Scope Z_scope.

(** ** Exceptions *)

Module Py.

(** The reasons for which the module raises [PulseError], one per raise
    site, with the values its message is formatted from. *)
Inductive PulseReason :=
| NewIntervalOverlaps
    (* _find_insertion_index: "New interval overlaps with existing." *)
| CannotBeInserted (new old : string) (time : Z) (ch : string) (t0 tf : Z)
    (* _add_timeslots: "Schedule(name=..) cannot be inserted into .." *)
| NegativeStart (ch : string)
    (* _check_nonnegative_timeslot *)
| InvalidDuration
    (* instruction_duration_validation *)
| ReplacementOverlaps
    (* Schedule.replace, copy variant *)
| NotSupported (msg : string).
    (* ScheduleBlock.filter / ScheduleBlock.exclude *)

Inductive exn :=
| PulseError (r : PulseReason)
| IndexError
| KeyError
| ValueError.

Inductive result (A : Type) :=
| Ok (a : A)
| Raise (e : exn).

Arguments Ok {A} a.
Arguments Raise {A} e.

Definition bind {A B} (r : result A) (k : A -> result B) : result B :=
  match r with
  | Ok a => k a
  | Raise e => Raise e
  end.

Definition is_pulse_error {A} (r : result A) : bool :=
  match r with Raise (PulseError _) => true | _ => false end.

End Py.
Export Py.

Notation "x <- c1 ;; c2" := (bind c1 (fun x => c2))
  (at level 61, c1 at next level, right associativity).

(** ** Intervals *)

(** [Interval = Tuple[int, int]]: start (inclusive) and stop (exclusive). *)
Definition Interval := (Z * Z)%type.

Definition interval_eqb (a b : Interval) : bool :=
  (fst a =? fst b) && (snd a =? snd b).

Definition shift_interval (time : Z) (i : Interval) : Interval :=
  (fst i + time, snd i + time).

(** [_overlaps]: the early exit, the swap and the final comparison. *)
Definition _overlaps (first second : Interval) : bool :=
  if (fst first =? fst second) && (fst second =? snd second) then false
  else
    let '(first, second) :=
      if fst first >? fst second then (second, first) else (first, second) in
    fst second <? snd first.

(** [_locate_interval_index]: binary search by list slicing.  The middle
    position [len // 2] is within the list whenever it is read. *)
Equations? _locate_interval_index (intervals : list Interval)
  (interval : Interval) (index : nat) : nat by wf (length intervals) lt :=
_locate_interval_index intervals interval index
  with le_lt_dec (length intervals) 1 => {
  | left _ := index
  | right _ :=
      if (snd interval <=? fst (nth (length intervals / 2) intervals interval))
         && negb (interval_eqb interval
                    (nth (length intervals / 2) intervals interval))
      then _locate_interval_index
             (firstn (length intervals / 2) intervals) interval index
      else _locate_interval_index
             (skipn (length intervals / 2) intervals) interval
             (index + length intervals / 2)%nat }.
Proof.
all: change (fst (Nat.divmod (length intervals) 1 0 1))
       with (length intervals / 2)%nat.
- rewrite length_firstn.
  assert (length intervals / 2 < length intervals)%nat
    by (apply Nat.div_lt; lia).
  lia.
- rewrite length_skipn.
  assert (1 <= length intervals / 2)%nat
    by (apply (Nat.div_le_lower_bound _ 2 1); lia).
  lia.
Qed.

(** [list.insert(index, x)] for a non-negative index: positions past the
    end append. *)
Definition list_insert {A} (index : nat) (x : A) (l : list A) : list A :=
  firstn index l ++ x :: skipn index l.

(** [_find_insertion_index]. *)
Definition _find_insertion_index (intervals : list Interval)
  (new_interval : Interval) : result nat :=
  let index := _locate_interval_index intervals new_interval 0 in
  match nth_error intervals index with
  | Some candidate =>
      if _overlaps candidate new_interval
      then Raise (PulseError NewIntervalOverlaps)
      else Ok (if snd new_interval <=? fst candidate then index else S index)
  | None => Ok index
  end.

(** ** Channels and instructions *)

(** Modelled from the spec: [qiskit.pulse.channels] is not among the
    sources.  A channel is a typed index; its [name] is the type's prefix
    followed by the index in decimal, and two channels are equal when type
    and index agree. *)
Record Channel := mkChannel { prefix : string; index : nat }.

Definition DriveChannel (i : nat) : Channel := mkChannel "d" i.

Definition chan_name (c : Channel) : string :=
  (prefix c ++ NilEmpty.string_of_uint (Nat.to_uint (index c)))%string.

Definition Channel_eqb (a b : Channel) : bool :=
  String.eqb (prefix a) (prefix b) && Nat.eqb (index a) (index b).

(** Modelled from the spec: [qiskit.pulse.instructions] is not among the
    sources.  A leaf operation has a class, internal fields, a duration and
    a tuple of channels; equality is structural over these, and a leaf is
    never equal to a schedule.  Flattening a leaf at a time yields the leaf
    at that time; its [instructions] is the leaf at 0. *)
Record Instruction := mkInstruction {
  inst_kind : string;
  inst_operands : list Z;
  inst_duration : Z;
  inst_channels : list Channel;
  inst_name : string
}.

Definition list_eqb {A} (eqb : A -> A -> bool) : list A -> list A -> bool :=
  fix go (l1 l2 : list A) : bool :=
    match l1, l2 with
    | [], [] => true
    | x :: r1, y :: r2 => eqb x y && go r1 r2
    | _, _ => false
    end.

Definition Instruction_eqb (a b : Instruction) : bool :=
  String.eqb (inst_kind a) (inst_kind b)
  && list_eqb Z.eqb (inst_operands a) (inst_operands b)
  && (inst_duration a =? inst_duration b)
  && list_eqb Channel_eqb (inst_channels a) (inst_channels b).

(** Modelled from the spec: [instruction_duration_validation] of
    [qiskit.pulse.utils] is not among the sources.  A leaf's duration is a
    concrete non-negative integer. *)
Definition instruction_duration_validation (duration : Z) : result unit :=
  if 0 <=? duration then Ok tt else Raise (PulseError InvalidDuration).

(** Python sets of channels, as duplicate-free lists. *)
Definition chan_mem (c : Channel) (l : list Channel) : bool :=
  existsb (Channel_eqb c) l.

Fixpoint chan_set (l : list Channel) : list Channel :=
  match l with
  | [] => []
  | c :: r => if chan_mem c r then chan_set r else c :: chan_set r
  end.

Definition chan_inter (a b : list Channel) : list Channel :=
  filter (fun c => chan_mem c b) (chan_set a).

Definition chan_diff (a b : list Channel) : list Channel :=
  filter (fun c => negb (chan_mem c b)) (chan_set a).

Definition chan_set_eqb (a b : list Channel) : bool :=
  forallb (fun c => chan_mem c b) a && forallb (fun c => chan_mem c a) b.

(** ** Timeslots and the schedule tree *)

(** [TimeSlots = Dict[Channel, List[Interval]]]. *)
Definition TimeSlots := list (Channel * list Interval).

Fixpoint ts_get (ch : Channel) (ts : TimeSlots) : option (list Interval) :=
  match ts with
  | [] => None
  | (c, l) :: r => if Channel_eqb c ch then Some l else ts_get ch r
  end.

Fixpoint ts_set (ch : Channel) (l : list Interval) (ts : TimeSlots)
  : TimeSlots :=
  match ts with
  | [] => [(ch, l)]
  | (c, l0) :: r =>
      if Channel_eqb c ch then (c, l) :: r else (c, l0) :: ts_set ch l r
  end.

Definition ts_mem (ch : Channel) (ts : TimeSlots) : bool :=
  match ts_get ch ts with Some _ => true | None => false end.

(** A [Schedule] object: [_name], [_metadata], [_duration], [_timeslots]
    and [_children]; a component is an [Instruction] or a [Schedule].  The
    parameter manager is left out: it is not among the sources and no
    timing depends on it. *)
Inductive Schedule :=
| mkSchedule (name : string) (metadata : list (string * string))
    (duration : Z) (timeslots : TimeSlots)
    (children : list (Z * ScheduleComponent))
with ScheduleComponent :=
| Inst (i : Instruction)
| Sched (s : Schedule).

Definition _name (s : Schedule) : string :=
  let '(mkSchedule n _ _ _ _) := s in n.
Definition _metadata (s : Schedule) : list (string * string) :=
  let '(mkSchedule _ m _ _ _) := s in m.
Definition _duration (s : Schedule) : Z :=
  let '(mkSchedule _ _ d _ _) := s in d.
Definition _timeslots (s : Schedule) : TimeSlots :=
  let '(mkSchedule _ _ _ t _) := s in t.
Definition _children (s : Schedule) : list (Z * ScheduleComponent) :=
  let '(mkSchedule _ _ _ _ c) := s in c.

Definition set_duration (s : Schedule) (d : Z) : Schedule :=
  mkSchedule (_name s) (_metadata s) d (_timeslots s) (_children s).
Definition set_timeslots (s : Schedule) (t : TimeSlots) : Schedule :=
  mkSchedule (_name s) (_metadata s) (_duration s) t (_children s).
Definition set_children (s : Schedule) (c : list (Z * ScheduleComponent))
  : Schedule :=
  mkSchedule (_name s) (_metadata s) (_duration s) (_timeslots s) c.

(** [Schedule(name=.., metadata=..)] with no children. *)
Definition empty_schedule (name : string) (metadata : list (string * string))
  : Schedule :=
  mkSchedule name metadata 0 [] [].

(** [Schedule.initialize_from]: [name or other_program.name], a copy of
    the metadata. *)
Definition initialize_from (other_program : Schedule) (name : option string)
  : Schedule :=
  empty_schedule
    (match name with
     | Some n => if String.eqb n "" then _name other_program else n
     | None => _name other_program
     end)
    (_metadata other_program).

(** The properties [duration], [stop_time], [channels], [name] of a
    component. *)
Definition channels (s : Schedule) : list Channel := map fst (_timeslots s).
Definition duration (s : Schedule) : Z := _duration s.
Definition stop_time (s : Schedule) : Z := duration s.

Definition component_duration (c : ScheduleComponent) : Z :=
  match c with Inst i => inst_duration i | Sched s => duration s end.
Definition component_channels (c : ScheduleComponent) : list Channel :=
  match c with Inst i => inst_channels i | Sched s => channels s end.
Definition component_name (c : ScheduleComponent) : string :=
  match c with Inst i => inst_name i | Sched s => _name s end.

(** [Schedule._instructions]: the flattening generator, with the leaf's
    own [_instructions] in the [Inst] case. *)
Fixpoint _instructions (s : Schedule) (time : Z) : list (Z * Instruction) :=
  flat_map
    (fun p : Z * ScheduleComponent =>
       let '(insert_time, child_sched) := p in
       match child_sched with
       | Inst i => [(time + insert_time, i)]
       | Sched s' => _instructions s' (time + insert_time)
       end)
    (_children s).

(** ** Sorting by key *)

(** Python's [sorted] is stable and compares with [<] only: an element is
    put after every element not greater than it that came before. *)
Section Sorted.
Context {A : Type} (ltb : A -> A -> bool).

Fixpoint sorted_insert (x : A) (l : list A) : list A :=
  match l with
  | [] => [x]
  | y :: r => if ltb y x then y :: sorted_insert x r else x :: y :: r
  end.

Fixpoint sorted (l : list A) : list A :=
  match l with
  | [] => []
  | x :: r => sorted_insert x (sorted r)
  end.

End Sorted.

(** Sequence comparison: the first position where the two differ decides;
    a proper prefix is smaller. *)
Fixpoint list_ltb {A} (eqb ltb : A -> A -> bool) (l1 l2 : list A) : bool :=
  match l1, l2 with
  | [], [] => false
  | [], _ :: _ => true
  | _ :: _, [] => false
  | x :: r1, y :: r2 => if eqb x y then list_ltb eqb ltb r1 r2 else ltb x y
  end.

Definition Key := (Z * Z * list string)%type.

(** The [key] function of [Schedule.instructions]. *)
Definition key (time_inst_pair : Z * Instruction) : Key :=
  let inst := snd time_inst_pair in
  (fst time_inst_pair, inst_duration inst,
   sorted String.ltb (map chan_name (inst_channels inst))).

(** Tuple comparison of two keys. *)
Definition key_ltb (k1 k2 : Key) : bool :=
  let '(t1, d1, n1) := k1 in
  let '(t2, d2, n2) := k2 in
  if t1 =? t2 then
    if d1 =? d2 then list_ltb String.eqb String.ltb n1 n2 else d1 <? d2
  else t1 <? t2.

(** [Schedule.instructions]. *)
Definition instructions (s : Schedule) : list (Z * Instruction) :=
  sorted (fun a b => key_ltb (key a) (key b)) (_instructions s 0).

Definition component_instructions (c : ScheduleComponent)
  : list (Z * Instruction) :=
  match c with Inst i => [(0, i)] | Sched s => instructions s end.

(** ** Time bookkeeping *)

(** [_check_nonnegative_timeslot]. *)
Fixpoint _check_nonnegative_timeslot (timeslots : TimeSlots) : result unit :=
  match timeslots with
  | [] => Ok tt
  | (chan, chan_timeslots) :: rest =>
      match chan_timeslots with
      | first :: _ =>
          if fst first <? 0
          then Raise (PulseError (NegativeStart (chan_name chan)))
          else _check_nonnegative_timeslot rest
      | [] => _check_nonnegative_timeslot rest
      end
  end.

(** [_get_timeslots]. *)
Definition _get_timeslots (schedule : ScheduleComponent) : result TimeSlots :=
  match schedule with
  | Inst i =>
      _ <- instruction_duration_validation (inst_duration i) ;;
      Ok (fold_left (fun ts channel => ts_set channel [(0, inst_duration i)] ts)
            (inst_channels i) [])
  | Sched s => Ok (_timeslots s)
  end.

(** [intervals[-1]]. *)
Definition last_interval (intervals : list Interval) : result Interval :=
  match intervals with
  | [] => Raise IndexError
  | i :: r => Ok (last r i)
  end.

(** The inner loop of [_add_timeslots] for one channel already present:
    [current] is [self._timeslots[channel]], [others] the part of
    [other_timeslots[channel]] still to be visited.  The list reached so
    far is returned with the outcome. *)
Fixpoint merge_intervals (time : Z) (err : Interval -> PulseReason)
  (current others : list Interval) : list Interval * result unit :=
  match others with
  | [] => (current, Ok tt)
  | interval :: rest =>
      match last_interval current with
      | Raise e => (current, Raise e)
      | Ok final =>
          if fst interval + time >=? snd final
          then (current ++ map (shift_interval time) others, Ok tt)
          else
            let interval := shift_interval time interval in
            match _find_insertion_index current interval with
            | Ok index =>
                merge_intervals time err (list_insert index interval current)
                  rest
            | Raise (PulseError _) =>
                (current, Raise (PulseError (err interval)))
            | Raise e => (current, Raise e)
            end
      end
  end.

(** The loop of [_add_timeslots] over [schedule.channels]. *)
Fixpoint add_channels (time : Z) (new old : string)
  (other_timeslots : TimeSlots) (chans : list Channel) (timeslots : TimeSlots)
  : TimeSlots * result unit :=
  match chans with
  | [] => (timeslots, Ok tt)
  | channel :: rest =>
      match ts_get channel other_timeslots with
      | None => (timeslots, Raise KeyError)
      | Some others =>
          match ts_get channel timeslots with
          | None =>
              add_channels time new old other_timeslots rest
                (ts_set channel
                   (if time =? 0 then others
                    else map (shift_interval time) others)
                   timeslots)
          | Some current =>
              let '(current', r) :=
                merge_intervals time
                  (fun i => CannotBeInserted new old time (chan_name channel)
                              (fst i) (snd i))
                  current others in
              let timeslots' := ts_set channel current' timeslots in
              match r with
              | Ok _ =>
                  add_channels time new old other_timeslots rest timeslots'
              | Raise e => (timeslots', Raise e)
              end
          end
      end
  end.

(** [Schedule._add_timeslots]: the receiver's state after the call and the
    outcome.  The start time is an integer by its type. *)
Definition _add_timeslots (time : Z) (schedule : ScheduleComponent)
  (self : Schedule) : Schedule * result unit :=
  match _get_timeslots schedule with
  | Raise e => (self, Raise e)
  | Ok other_timeslots =>
      let self1 :=
        set_duration self
          (Z.max (_duration self) (time + component_duration schedule)) in
      let '(timeslots, r) :=
        add_channels time (component_name schedule) (_name self)
          other_timeslots (component_channels schedule) (_timeslots self1) in
      let self2 := set_timeslots self1 timeslots in
      match r with
      | Ok _ => (self2, _check_nonnegative_timeslot timeslots)
      | Raise e => (self2, Raise e)
      end
  end.

(** [max]/[min] of a generator: [ValueError] when it is empty. *)
Definition py_max (l : list Z) : result Z :=
  match l with
  | [] => Raise ValueError
  | x :: r => Ok (fold_left Z.max r x)
  end.

Definition py_min (l : list Z) : result Z :=
  match l with
  | [] => Raise ValueError
  | x :: r => Ok (fold_left Z.min r x)
  end.

(** The generator [intervals[0][0] for intervals in chan_intervals] of
    [ch_start_time], over the supplied channels found in the timeslots. *)
Fixpoint first_starts (timeslots : TimeSlots) (chans : list Channel)
  : result (list Z) :=
  match chans with
  | [] => Ok []
  | chan :: rest =>
      match ts_get chan timeslots with
      | None => first_starts timeslots rest
      | Some intervals =>
          match intervals with
          | [] => Raise IndexError
          | first :: _ =>
              vs <- first_starts timeslots rest ;; Ok (fst first :: vs)
          end
      end
  end.

(** The generator [intervals[-1][1] for intervals in chan_intervals] of
    [ch_stop_time]. *)
Fixpoint last_stops (timeslots : TimeSlots) (chans : list Channel)
  : result (list Z) :=
  match chans with
  | [] => Ok []
  | chan :: rest =>
      match ts_get chan timeslots with
      | None => last_stops timeslots rest
      | Some intervals =>
          final <- last_interval intervals ;;
          vs <- last_stops timeslots rest ;; Ok (snd final :: vs)
      end
  end.

(** [try: ... except ValueError: return 0]. *)
Definition except_ValueError (r : result Z) : result Z :=
  match r with
  | Raise ValueError => Ok 0
  | _ => r
  end.

(** [Schedule.ch_start_time] and [Schedule.ch_stop_time]. *)
Definition ch_start_time (self : Schedule) (chans : list Channel) : result Z :=
  except_ValueError (vs <- first_starts (_timeslots self) chans ;; py_min vs).

Definition ch_stop_time (self : Schedule) (chans : list Channel) : result Z :=
  except_ValueError (vs <- last_stops (_timeslots self) chans ;; py_max vs).

Definition ch_duration (self : Schedule) (chans : list Channel) : result Z :=
  ch_stop_time self chans.

(** [Schedule.start_time]. *)
Definition start_time (self : Schedule) : result Z :=
  ch_start_time self (channels self).

(** ** Shifting *)

(** [Schedule._mutable_shift]: the receiver after the call and the object
    returned. *)
Definition _mutable_shift (time : Z) (self : Schedule)
  : Schedule * result Schedule :=
  let timeslots :=
    map (fun entry : Channel * list Interval =>
           (fst entry, map (shift_interval time) (snd entry)))
        (_timeslots self) in
  match _check_nonnegative_timeslot timeslots with
  | Raise e => (self, Raise e)
  | Ok _ =>
      let self' :=
        mkSchedule (_name self) (_metadata self) (_duration self + time)
          timeslots
          (map (fun c : Z * ScheduleComponent => (fst c + time, snd c))
               (_children self)) in
      (self', Ok self')
  end.

(** ** Insertion, appending, replacement *)

Definition dp_channels_idx : list nat := [24; 1]%nat.
Definition dp_channels : list Channel := map DriveChannel dp_channels_idx.

(** The test that opens the channel-merging branch of [_mutable_insert]:
    the component is a [Schedule], it has a channel outside [dp_channels],
    and it shares one of [dp_channels] with the receiver. *)
Definition dp_merge_applies (self : Schedule) (schedule : ScheduleComponent)
  : bool :=
  match schedule with
  | Inst _ => false
  | Sched s =>
      negb (length (chan_diff (channels s) dp_channels) =? 0)%nat
      && negb (length (chan_inter (chan_inter (channels self) (channels s))
                         dp_channels) =? 0)%nat
  end.

(** [common_channels] and [time] of [Schedule.append]. *)
Definition append_channels (self : Schedule) (schedule : ScheduleComponent)
  : list Channel :=
  if (length (chan_diff (component_channels schedule) dp_channels) =? 0)%nat
     || (length (chan_inter (component_channels schedule) dp_channels) =? 0)%nat
  then chan_inter (channels self) (component_channels schedule)
  else chan_inter (channels self)
         (chan_diff (component_channels schedule) dp_channels).

Definition append_time (self : Schedule) (schedule : ScheduleComponent)
  : result Z :=
  ch_stop_time self (append_channels self schedule).

(** [Schedule.__eq__]; [other] is a [Schedule] or an [Instruction]. *)
Definition time_inst_eqb (a b : Z * Instruction) : bool :=
  (fst a =? fst b) && Instruction_eqb (snd a) (snd b).

Definition Schedule_eq (self : Schedule) (other : ScheduleComponent) : bool :=
  if negb (chan_set_eqb (channels self) (component_channels other)) then false
  else if negb (length (instructions self)
                =? length (component_instructions other))%nat then false
  else forallb (fun p => time_inst_eqb (fst p) (snd p))
         (combine (instructions self) (component_instructions other)).

(** [child == old] in [replace].  A leaf compared with a schedule is
    unequal. *)
Definition component_eqb (child old : ScheduleComponent) : bool :=
  match child with
  | Inst i =>
      match old with Inst j => Instruction_eqb i j | Sched _ => false end
  | Sched s => Schedule_eq s old
  end.

(** The arguments of [filter] and [exclude]. *)
Record FilterArgs := mkFilterArgs {
  filter_funcs : list (Z * Instruction -> bool);
  arg_channels : option (list Channel);
  arg_instruction_types : option (list string);
  arg_time_ranges : option (list Interval);
  arg_intervals : option (list Interval);
  check_subroutine : bool
}.

(** Modelled from the spec: [composite_filter] of [qiskit.pulse.filters] is
    not among the sources.  A pair passes when it lies on an allowed
    channel, matches an allowed leaf type and falls fully inside an allowed
    time range or interval, for each of these that is given. *)
Definition composite_filter (a : FilterArgs) : list (Z * Instruction -> bool) :=
  (match arg_channels a with
   | Some cs =>
       [fun p : Z * Instruction =>
          existsb (fun c => chan_mem c cs) (inst_channels (snd p))]
   | None => []
   end)
  ++ (match arg_instruction_types a with
      | Some ks =>
          [fun p : Z * Instruction =>
             existsb (String.eqb (inst_kind (snd p))) ks]
      | None => []
      end)
  ++ (match arg_time_ranges a, arg_intervals a with
      | None, None => []
      | r1, r2 =>
          [fun p : Z * Instruction =>
             existsb (fun r : Interval =>
                        (fst r <=? fst p)
                        && (fst p + inst_duration (snd p) <=? snd r))
               (match r1 with Some l => l | None => [] end
                ++ match r2 with Some l => l | None => [] end)]
      end).

Section Insert.

(** The body of the channel-merging branch of [_mutable_insert] calls
    [filter], [exclude], [Play], [Delay] and the pulses' [merge], none of
    which is among the sources.  From the receiver, the start time and the
    component it computes the two objects that the names [self] and
    [schedule] are rebound to, or raises. *)
Variable merge_dp_channels :
  Schedule -> Z -> Schedule -> result (Schedule * Schedule).

(** The three statements that end [_mutable_insert], on the object called
    [self] at that point. *)
Definition insert_tail (start_time : Z) (schedule : ScheduleComponent)
  (self : Schedule) : Schedule * result Schedule :=
  let '(self1, r) := _add_timeslots start_time schedule self in
  match r with
  | Raise e => (self1, Raise e)
  | Ok _ =>
      let self2 :=
        set_children self1 (_children self1 ++ [(start_time, schedule)]) in
      (self2, Ok self2)
  end.

(** [Schedule._mutable_insert]: the receiver after the call and the object
    returned.  In the merging branch the name [self] is rebound before
    anything is written, so the receiver keeps its state and the object
    returned is another one. *)
Definition _mutable_insert (start_time : Z) (schedule : ScheduleComponent)
  (self : Schedule) : Schedule * result Schedule :=
  if dp_merge_applies self schedule then
    match schedule with
    | Sched s =>
        match merge_dp_channels self start_time s with
        | Raise e => (self, Raise e)
        | Ok (self', s') =>
            (self, snd (insert_tail start_time (Sched s') self'))
        end
    | Inst _ => insert_tail start_time schedule self
    end
  else insert_tail start_time schedule self.

(** [Schedule._immutable_insert]: the receiver is only read. *)
Definition _immutable_insert (start_time : Z) (schedule : ScheduleComponent)
  (name : option string) (self : Schedule) : Schedule * result Schedule :=
  let new_sched := initialize_from self name in
  let '(new_sched1, r1) := _mutable_insert 0 (Sched self) new_sched in
  match r1 with
  | Raise e => (self, Raise e)
  | Ok _ =>
      let '(new_sched2, r2) := _mutable_insert start_time schedule new_sched1 in
      match r2 with
      | Raise e => (self, Raise e)
      | Ok _ => (self, Ok new_sched2)
      end
  end.

(** [Schedule.insert]. *)
Definition insert (start_time : Z) (schedule : ScheduleComponent)
  (name : option string) (inplace : bool) (self : Schedule)
  : Schedule * result Schedule :=
  if inplace then _mutable_insert start_time schedule self
  else _immutable_insert start_time schedule name self.

(** [Schedule.append]. *)
Definition append (schedule : ScheduleComponent) (name : option string)
  (inplace : bool) (self : Schedule) : Schedule * result Schedule :=
  match append_time self schedule with
  | Raise e => (self, Raise e)
  | Ok time => insert time schedule name inplace self
  end.

(** [Schedule._immutable_shift] and [Schedule.shift]. *)
Definition _immutable_shift (time : Z) (name : option string)
  (self : Schedule) : Schedule * result Schedule :=
  let shift_sched := initialize_from self name in
  let '(shift_sched1, r) :=
    insert time (Sched self) None true shift_sched in
  match r with
  | Raise e => (self, Raise e)
  | Ok _ => (self, Ok shift_sched1)
  end.

Definition shift (time : Z) (name : option string) (inplace : bool)
  (self : Schedule) : Schedule * result Schedule :=
  if inplace then _mutable_shift time self
  else _immutable_shift time name self.

(** A loop of in-place insertions into [self], as in [__init__] and in the
    copy variant of [replace]; it stops at the first exception. *)
Fixpoint insert_all (pairs : list (Z * ScheduleComponent)) (self : Schedule)
  : Schedule * result unit :=
  match pairs with
  | [] => (self, Ok tt)
  | (time, sched) :: rest =>
      let '(self1, r) := insert time sched None true self in
      match r with
      | Raise e => (self1, Raise e)
      | Ok _ => insert_all rest self1
      end
  end.

(** [Schedule.__init__] on a sequence of [(start_time, schedule)] pairs,
    a name and metadata. *)
Definition Schedule_init (schedules : list (Z * ScheduleComponent))
  (name : string) (metadata : list (string * string)) : result Schedule :=
  let '(self, r) := insert_all schedules (empty_schedule name metadata) in
  match r with
  | Raise e => Raise e
  | Ok _ => Ok self
  end.

(** [Schedule._renew_timeslots]: the timeslots are cleared and every
    flattened instruction is added again. *)
Fixpoint add_all_timeslots (insts : list (Z * Instruction)) (self : Schedule)
  : Schedule * result unit :=
  match insts with
  | [] => (self, Ok tt)
  | (t0, inst) :: rest =>
      let '(self1, r) := _add_timeslots t0 (Inst inst) self in
      match r with
      | Raise e => (self1, Raise e)
      | Ok _ => add_all_timeslots rest self1
      end
  end.

Definition _renew_timeslots (self : Schedule) : Schedule * result unit :=
  let self1 := set_timeslots self [] in
  add_all_timeslots (instructions self1) self1.

(** [Schedule.replace]. *)
Definition replace (old new : ScheduleComponent) (inplace : bool)
  (self : Schedule) : Schedule * result Schedule :=
  let new_children :=
    map (fun c : Z * ScheduleComponent =>
           if component_eqb (snd c) old then (fst c, new) else c)
        (_children self) in
  if inplace then
    let '(self1, r) := _renew_timeslots (set_children self new_children) in
    match r with
    | Raise e => (self1, Raise e)
    | Ok _ => (self1, Ok self1)
    end
  else
    let '(new_sched, r) :=
      insert_all new_children (initialize_from self None) in
    match r with
    | Raise (PulseError _) => (self, Raise (PulseError ReplacementOverlaps))
    | Raise e => (self, Raise e)
    | Ok _ => (self, Ok new_sched)
    end.

(** Modelled from the spec: [filter_instructions] of [qiskit.pulse.filters]
    is not among the sources.  The result is a new schedule, initialised
    from [sched], holding exactly the flattened pairs that satisfy all the
    filters; with [negate] exactly those that do not. *)
Definition filter_instructions (sched : Schedule)
  (filters : list (Z * Instruction -> bool)) (negate : bool)
  : result Schedule :=
  let valid p := forallb (fun f => f p) filters in
  let kept :=
    filter (fun p => if negate then negb (valid p) else valid p)
      (instructions sched) in
  let '(filter_schedule, r) :=
    insert_all (map (fun p : Z * Instruction => (fst p, Inst (snd p))) kept)
      (initialize_from sched None) in
  match r with
  | Raise e => Raise e
  | Ok _ => Ok filter_schedule
  end.

(** [Schedule.filter] and [Schedule.exclude]. *)
Definition Schedule_filter (a : FilterArgs) (self : Schedule)
  : Schedule * result Schedule :=
  (self, filter_instructions self (composite_filter a ++ filter_funcs a) false).

Definition Schedule_exclude (a : FilterArgs) (self : Schedule)
  : Schedule * result Schedule :=
  (self, filter_instructions self (composite_filter a ++ filter_funcs a) true).

End Insert.

(** ** The alignment-deferred representation *)

Inductive ScheduleBlock :=
| mkScheduleBlock (name : string) (metadata : list (string * string))
    (alignment_context : string) (blocks : list BlockComponent)
with BlockComponent :=
| BlockInst (i : Instruction)
| Block (b : ScheduleBlock).

Definition filter_message : string :=
  "Method ``ScheduleBlock.filter`` is not supported as this program representation does not have the notion of an explicit instruction time. Apply ``qiskit.pulse.transforms.block_to_schedule`` function to this program to obtain the ``Schedule`` representation supporting this method.".

Definition exclude_message : string :=
  "Method ``ScheduleBlock.exclude`` is not supported as this program representation does not have the notion of instruction time. Apply ``qiskit.pulse.transforms.block_to_schedule`` function to this program to obtain the ``Schedule`` representation supporting this method.".

(** [ScheduleBlock.filter] and [ScheduleBlock.exclude]: the receiver after
    the call and the outcome. *)
Definition ScheduleBlock_filter (a : FilterArgs) (self : ScheduleBlock)
  : ScheduleBlock * result Schedule :=
  (self, Raise (PulseError (NotSupported filter_message))).

Definition ScheduleBlock_exclude (a : FilterArgs) (self : ScheduleBlock)
  : ScheduleBlock * result Schedule :=
  (self, Raise (PulseError (NotSupported exclude_message))).

(** ** Slot helpers at the top of the module *)

(** [slots_overlap]. *)
Definition slots_overlap (slot_inner slot_outer : Interval) : bool :=
  (fst slot_outer <=? fst slot_inner) || (snd slot_inner <=? snd slot_outer).

(** [expand_slot].  In the other branch the [ValueError] is built and not
    raised, so the call returns [None]. *)
Definition expand_slot (slot_inner slot_outer : Interval) : option Interval :=
  if slots_overlap slot_inner slot_outer
  then Some (Z.min (fst slot_inner) (fst slot_outer),
             Z.max (snd slot_inner) (snd slot_outer))
  else None.

(** [merge_slots_pulse_delay]: the new delay slot, or [None]. *)
Definition merge_slots_pulse_delay (pulse_slot delay_slot : Interval)
  : option Interval :=
  if (fst delay_slot <? fst pulse_slot) && (snd delay_slot >? fst pulse_slot)
  then Some (fst delay_slot, fst pulse_slot)
  else if (fst delay_slot <? snd pulse_slot)
          && (snd delay_slot >? snd pulse_slot)
  then Some (snd pulse_slot, snd delay_slot)
  else None.

(** ** Looking intervals up and removing them *)

(** The raise sites of [PulseError] in [_interval_index] and
    [_remove_timeslots], with the values their messages are formatted
    from. *)
Inductive RemovalReason :=
| IntervalDoesNotExist (interval : Interval) (intervals : list Interval)
    (* _interval_index: "The interval: .. does not exist in intervals: .." *)
| ChannelNotPresent (ch : string)
    (* _remove_timeslots: "The channel .. is not present in the schedule" *)
| CannotFindInterval (t0 tf : Z) (ch name : string).
    (* _remove_timeslots: "Cannot find interval (.., ..) to remove .." *)

(** An exception of the removal code: a [PulseError] of one of its own
    raise sites, or an exception of the code it calls. *)
Inductive removal_exn :=
| RemovalError (r : RemovalReason)
| Inherited (e : exn).

Inductive removal_result (A : Type) :=
| Removed (a : A)
| RemovalRaise (e : removal_exn).

Arguments Removed {A} a.
Arguments RemovalRaise {A} e.

(** [_interval_index]. *)
Definition _interval_index (intervals : list Interval) (interval : Interval)
  : removal_result nat :=
  let index := _locate_interval_index intervals interval 0 in
  match nth_error intervals index with
  | None => RemovalRaise (Inherited IndexError)
  | Some found_interval =>
      if negb (interval_eqb found_interval interval)
      then RemovalRaise
             (RemovalError (IntervalDoesNotExist interval intervals))
      else Removed index
  end.

(** [list.pop(index)] for a position of the list. *)
Definition list_pop {A} (index : nat) (l : list A) : list A :=
  firstn index l ++ skipn (S index) l.

(** [dict.pop(key)] for a key of the dictionary. *)
Fixpoint ts_pop (ch : Channel) (ts : TimeSlots) : TimeSlots :=
  match ts with
  | [] => []
  | (c, l) :: r => if Channel_eqb c ch then r else (c, l) :: ts_pop ch r
  end.

(** The inner loop of [_remove_timeslots] for one channel:
    [channel_timeslots] is the list being emptied, [others] the part of
    [other_timeslots[channel]] still to be visited.  The interval is moved
    only once the list is seen to be non-empty. *)
Fixpoint remove_intervals (time : Z) (err : Interval -> RemovalReason)
  (channel_timeslots others : list Interval)
  : list Interval * removal_result unit :=
  match others with
  | [] => (channel_timeslots, Removed tt)
  | interval :: rest =>
      match channel_timeslots with
      | [] => (channel_timeslots, RemovalRaise (RemovalError (err interval)))
      | _ :: _ =>
          let interval := shift_interval time interval in
          match _interval_index channel_timeslots interval with
          | RemovalRaise e => (channel_timeslots, RemovalRaise e)
          | Removed index =>
              match nth_error channel_timeslots index with
              | None => (channel_timeslots, RemovalRaise (Inherited IndexError))
              | Some found =>
                  if interval_eqb found interval
                  then remove_intervals time err
                         (list_pop index channel_timeslots) rest
                  else (channel_timeslots,
                        RemovalRaise (RemovalError (err interval)))
              end
          end
      end
  end.

(** The loop of [_remove_timeslots] over [schedule.channels]. *)
Fixpoint remove_channels (time : Z) (schedule : ScheduleComponent)
  (chans : list Channel) (timeslots : TimeSlots)
  : TimeSlots * removal_result unit :=
  match chans with
  | [] => (timeslots, Removed tt)
  | channel :: rest =>
      match ts_get channel timeslots with
      | None =>
          (timeslots,
           RemovalRaise (RemovalError (ChannelNotPresent (chan_name channel))))
      | Some channel_timeslots =>
          match _get_timeslots schedule with
          | Raise e => (timeslots, RemovalRaise (Inherited e))
          | Ok other_timeslots =>
              match ts_get channel other_timeslots with
              | None => (timeslots, RemovalRaise (Inherited KeyError))
              | Some others =>
                  let '(channel_timeslots', r) :=
                    remove_intervals time
                      (fun i => CannotFindInterval (fst i) (snd i)
                                  (chan_name channel)
                                  (component_name schedule))
                      channel_timeslots others in
                  let timeslots' :=
                    ts_set channel channel_timeslots' timeslots in
                  match r with
                  | RemovalRaise e => (timeslots', RemovalRaise e)
                  | Removed _ =>
                      remove_channels time schedule rest
                        (match channel_timeslots' with
                         | [] => ts_pop channel timeslots'
                         | _ :: _ => timeslots'
                         end)
                  end
              end
          end
      end
  end.

(** [Schedule._remove_timeslots]: the receiver after the call and the
    outcome. *)
Definition _remove_timeslots (time : Z) (schedule : ScheduleComponent)
  (self : Schedule) : Schedule * removal_result unit :=
  let '(timeslots, r) :=
    remove_channels time schedule (component_channels schedule)
      (_timeslots self) in
  (set_timeslots self timeslots, r).

(** [Schedule._replace_timeslots]. *)
Definition _replace_timeslots (time : Z) (old new : ScheduleComponent)
  (self : Schedule) : Schedule * removal_result unit :=
  let '(self1, r) := _remove_timeslots time old self in
  match r with
  | RemovalRaise e => (self1, RemovalRaise e)
  | Removed _ =>
      let '(self2, r2) := _add_timeslots time new self1 in
      match r2 with
      | Raise e => (self2, RemovalRaise (Inherited e))
      | Ok _ => (self2, Removed tt)
      end
  end.

(** [Schedule.__len__]. *)
Definition Schedule_len (self : Schedule) : nat :=
  length (instructions self).

(** ** Predicates used in the statements *)

(** An interval with [start <= stop]. *)
Definition wf_interval (i : Interval) : Prop := fst i <= snd i.

Definition start_le (a b : Interval) : Prop := fst a <= fst b.

(** [a] ends before [b] starts. *)
Definition before (a b : Interval) : Prop := snd a <= fst b.

(** Sorted by start time. *)
Definition sorted_by_start (l : list Interval) : Prop :=
  StronglySorted start_le l.

(** No two intervals of the list overlap, in either argument order. *)
Definition pairwise_non_overlapping (l : list Interval) : Prop :=
  ForallOrdPairs
    (fun a b => _overlaps a b = false /\ _overlaps b a = false) l.

(** The order kept in a channel's timeslot list: every interval is well
    formed and ends before the next one starts. *)
Definition timeslot_ordered (l : list Interval) : Prop :=
  Forall wf_interval l /\ StronglySorted before l.

(** The later start and the earlier stop of two intervals ordered by start
    time, the first argument coming first on a tie. *)
Definition later_start (a b : Interval) : Z :=
  if fst a >? fst b then fst a else fst b.
Definition earlier_stop (a b : Interval) : Z :=
  if fst a >? fst b then snd b else snd a.

(** A zero-length interval overlaps nothing. *)
Definition degenerate_overlaps_nothing (a b : Interval) : Prop :=
  fst a = snd a \/ fst b = snd b -> _overlaps a b = false.

(** [_find_insertion_index] raises whenever the new interval overlaps an
    interval of the list. *)
Definition raises_on_any_overlap (l : list Interval) (new : Interval) : Prop :=
  (exists c, In c l /\ _overlaps c new = true) ->
  is_pulse_error (_find_insertion_index l new) = true.

(** Every channel recorded in the timeslots has at least one interval. *)
Definition no_empty_slot (self : Schedule) : Prop :=
  Forall (fun entry : Channel * list Interval => snd entry <> [])
    (_timeslots self).

(** The channel has an interval in the schedule's timeslots. *)
Definition carries (self : Schedule) (c : Channel) : Prop :=
  exists l iv, ts_get c (_timeslots self) = Some l /\ In iv l.

(** [append] takes its offset over exactly the channels shared by the
    receiver and the component. *)
Definition append_offset_over_shared (self : Schedule)
  (schedule : ScheduleComponent) : Prop :=
  append_time self schedule
  = ch_stop_time self
      (chan_inter (channels self) (component_channels schedule)).

(** The component has one of [dp_channels] and a channel outside them. *)
Definition has_dp_and_other (schedule : ScheduleComponent) : Prop :=
  (exists c, In c (component_channels schedule) /\ In c dp_channels)
  /\ (exists c, In c (component_channels schedule) /\ ~ In c dp_channels).

(** The stop time of the last interval of channel [c], when it has one. *)
Definition last_stop (self : Schedule) (c : Channel) (stop : Z) : Prop :=
  exists l final,
    ts_get c (_timeslots self) = Some l
    /\ last_interval l = Ok final /\ snd final = stop.

(** Sample leaves and schedules. *)
Definition play (d : Z) (c : Channel) : Instruction :=
  mkInstruction "Play" [] d [c] "play".

Definition single_play (d : Z) (c : Channel) : Schedule :=
  mkSchedule "sched" [] d [(c, [(0, d)])] [(0, Inst (play d c))].

Definition two_channel_schedule : Schedule :=
  mkSchedule "pair" [] 10
    [(DriveChannel 0, [(0, 10)]); (DriveChannel 1, [(0, 10)])]
    [(0, Inst (play 10 (DriveChannel 0)));
     (0, Inst (play 10 (DriveChannel 1)))].

(** Every interval of the schedule still starts at a non-negative time
    once moved by [d]. *)
Definition starts_nonneg_after (self : Schedule) (d : Z) : Prop :=
  forall c l iv, In (c, l) (_timeslots self) -> In iv l -> 0 <= fst iv + d.

(** The timeslots with every interval moved by [time]. *)
Definition shift_timeslots (time : Z) (ts : TimeSlots) : TimeSlots :=
  map (fun entry : Channel * list Interval =>
         (fst entry, map (shift_interval time) (snd entry))) ts.

(** The keys of the timeslot dictionary are distinct. *)
Definition distinct_channels (self : Schedule) : Prop :=
  NoDup (channels self).

(** The largest stop time of a last interval over the channels of the
    timeslots, 0 when there is no channel. *)
Definition last_stop_max (ts : TimeSlots) : Z :=
  match map (fun entry : Channel * list Interval =>
               snd (last (snd entry) (0, 0))) ts with
  | [] => 0
  | x :: r => fold_left Z.max r x
  end.

(** The cached duration is the largest last stop. *)
Definition duration_is_last_stop (self : Schedule) : Prop :=
  duration self = last_stop_max (_timeslots self).

(** Some interval of the component, moved to [time], overlaps an interval
    that the receiver already has on the same channel. *)
Definition would_overlap (self : Schedule) (time : Z)
  (schedule : ScheduleComponent) : Prop :=
  exists other_timeslots channel others current iv jv,
    _get_timeslots schedule = Ok other_timeslots
    /\ In channel (component_channels schedule)
    /\ ts_get channel other_timeslots = Some others
    /\ ts_get channel (_timeslots self) = Some current
    /\ In iv others /\ In jv current
    /\ _overlaps jv (shift_interval time iv) = true.

(** Every channel's list is non-empty and in timeslot order. *)
Definition slots_ordered (ts : TimeSlots) : Prop :=
  Forall (fun entry : Channel * list Interval =>
            snd entry <> [] /\ timeslot_ordered (snd entry)) ts.

(** The receiver's timeslots as the module keeps them: distinct channels,
    non-empty ordered lists, no negative start. *)
Definition timeslots_ok (self : Schedule) : Prop :=
  distinct_channels self
  /\ slots_ordered (_timeslots self)
  /\ starts_nonneg_after self 0.

(** A component as the module builds it: its channels are distinct and,
    for a schedule, its lists are in timeslot order. *)
Definition component_ok (schedule : ScheduleComponent) : Prop :=
  NoDup (component_channels schedule)
  /\ match schedule with
     | Inst _ => True
     | Sched s =>
         Forall (fun entry : Channel * list Interval =>
                   timeslot_ordered (snd entry)) (_timeslots s)
     end.

(** Timeslots, children and duration agree. *)
Definition unchanged (after self : Schedule) : Prop :=
  _timeslots after = _timeslots self
  /\ _children after = _children self
  /\ _duration after = _duration self.

(** A failed [insert] leaves the receiver as it was. *)
Definition failed_insert_leaves_unchanged
  (merge : Schedule -> Z -> Schedule -> result (Schedule * Schedule))
  (self : Schedule) (time : Z) (schedule : ScheduleComponent)
  (inplace : bool) : Prop :=
  would_overlap self time schedule ->
  is_pulse_error (snd (insert merge time schedule None inplace self)) = true
  /\ unchanged (fst (insert merge time schedule None inplace self)) self.

(** A component whose first channel is new to [single_play] on
    [DriveChannel 0] and whose second channel is that one. *)
Definition reversed_pair : Schedule :=
  mkSchedule "pair" [] 10
    [(DriveChannel 1, [(0, 10)]); (DriveChannel 0, [(0, 10)])]
    [(0, Inst (play 10 (DriveChannel 1)));
     (0, Inst (play 10 (DriveChannel 0)))].

(** A flattened leaf as a schedule holds it: a non-negative start, a valid
    duration, distinct channels. *)
Definition leaf_ok (p : Z * Instruction) : Prop :=
  0 <= fst p /\ 0 <= inst_duration (snd p) /\ NoDup (inst_channels (snd p)).

(** Of two leaves of the list that share a channel, the one listed first
    stops no later than the other starts. *)
Fixpoint leaves_disjoint (l : list (Z * Instruction)) : Prop :=
  match l with
  | [] => True
  | p :: rest =>
      Forall (fun q => forall c, In c (inst_channels (snd p)) ->
                                 In c (inst_channels (snd q)) ->
                                 fst p + inst_duration (snd p) <= fst q) rest
      /\ leaves_disjoint rest
  end.

(** The time-ordered leaves of the schedule do not collide. *)
Definition flat_consistent (self : Schedule) : Prop :=
  Forall leaf_ok (instructions self) /\ leaves_disjoint (instructions self).

(** What holds of a channel's list while the leaves [K] are still to be
    added in order: it is non-empty, starts at a non-negative time and
    stops before every leaf of [K] on that channel starts. *)
Definition slot_ready (K : list (Z * Instruction))
  (entry : Channel * list Interval) : Prop :=
  snd entry <> []
  /\ (forall first rest, snd entry = first :: rest -> 0 <= fst first)
  /\ (exists final,
         last_interval (snd entry) = Ok final
         /\ forall q, In q K -> In (fst entry) (inst_channels (snd q)) ->
                      snd final <= fst q).

(** A flattened pair as a child. *)
Definition leaf_child (p : Z * Instruction) : Z * ScheduleComponent :=
  (fst p, Inst (snd p)).

(** A strict total order given as a boolean [<]. *)
Record StrictTotal {A : Type} (ltb : A -> A -> bool) : Prop := {
  st_asym : forall a b, ltb a b = true -> ltb b a = false;
  st_trans : forall a b c, ltb a b = true -> ltb b c = true -> ltb a c = true;
  st_total : forall a b, ltb a b = false -> ltb b a = false -> a = b
}.

(** What sorting needs of a boolean [<]: it is asymmetric and "not
    greater" is transitive.  Comparing through a key keeps both. *)
Record StrictWeak {A : Type} (ltb : A -> A -> bool) : Prop := {
  sw_asym : forall a b, ltb a b = true -> ltb b a = false;
  sw_le_trans : forall a b c,
      ltb b a = false -> ltb c b = false -> ltb c a = false
}.

(** [a] is not greater than [b]. *)
Definition not_greater {A : Type} (ltb : A -> A -> bool) (a b : A) : Prop :=
  ltb b a = false.

(** The list a channel has in the dictionary, a missing channel counting
    as the empty list. *)
Definition slot_of (c : Channel) (ts : TimeSlots) : list Interval :=
  match ts_get c ts with Some l => l | None => [] end.


(** The reasons with which an insertion raises: the leaf's duration is
    invalid, an interval overlaps, or a channel would start below zero. *)
Definition insertion_reason (r : PulseReason) : Prop :=
  match r with
  | InvalidDuration | CannotBeInserted _ _ _ _ _ _ | NegativeStart _ => True
  | _ => False
  end.

(** The component has an interval that starts below zero once moved by
    [time]. *)
Definition starts_below_zero (time : Z) (schedule : ScheduleComponent)
  : Prop :=
  exists other_timeslots channel others iv,
    _get_timeslots schedule = Ok other_timeslots
    /\ In channel (component_channels schedule)
    /\ ts_get channel other_timeslots = Some others
    /\ In iv others /\ fst iv + time < 0.

(** The dictionary after the loop of [_remove_timeslots] has left the list
    [l] on [channel]: an emptied channel is dropped. *)
Definition after_channel (channel : Channel) (l : list Interval)
  (ts : TimeSlots) : TimeSlots :=
  match l with
  | [] => ts_pop channel (ts_set channel l ts)
  | _ :: _ => ts_set channel l ts
  end.

(** The stop time of the last interval of a list, 0 for the empty list. *)
Definition stop_of (l : list Interval) : Z := snd (last l (0, 0)).

(** A component that has a channel and, for a schedule, whose cached
    duration is its largest last stop. *)
Definition component_timed (schedule : ScheduleComponent) : Prop :=
  match schedule with
  | Inst i => inst_channels i <> []
  | Sched s => _timeslots s <> [] /\ duration_is_last_stop s
  end.

(** The intervals that the leaves of the list occupy on a channel. *)
Definition leaf_intervals (c : Channel) (insts : list (Z * Instruction))
  : list Interval :=
  flat_map
    (fun p : Z * Instruction =>
       if chan_mem c (inst_channels (snd p))
       then [shift_interval (fst p) (0, inst_duration (snd p))]
       else [])
    insts.

(** The children of [replace]: every child equal to [old] gives way to
    [new]. *)
Definition replaced_children (old new : ScheduleComponent) (self : Schedule)
  : list (Z * ScheduleComponent) :=
  map (fun c : Z * ScheduleComponent =>
         if component_eqb (snd c) old then (fst c, new) else c)
    (_children self).

(** No interval of the component starts below zero; a leaf's duration is
    not negative. *)
Definition component_starts_nonneg (schedule : ScheduleComponent) : Prop :=
  match schedule with
  | Inst i => 0 <= inst_duration i
  | Sched s => starts_nonneg_after s 0
  end.

(** A component the module builds, with a channel, no empty list, a
    duration that is its largest last stop, and not both a channel of
    [dp_channels] and another channel. *)
Definition plain_component (schedule : ScheduleComponent) : Prop :=
  component_ok schedule
  /\ match schedule with Sched s => no_empty_slot s | Inst _ => True end
  /\ component_timed schedule
  /\ ~ has_dp_and_other schedule.

(** * Properties *)

(** ** Interval algebra *)

Module IntervalFacts.

Lemma overlaps_true_iff (a b : Interval) :
  _overlaps a b = true <->
  ~ (fst a = fst b /\ fst b = snd b) /\
  ((fst b < fst a /\ fst a < snd b) \/ (fst a <= fst b /\ fst b < snd a)).
Proof.
  unfold _overlaps.
  destruct (Z.eqb_spec (fst a) (fst b)), (Z.eqb_spec (fst b) (snd b));
    cbn [andb]; try (split; [discriminate | lia]).
  all: destruct (Z.gtb_spec (fst a) (fst b)); cbn [fst snd];
    rewrite Z.ltb_lt; lia.
Qed.

Lemma overlaps_false_iff (a b : Interval) :
  _overlaps a b = false <->
  (fst a = fst b /\ fst b = snd b) \/
  ((fst b < fst a -> snd b <= fst a) /\ (fst a <= fst b -> snd a <= fst b)).
Proof.
  rewrite <- Bool.not_true_iff_false, overlaps_true_iff. lia.
Qed.

Lemma interval_eqb_eq (a b : Interval) : interval_eqb a b = true <-> a = b.
Proof.
  unfold interval_eqb. destruct a, b; cbn [fst snd].
  rewrite andb_true_iff, !Z.eqb_eq. split.
  - intros [-> ->]. reflexivity.
  - intros H. inversion H. split; reflexivity.
Qed.

(** An interval that ends before another starts does not overlap it. *)
Lemma before_no_overlap (a b : Interval) :
  wf_interval a -> before a b -> _overlaps a b = false.
Proof.
  unfold wf_interval, before. intros. apply overlaps_false_iff. lia.
Qed.

End IntervalFacts.

Ltac interval_facts :=
  unfold before, start_le, wf_interval in *;
  repeat match goal with
         | H : _overlaps _ _ = false |- _ =>
             apply IntervalFacts.overlaps_false_iff in H
         | H : _overlaps _ _ = true |- _ =>
             apply IntervalFacts.overlaps_true_iff in H
         | |- _overlaps _ _ = false => apply IntervalFacts.overlaps_false_iff
         | |- _overlaps _ _ = true => apply IntervalFacts.overlaps_true_iff
         end.

(** C2 as written fails: a zero-length interval placed strictly inside
    another interval is reported as overlapping. *)
Lemma overlaps_degenerate_inside :
  ~ degenerate_overlaps_nothing (0, 10) (5, 5).
Proof.
  unfold degenerate_overlaps_nothing. intros H.
  specialize (H (or_intror eq_refl)). discriminate H.
Qed.

(** C2, amended.  Two intervals overlap iff it is not the case that both
    start where the second one is empty and, after ordering them by start
    time, the later start lies strictly before the earlier stop.  A
    zero-length interval overlaps exactly the intervals that strictly
    contain its point; it overlaps no interval that starts or ends at its
    point, and no zero-length interval. *)
Theorem overlaps_characterised (a b : Interval) :
  (_overlaps a b = true <->
   ~ (fst a = fst b /\ fst b = snd b) /\ later_start a b < earlier_stop a b)
  /\ (fst a = snd a -> (_overlaps a b = true <-> fst b < fst a < snd b))
  /\ (fst b = snd b -> (_overlaps a b = true <-> fst a < fst b < snd a))
  /\ (fst a = snd a -> fst b = snd b -> _overlaps a b = false).
Proof.
  unfold later_start, earlier_stop.
  repeat split; try intros;
    try (apply IntervalFacts.overlaps_false_iff; lia);
    repeat match goal with
           | H : _overlaps _ _ = true |- _ =>
               apply IntervalFacts.overlaps_true_iff in H
           | |- _overlaps _ _ = true => apply IntervalFacts.overlaps_true_iff
           | H : context [?x >? ?y] |- _ => destruct (Z.gtb_spec x y)
           | |- context [?x >? ?y] => destruct (Z.gtb_spec x y)
           end; lia.
Qed.

(** ** Binary search over a channel's intervals *)

Module Search.

Lemma locate_unfold l new idx :
  _locate_interval_index l new idx =
  if (length l <=? 1)%nat then idx
  else if (snd new <=? fst (nth (length l / 2) l new))
          && negb (interval_eqb new (nth (length l / 2) l new))
       then _locate_interval_index (firstn (length l / 2) l) new idx
       else _locate_interval_index (skipn (length l / 2) l) new
              (idx + length l / 2)%nat.
Proof.
  funelim (_locate_interval_index l new idx).
  - destruct (Nat.leb_spec (length intervals) 1); [reflexivity | lia].
  - destruct (Nat.leb_spec (length intervals) 1); [lia | reflexivity].
Qed.

(** The middle position of a list with at least two elements. *)
Lemma half_bounds (n : nat) : (1 < n -> 1 <= n / 2 < n)%nat.
Proof.
  intros H. split.
  - apply (Nat.div_le_lower_bound _ 2 1); lia.
  - apply Nat.div_lt; lia.
Qed.

(** The running tally only offsets the answer. *)
Lemma locate_shift l new idx :
  _locate_interval_index l new idx
  = (idx + _locate_interval_index l new 0)%nat.
Proof.
  remember (length l) as n eqn:Hn. revert l idx Hn.
  induction n as [n IH] using lt_wf_ind. intros l idx Hn.
  rewrite (locate_unfold l new idx), (locate_unfold l new 0).
  destruct (Nat.leb_spec (length l) 1) as [Hle|Hgt]; [lia|].
  pose proof (half_bounds _ Hgt) as Hm.
  destruct (_ && _).
  - apply (IH (length (firstn (length l / 2) l))); [|reflexivity].
    rewrite length_firstn. lia.
  - rewrite (IH (length (skipn (length l / 2) l)))
      with (idx := (idx + length l / 2)%nat);
      [|rewrite length_skipn; lia|reflexivity].
    rewrite (IH (length (skipn (length l / 2) l)))
      with (idx := (0 + length l / 2)%nat);
      [|rewrite length_skipn; lia|reflexivity].
    lia.
Qed.

Section Split.
Context {A : Type} (R : A -> A -> Prop).

Lemma StronglySorted_app_iff (l1 l2 : list A) :
  StronglySorted R (l1 ++ l2) <->
  StronglySorted R l1 /\ StronglySorted R l2 /\
  (forall a b, In a l1 -> In b l2 -> R a b).
Proof.
  induction l1 as [|x l1 IH]; cbn [app].
  - split; [intros H; repeat split; [constructor | exact H | intros ? ? []]
           | intros (_ & H & _); exact H].
  - split.
    + intros H. apply StronglySorted_inv in H. destruct H as [H1 H2].
      apply IH in H1. destruct H1 as (Ha & Hb & Hc).
      rewrite Forall_app in H2. destruct H2 as [H2 H3].
      repeat split; [constructor; assumption | assumption |].
      intros a b [<-|Ha'] Hb'.
      * rewrite Forall_forall in H3. apply H3, Hb'.
      * apply Hc; assumption.
    + intros (H1 & H2 & H3). apply StronglySorted_inv in H1.
      destruct H1 as [H1 H4]. constructor.
      * apply IH. repeat split; try assumption.
        intros a b Ha Hb. apply H3; [right|]; assumption.
      * rewrite Forall_app. split; [assumption|].
        rewrite Forall_forall. intros b Hb.
        apply H3; [left; reflexivity|exact Hb].
Qed.

Lemma StronglySorted_firstn n (l : list A) :
  StronglySorted R l -> StronglySorted R (firstn n l).
Proof.
  intros H. rewrite <- (firstn_skipn n l) in H.
  apply StronglySorted_app_iff in H. tauto.
Qed.

Lemma StronglySorted_skipn n (l : list A) :
  StronglySorted R l -> StronglySorted R (skipn n l).
Proof.
  intros H. rewrite <- (firstn_skipn n l) in H.
  apply StronglySorted_app_iff in H. tauto.
Qed.

(** What it takes to put [x] at position [k] of a sorted list. *)
Lemma StronglySorted_insert k x (l : list A) :
  StronglySorted R l ->
  (forall a, In a (firstn k l) -> R a x) ->
  (forall b, In b (skipn k l) -> R x b) ->
  StronglySorted R (list_insert k x l).
Proof.
  intros Hs Ha Hb. unfold list_insert.
  pose proof Hs as Hs'. rewrite <- (firstn_skipn k l) in Hs'.
  apply StronglySorted_app_iff in Hs'. destruct Hs' as (H1 & H2 & H3).
  apply StronglySorted_app_iff. repeat split.
  - exact H1.
  - constructor; [exact H2 | rewrite Forall_forall; exact Hb].
  - intros a b Hina [<-|Hinb]; [apply Ha, Hina | apply H3; assumption].
Qed.

(** The element at a position splits the list around it. *)
Lemma nth_error_parts (l : list A) r c :
  nth_error l r = Some c ->
  l = firstn r l ++ c :: skipn (S r) l /\ skipn r l = c :: skipn (S r) l.
Proof.
  revert l. induction r as [|r IH]; intros [|x l] H; try discriminate.
  - cbn in H. inversion H. split; reflexivity.
  - cbn [nth_error] in H. destruct (IH l H) as [H1 H2]. split.
    + cbn [firstn skipn app]. f_equal. exact H1.
    + exact H2.
Qed.

End Split.

(** What the binary search guarantees about the position [r] it returns
    from tally 0: it is a position of the list; unless it is 0, the element
    there failed the go-left test; on a list sorted by start, everything
    after it starts no earlier than the new interval stops. *)
Lemma locate_props l new :
  let r := _locate_interval_index l new 0 in
  ((r < length l)%nat \/ (l = [] /\ r = 0%nat))
  /\ (r = 0%nat \/
      exists c, nth_error l r = Some c /\
                (snd new <=? fst c) && negb (interval_eqb new c) = false)
  /\ (sorted_by_start l ->
      Forall (fun c => snd new <= fst c) (skipn (S r) l)).
Proof.
  remember (length l) as n eqn:Hn. revert l Hn.
  induction n as [n IH] using lt_wf_ind. intros l Hn. subst n. cbv zeta.
  rewrite (locate_unfold l new 0).
  destruct (Nat.leb_spec (length l) 1) as [Hle|Hgt].
  - repeat split.
    + destruct l; [right; split; reflexivity | left; cbn; lia].
    + left; reflexivity.
    + intros _. rewrite skipn_all2 by lia. constructor.
  - pose proof (half_bounds _ Hgt) as Hm.
    set (m := (length l / 2)%nat) in *. clearbody m.
    assert (Hmid : nth_error l m = Some (nth m l new))
      by (apply nth_error_nth'; lia).
    destruct (nth_error_parts l m _ Hmid) as [_ Hsk].
    destruct ((snd new <=? fst (nth m l new))
              && negb (interval_eqb new (nth m l new))) eqn:Htest.
    + (* left half *)
      destruct (IH (length (firstn m l))
                  ltac:(rewrite length_firstn; lia) (firstn m l) eq_refl)
        as (Ha & Hb & Hc).
      assert (Hlen : length (firstn m l) = m) by (rewrite length_firstn; lia).
      set (r := _locate_interval_index (firstn m l) new 0) in *. clearbody r.
      assert (Hr : (r < m)%nat).
      { destruct Ha as [Ha|[Ha _]]; [lia|].
        rewrite Ha in Hlen. cbn in Hlen. lia. }
      repeat split.
      * left; lia.
      * destruct Hb as [Hb|(c & Hc1 & Hc2)]; [left; exact Hb|right].
        exists c. split; [|exact Hc2].
        rewrite nth_error_firstn in Hc1.
        destruct (Nat.ltb_spec r m); [exact Hc1|lia].
      * intros Hs.
        rewrite <- (firstn_skipn m l) at 1.
        rewrite skipn_app, Hlen.
        replace (S r - m)%nat with 0%nat by lia. rewrite skipn_0.
        apply Forall_app. split.
        -- apply Hc. apply StronglySorted_firstn, Hs.
        -- apply andb_true_iff in Htest. destruct Htest as [Ht _].
           apply Z.leb_le in Ht.
           pose proof (StronglySorted_skipn start_le m l Hs) as Hs2.
           rewrite Hsk in Hs2 |- *. apply StronglySorted_inv in Hs2.
           destruct Hs2 as [_ Hs2]. constructor; [exact Ht|].
           eapply Forall_impl; [|exact Hs2]. unfold start_le. intros; lia.
    + (* right half *)
      rewrite locate_shift.
      destruct (IH (length (skipn m l))
                  ltac:(rewrite length_skipn; lia) (skipn m l) eq_refl)
        as (Ha & Hb & Hc).
      assert (Hlen : length (skipn m l) = (length l - m)%nat)
        by apply length_skipn.
      set (r := _locate_interval_index (skipn m l) new 0) in *. clearbody r.
      assert (Hr : (r < length l - m)%nat).
      { destruct Ha as [Ha|[Ha _]]; [lia|].
        rewrite Ha in Hlen. cbn in Hlen. lia. }
      repeat split.
      * left; lia.
      * right. destruct Hb as [Hb|(c & Hc1 & Hc2)].
        -- rewrite Hb, Nat.add_0_r, Nat.add_0_l.
           exists (nth m l new). split; [exact Hmid|exact Htest].
        -- exists c. split; [|exact Hc2].
           rewrite nth_error_skipn in Hc1. exact Hc1.
      * intros Hs.
        replace (S (0 + m + r)) with (S r + m)%nat by lia.
        rewrite <- skipn_skipn. apply Hc.
        apply StronglySorted_skipn, Hs.
Qed.


Lemma firstn_S_nth {A} (l : list A) r c :
  nth_error l r = Some c -> firstn (S r) l = firstn r l ++ [c].
Proof.
  revert l. induction r as [|r IH]; intros [|x l] H; try discriminate.
  - cbn in H. inversion H. reflexivity.
  - cbn [nth_error] in H. cbn [firstn app]. f_equal. apply IH, H.
Qed.

Lemma ordered_sorted_by_start l : timeslot_ordered l -> sorted_by_start l.
Proof.
  intros [Hwf Hs]. induction Hs as [|a l Hs IH Ha]; [constructor|].
  apply Forall_cons_iff in Hwf. destruct Hwf as [Hwa Hwf].
  constructor; [apply IH, Hwf|].
  eapply Forall_impl; [|exact Ha].
  unfold before, start_le, wf_interval in *. intros; lia.
Qed.

(** The shape of every run of [_find_insertion_index] on a list sorted by
    start: the candidate [c] at the located position [r], what lies after
    it, and the result in terms of both. *)
Lemma find_insertion_cases l new :
  sorted_by_start l ->
  (l = [] /\ _locate_interval_index l new 0 = 0%nat
   /\ _find_insertion_index l new = Ok 0%nat)
  \/ exists r c,
      r = _locate_interval_index l new 0
      /\ nth_error l r = Some c
      /\ l = firstn r l ++ c :: skipn (S r) l
      /\ Forall (fun b => snd new <= fst b) (skipn (S r) l)
      /\ (r = 0%nat \/ ~ snd new <= fst c \/ new = c)
      /\ _find_insertion_index l new =
           if _overlaps c new then Raise (PulseError NewIntervalOverlaps)
           else Ok (if snd new <=? fst c then r else S r).
Proof.
  intros Hs. destruct (locate_props l new) as (Ha & Hb & Hc).
  unfold _find_insertion_index.
  set (r := _locate_interval_index l new 0) in *. clearbody r.
  destruct Ha as [Ha | [-> ->]].
  - right. destruct (nth_error l r) as [c|] eqn:Hn.
    + exists r, c. destruct (nth_error_parts l r c Hn) as [Hp _].
      repeat split; try assumption; try reflexivity; [apply Hc, Hs|].
      destruct Hb as [Hb|(c' & Hc1 & Hc2)]; [left; exact Hb|right].
      inversion Hc1; subst c'.
      apply andb_false_iff in Hc2. destruct Hc2 as [Hc2|Hc2].
      * left. apply Z.leb_gt in Hc2. lia.
      * right. apply negb_false_iff, IntervalFacts.interval_eqb_eq in Hc2.
        exact Hc2.
    + apply nth_error_None in Hn. lia.
  - left. repeat split; reflexivity.
Qed.

(** On a list sorted by start the returned position keeps it sorted. *)
Lemma find_insertion_keeps_sorted l new k :
  Forall wf_interval l -> wf_interval new -> sorted_by_start l ->
  _find_insertion_index l new = Ok k ->
  sorted_by_start (list_insert k new l).
Proof.
  intros Hwf Hnew Hs Hk.
  destruct (find_insertion_cases l new Hs)
    as [(-> & _ & H)|(r & c & _ & Hn & Hp & Haft & Hbef & H)];
    rewrite H in Hk.
  - inversion Hk. repeat constructor.
  - destruct (_overlaps c new) eqn:Hov; [discriminate|].
    inversion Hk; subst k; clear Hk H.
    pose proof Hs as Hs'. rewrite Hp in Hs'.
    apply StronglySorted_app_iff in Hs'. destruct Hs' as (_ & Hs2 & Hs3).
    apply StronglySorted_inv in Hs2. destruct Hs2 as [_ Hs2].
    rewrite Forall_forall in Hs2, Haft.
    assert (Hwc : wf_interval c).
    { rewrite Forall_forall in Hwf. apply Hwf.
      eapply nth_error_In, Hn. }
    destruct (nth_error_parts l r c Hn) as [_ Hsk].
    apply StronglySorted_insert; [exact Hs| |];
      destruct (Z.leb_spec (snd new) (fst c)) as [Hle|Hgt].
    + intros a Ha. destruct Hbef as [-> | [Hb | ->]].
      * destruct Ha.
      * lia.
      * apply Hs3; [exact Ha | left; reflexivity].
    + rewrite (firstn_S_nth l r c Hn). intros a Ha.
      apply in_app_iff in Ha. destruct Ha as [Ha|[<-|[]]].
      * specialize (Hs3 a c Ha (or_introl eq_refl)). interval_facts. lia.
      * interval_facts. lia.
    + rewrite Hsk. intros b [<-|Hb].
      * interval_facts. lia.
      * specialize (Hs2 b Hb). interval_facts. lia.
    + intros b Hb. specialize (Haft b Hb). interval_facts. lia.
Qed.

(** On a channel's timeslot list the search is exact: it raises iff the
    new interval overlaps an interval of the list, and otherwise the list
    with the new interval put at the returned position is again in
    timeslot order. *)
Lemma find_insertion_ordered l new :
  timeslot_ordered l -> wf_interval new ->
  match _find_insertion_index l new with
  | Ok k =>
      timeslot_ordered (list_insert k new l)
      /\ Forall (fun c => _overlaps c new = false) l
  | Raise e =>
      e = PulseError NewIntervalOverlaps
      /\ exists c, In c l /\ _overlaps c new = true
  end.
Proof.
  intros Hord Hnew. pose proof (ordered_sorted_by_start l Hord) as Hs.
  destruct Hord as [Hwf Hch].
  destruct (find_insertion_cases l new Hs)
    as [(-> & _ & H)|(r & c & _ & Hn & Hp & Haft & Hbef & H)];
    rewrite H; clear H.
  - repeat constructor. exact Hnew.
  - destruct (_overlaps c new) eqn:Hov.
    { split; [reflexivity|]. exists c. split; [|exact Hov].
      eapply nth_error_In, Hn. }
    pose proof Hch as Hch'. rewrite Hp in Hch'.
    apply StronglySorted_app_iff in Hch'. destruct Hch' as (_ & Hs2 & Hs3).
    apply StronglySorted_inv in Hs2. destruct Hs2 as [_ Hs2].
    pose proof Hwf as Hwf'. rewrite Hp in Hwf'.
    apply Forall_app in Hwf'. destruct Hwf' as [Hw1 Hw2].
    apply Forall_cons_iff in Hw2. destruct Hw2 as [Hwc Hw2].
    rewrite Forall_forall in Hs2, Haft, Hw1, Hw2.
    destruct (nth_error_parts l r c Hn) as [_ Hsk].
    assert (Hfirst : forall a, In a (firstn r l) ->
                               snd a <= fst c /\ fst a <= snd a).
    { intros a Ha. split; [apply (Hs3 a c Ha); left; reflexivity|].
      apply Hw1, Ha. }
    assert (Hno : Forall (fun c0 => _overlaps c0 new = false) l).
    { rewrite Hp. apply Forall_app. split; [|constructor; [exact Hov|]];
        rewrite Forall_forall.
      - intros a Ha. destruct (Hfirst a Ha).
        destruct Hbef as [Hr | [Hb | ->]].
        + rewrite Hr in Ha. destruct Ha.
        + interval_facts. lia.
        + interval_facts. lia.
      - intros b Hb. specialize (Haft b Hb). specialize (Hw2 b Hb).
        interval_facts. lia. }
    split; [|exact Hno]. split.
    + unfold list_insert. rewrite <- (firstn_skipn
        (if snd new <=? fst c then r else S r) l) in Hwf.
      apply Forall_app in Hwf. destruct Hwf.
      apply Forall_app. split; [assumption|constructor; assumption].
    + apply StronglySorted_insert; [exact Hch| |];
        destruct (Z.leb_spec (snd new) (fst c)) as [Hle|Hgt].
      * intros a Ha. destruct (Hfirst a Ha).
        destruct Hbef as [Hr | [Hb | ->]].
        -- rewrite Hr in Ha. destruct Ha.
        -- lia.
        -- interval_facts. lia.
      * rewrite (firstn_S_nth l r c Hn). intros a Ha.
        apply in_app_iff in Ha. destruct Ha as [Ha|[<-|[]]].
        -- destruct (Hfirst a Ha). interval_facts. lia.
        -- interval_facts. lia.
      * rewrite Hsk. intros b [<-|Hb].
        -- interval_facts. lia.
        -- specialize (Haft b Hb). interval_facts. lia.
      * intros b Hb. specialize (Haft b Hb). interval_facts. lia.
Qed.

End Search.

(** C5 as written fails: the list below is sorted by start and pairwise
    non-overlapping, the new interval overlaps its first interval, and an
    index is returned. *)
Lemma find_insertion_misses_overlap :
  sorted_by_start [(5, 10); (5, 5)]
  /\ pairwise_non_overlapping [(5, 10); (5, 5)]
  /\ _find_insertion_index [(5, 10); (5, 5)] (5, 6) = Ok 2%nat
  /\ ~ raises_on_any_overlap [(5, 10); (5, 5)] (5, 6).
Proof.
  split; [|split; [|split]].
  - repeat constructor. unfold start_le; cbn; lia.
  - repeat constructor.
  - reflexivity.
  - intros H. unfold raises_on_any_overlap in H.
    assert (Hex : exists c, In c [(5, 10); (5, 5)] /\ _overlaps c (5, 6) = true)
      by (exists (5, 10); split; [left; reflexivity | reflexivity]).
    specialize (H Hex). discriminate H.
Qed.

(** C5, amended.  For a list of well-formed intervals sorted by start time
    and a well-formed new interval, [_find_insertion_index] either raises
    [PulseError], the interval at the located index overlapping the new
    one, or returns an index at which inserting the new interval keeps the
    list sorted by start: the located index if the new interval stops no
    later than the candidate starts, else the next index (the located index
    itself on an empty list).  When every interval of the list also stops
    no later than the next one starts, it raises if and only if the new
    interval overlaps some interval of the list. *)
Theorem find_insertion_index_spec (l : list Interval) (new : Interval) :
  Forall wf_interval l -> wf_interval new -> sorted_by_start l ->
  let candidate := _locate_interval_index l new 0 in
  ((exists c, nth_error l candidate = Some c /\ _overlaps c new = true
              /\ _find_insertion_index l new
                 = Raise (PulseError NewIntervalOverlaps))
   \/ (exists k, _find_insertion_index l new = Ok k
                 /\ sorted_by_start (list_insert k new l)
                 /\ k = match nth_error l candidate with
                        | Some c =>
                            if snd new <=? fst c then candidate
                            else S candidate
                        | None => candidate
                        end))
  /\ (timeslot_ordered l ->
      ((exists c, In c l /\ _overlaps c new = true) <->
       _find_insertion_index l new = Raise (PulseError NewIntervalOverlaps))).
Proof.
  intros Hwf Hnew Hs candidate. split.
  - destruct (_find_insertion_index l new) as [k|e] eqn:Hf.
    + right. exists k. split; [reflexivity|].
      split; [apply Search.find_insertion_keeps_sorted; assumption|].
      unfold _find_insertion_index in Hf. fold candidate in Hf.
      destruct (nth_error l candidate);
        [destruct (_overlaps _ _); [discriminate|]|];
        inversion Hf; reflexivity.
    + left. unfold _find_insertion_index in Hf. fold candidate in Hf.
      destruct (nth_error l candidate) as [c|]; [|discriminate].
      destruct (_overlaps c new) eqn:Hov; [|discriminate].
      exists c. split; [reflexivity|]. split; [exact Hov|].
      symmetry. exact Hf.
  - intros Hord.
    pose proof (Search.find_insertion_ordered l new Hord Hnew) as H.
    destruct (_find_insertion_index l new) as [k|e].
    + destruct H as [_ H]. rewrite Forall_forall in H. split.
      * intros (c & Hc & Hov). rewrite (H c Hc) in Hov. discriminate.
      * discriminate.
    + destruct H as [-> H]. split; [reflexivity | intros _; exact H].
Qed.

Lemma find_insertion_index_spec_witness :
  (exists k, _find_insertion_index [(0, 10); (20, 30); (40, 50)] (30, 35) = Ok k
             /\ sorted_by_start
                  (list_insert k (30, 35) [(0, 10); (20, 30); (40, 50)]))
  /\ _find_insertion_index [(0, 10); (20, 30); (40, 50)] (25, 45)
     = Raise (PulseError NewIntervalOverlaps).
Proof.
  assert (Hwf : Forall wf_interval [(0, 10); (20, 30); (40, 50)])
    by (repeat constructor; unfold wf_interval; cbn; lia).
  assert (Hs : sorted_by_start [(0, 10); (20, 30); (40, 50)])
    by (repeat constructor; unfold start_le; cbn; lia).
  assert (Ho : timeslot_ordered [(0, 10); (20, 30); (40, 50)])
    by (split; [exact Hwf | repeat constructor; unfold before; cbn; lia]).
  split.
  - destruct (find_insertion_index_spec [(0, 10); (20, 30); (40, 50)] (30, 35)
                Hwf ltac:(unfold wf_interval; cbn; lia) Hs)
      as [[(c & _ & _ & H)|(k & H1 & H2 & _)] _].
    + discriminate H.
    + exists k. split; assumption.
  - destruct (find_insertion_index_spec [(0, 10); (20, 30); (40, 50)] (25, 45)
                Hwf ltac:(unfold wf_interval; cbn; lia) Hs) as [_ H].
    apply (H Ho). exists (20, 30).
    split; [right; left; reflexivity|reflexivity].
Defined.

(** ** The deferred representation refuses [filter] and [exclude] *)

(** C8.  On every [ScheduleBlock] and for every combination of arguments,
    [filter] and [exclude] raise [PulseError], return nothing and leave the
    block as it was; both messages name [block_to_schedule], the conversion
    to the [Schedule] form. *)
Theorem block_filter_exclude_unsupported (self : ScheduleBlock)
  (a : FilterArgs) :
  ScheduleBlock_filter a self
  = (self, Raise (PulseError (NotSupported filter_message)))
  /\ ScheduleBlock_exclude a self
     = (self, Raise (PulseError (NotSupported exclude_message)))
  /\ (exists pre post,
        filter_message
        = (pre ++ "qiskit.pulse.transforms.block_to_schedule" ++ post)%string)
  /\ (exists pre post,
        exclude_message
        = (pre ++ "qiskit.pulse.transforms.block_to_schedule" ++ post)%string).
Proof.
  split; [reflexivity|]. split; [reflexivity|]. split.
  - exists (String.substring 0 146 filter_message),
      (String.substring 187 93 filter_message). reflexivity.
  - exists (String.substring 0 135 exclude_message),
      (String.substring 176 93 exclude_message). reflexivity.
Qed.

(** ** Channels and the timeslot dictionary *)

Module ChannelFacts.

Lemma Channel_eqb_eq (a b : Channel) : Channel_eqb a b = true <-> a = b.
Proof.
  unfold Channel_eqb. destruct a as [pa ia], b as [pb ib]; cbn [prefix index].
  rewrite andb_true_iff, String.eqb_eq, Nat.eqb_eq. split.
  - intros [-> ->]. reflexivity.
  - intros H. inversion H. split; reflexivity.
Qed.

Lemma Channel_eqb_refl (a : Channel) : Channel_eqb a a = true.
Proof. apply Channel_eqb_eq. reflexivity. Qed.

Lemma Channel_eqb_neq (a b : Channel) : Channel_eqb a b = false <-> a <> b.
Proof.
  rewrite <- Bool.not_true_iff_false, Channel_eqb_eq. reflexivity.
Qed.

Lemma chan_mem_In (c : Channel) (l : list Channel) :
  chan_mem c l = true <-> In c l.
Proof.
  unfold chan_mem. rewrite existsb_exists. split.
  - intros (x & Hx & Heq). apply Channel_eqb_eq in Heq. subst x. exact Hx.
  - intros H. exists c. split; [exact H | apply Channel_eqb_refl].
Qed.

Lemma chan_set_In (c : Channel) (l : list Channel) :
  In c (chan_set l) <-> In c l.
Proof.
  induction l as [|x l IH]; cbn [chan_set]; [reflexivity|].
  destruct (chan_mem x l) eqn:Hm.
  - rewrite IH. apply chan_mem_In in Hm. split; [right; assumption|].
    intros [<-|H]; assumption.
  - cbn [In]. rewrite IH. reflexivity.
Qed.

Lemma chan_inter_In (c : Channel) (a b : list Channel) :
  In c (chan_inter a b) <-> In c a /\ In c b.
Proof.
  unfold chan_inter. rewrite filter_In, chan_set_In, chan_mem_In.
  reflexivity.
Qed.

Lemma chan_diff_In (c : Channel) (a b : list Channel) :
  In c (chan_diff a b) <-> In c a /\ ~ In c b.
Proof.
  unfold chan_diff. rewrite filter_In, chan_set_In, negb_true_iff.
  rewrite <- Bool.not_true_iff_false, chan_mem_In. reflexivity.
Qed.

Lemma ts_get_In (c : Channel) (ts : TimeSlots) (l : list Interval) :
  ts_get c ts = Some l -> In (c, l) ts.
Proof.
  induction ts as [|[c0 l0] ts IH]; cbn [ts_get]; [discriminate|].
  destruct (Channel_eqb c0 c) eqn:He.
  - apply Channel_eqb_eq in He. subst c0. intros H. inversion H.
    left. reflexivity.
  - intros H. right. apply IH, H.
Qed.

Lemma ts_get_None (c : Channel) (ts : TimeSlots) :
  ts_get c ts = None <-> ~ In c (map fst ts).
Proof.
  induction ts as [|[c0 l0] ts IH]; cbn [ts_get map In fst].
  - split; [intros _ [] | reflexivity].
  - destruct (Channel_eqb c0 c) eqn:He.
    + apply Channel_eqb_eq in He. subst c0.
      split; [discriminate | intros H; exfalso; apply H; left; reflexivity].
    + apply Channel_eqb_neq in He. rewrite IH. tauto.
Qed.

Lemma ts_get_Some_key (c : Channel) (ts : TimeSlots) (l : list Interval) :
  ts_get c ts = Some l -> In c (map fst ts).
Proof.
  intros H. apply ts_get_In in H. apply (in_map fst) in H. exact H.
Qed.

End ChannelFacts.

(** ** Start and stop times over channels without intervals *)

Module Defaults.

Lemma first_starts_nil (self : Schedule) (chans : list Channel) :
  no_empty_slot self ->
  (forall c, In c chans -> ~ carries self c) ->
  first_starts (_timeslots self) chans = Ok [].
Proof.
  intros Hne Hno. induction chans as [|c chans IH]; [reflexivity|].
  cbn [first_starts].
  destruct (ts_get c (_timeslots self)) as [l|] eqn:Hg.
  - exfalso. pose proof (ChannelFacts.ts_get_In _ _ _ Hg) as Hin.
    unfold no_empty_slot in Hne. rewrite Forall_forall in Hne.
    specialize (Hne _ Hin). cbn [snd] in Hne.
    destruct l as [|iv l]; [apply Hne; reflexivity|].
    apply (Hno c (or_introl eq_refl)). exists (iv :: l), iv.
    split; [exact Hg | left; reflexivity].
  - apply IH. intros c' Hc'. apply Hno. right. exact Hc'.
Qed.

Lemma last_stops_nil (self : Schedule) (chans : list Channel) :
  no_empty_slot self ->
  (forall c, In c chans -> ~ carries self c) ->
  last_stops (_timeslots self) chans = Ok [].
Proof.
  intros Hne Hno. induction chans as [|c chans IH]; [reflexivity|].
  cbn [last_stops].
  destruct (ts_get c (_timeslots self)) as [l|] eqn:Hg.
  - exfalso. pose proof (ChannelFacts.ts_get_In _ _ _ Hg) as Hin.
    unfold no_empty_slot in Hne. rewrite Forall_forall in Hne.
    specialize (Hne _ Hin). cbn [snd] in Hne.
    destruct l as [|iv l]; [apply Hne; reflexivity|].
    apply (Hno c (or_introl eq_refl)). exists (iv :: l), iv.
    split; [exact Hg | left; reflexivity].
  - apply IH. intros c' Hc'. apply Hno. right. exact Hc'.
Qed.

End Defaults.

(** C10.  On a schedule whose timeslots hold no empty list (every schedule
    the module builds), [ch_start_time] and [ch_stop_time] return 0 when
    none of the supplied channels carries an interval.  This covers a call
    with no channels, a call with channels the schedule does not know, any
    call on an empty schedule, and [start_time] of an empty schedule. *)
Theorem ch_times_default :
  (forall self chans,
      no_empty_slot self ->
      (forall c, In c chans -> ~ carries self c) ->
      ch_start_time self chans = Ok 0 /\ ch_stop_time self chans = Ok 0)
  /\ (forall self, ch_start_time self [] = Ok 0 /\ ch_stop_time self [] = Ok 0)
  /\ (forall self chans,
         (forall c, In c chans -> ~ In c (channels self)) ->
         ch_start_time self chans = Ok 0 /\ ch_stop_time self chans = Ok 0)
  /\ (forall name metadata chans,
         ch_start_time (empty_schedule name metadata) chans = Ok 0
         /\ ch_stop_time (empty_schedule name metadata) chans = Ok 0)
  /\ (forall name metadata, start_time (empty_schedule name metadata) = Ok 0).
Proof.
  assert (Hgen : forall self chans,
             no_empty_slot self ->
             (forall c, In c chans -> ~ carries self c) ->
             ch_start_time self chans = Ok 0 /\ ch_stop_time self chans = Ok 0).
  { intros self chans Hne Hno. unfold ch_start_time, ch_stop_time.
    rewrite Defaults.first_starts_nil, Defaults.last_stops_nil by assumption.
    split; reflexivity. }
  split; [exact Hgen|]. split; [intros self; split; reflexivity|].
  split; [|split].
  - intros self chans Hno. unfold ch_start_time, ch_stop_time.
    assert (H1 : first_starts (_timeslots self) chans = Ok []
                 /\ last_stops (_timeslots self) chans = Ok []).
    { induction chans as [|c chans IH]; [split; reflexivity|].
      cbn [first_starts last_stops].
      assert (Hg : ts_get c (_timeslots self) = None)
        by (apply ChannelFacts.ts_get_None, Hno; left; reflexivity).
      rewrite Hg. apply IH. intros c' Hc'. apply Hno. right. exact Hc'. }
    destruct H1 as [-> ->]. split; reflexivity.
  - intros name metadata chans. apply Hgen.
    + constructor.
    + intros c _ (l & iv & Hg & _). discriminate Hg.
  - intros name metadata. reflexivity.
Qed.

Lemma ch_times_default_witness :
  ch_start_time
    (mkSchedule "s" [] 100 [(DriveChannel 0, [(0, 100)])] [])
    [DriveChannel 1; DriveChannel 2] = Ok 0
  /\ ch_stop_time
       (mkSchedule "s" [] 100 [(DriveChannel 0, [(0, 100)])] [])
       [DriveChannel 1; DriveChannel 2] = Ok 0.
Proof.
  apply (proj1 ch_times_default).
  - repeat constructor. cbn. discriminate.
  - intros c [<-|[<-|[]]] (l & iv & Hg & _); discriminate Hg.
Defined.

(** ** The order of [Schedule.instructions] *)

Module SortFacts.

Lemma strict_total_weak {A : Type} (ltb : A -> A -> bool) :
  StrictTotal ltb -> StrictWeak ltb.
Proof.
  intros ST. split; [apply (st_asym ltb ST)|].
  intros a b c Hab Hbc.
  destruct (ltb c a) eqn:Hca; [exfalso|reflexivity].
  destruct (ltb a b) eqn:Hlt.
  - rewrite (st_trans ltb ST c a b Hca Hlt) in Hbc. discriminate.
  - pose proof (st_total ltb ST a b Hlt Hab). subst b. congruence.
Qed.

Lemma strict_weak_on_key {A K : Type} (ltb : K -> K -> bool) (f : A -> K) :
  StrictWeak ltb -> StrictWeak (fun a b => ltb (f a) (f b)).
Proof.
  intros SW. split.
  - intros a b. apply (sw_asym ltb SW).
  - intros a b c. apply (sw_le_trans ltb SW).
Qed.

Section Order.
Context {A : Type} (ltb : A -> A -> bool) (SW : StrictWeak ltb).

Lemma sorted_insert_perm (x : A) (l : list A) :
  Permutation (sorted_insert ltb x l) (x :: l).
Proof.
  induction l as [|y l IH]; cbn [sorted_insert]; [reflexivity|].
  destruct (ltb y x); [|reflexivity].
  rewrite IH. apply perm_swap.
Qed.

Lemma sorted_perm (l : list A) : Permutation (sorted ltb l) l.
Proof.
  induction l as [|x l IH]; cbn [sorted]; [reflexivity|].
  rewrite sorted_insert_perm, IH. reflexivity.
Qed.

Lemma sorted_insert_sorted (x : A) (l : list A) :
  StronglySorted (not_greater ltb) l ->
  StronglySorted (not_greater ltb) (sorted_insert ltb x l).
Proof.
  induction 1 as [|y l Hs IH Hy]; cbn [sorted_insert].
  - repeat constructor.
  - destruct (ltb y x) eqn:Hyx.
    + constructor; [exact IH|].
      rewrite Forall_forall in Hy |- *. intros z Hz.
      apply (Permutation_in _ (sorted_insert_perm x l)) in Hz.
      destruct Hz as [<-|Hz]; [|apply Hy, Hz].
      apply (sw_asym ltb SW), Hyx.
    + constructor; [constructor; assumption|].
      constructor; [exact Hyx|].
      eapply Forall_impl; [|exact Hy].
      intros z Hz. eapply (sw_le_trans ltb SW); [exact Hyx | exact Hz].
Qed.

Lemma sorted_sorted (l : list A) :
  StronglySorted (not_greater ltb) (sorted ltb l).
Proof.
  induction l as [|x l IH]; cbn [sorted]; [constructor|].
  apply sorted_insert_sorted, IH.
Qed.

(** In a sorted list an element is not greater than any later one. *)
Lemma sorted_apart (l l1 l2 l3 : list A) (p q : A) :
  StronglySorted (not_greater ltb) l -> l = l1 ++ p :: l2 ++ q :: l3 ->
  not_greater ltb p q.
Proof.
  intros Hs ->. induction l1 as [|x l1 IH]; cbn [app] in Hs.
  - apply StronglySorted_inv in Hs. destruct Hs as [_ Hs].
    rewrite Forall_forall in Hs. apply Hs.
    apply in_or_app. right. left. reflexivity.
  - apply StronglySorted_inv in Hs. apply IH, Hs.
Qed.

End Order.

(** Sequences compare as strict total orders when their elements do. *)
Lemma list_ltb_strict {A : Type} (eqb ltb : A -> A -> bool) :
  (forall a b, eqb a b = true <-> a = b) ->
  StrictTotal ltb -> StrictTotal (list_ltb eqb ltb).
Proof.
  intros Heq ST.
  assert (Hrefl : forall a, eqb a a = true) by (intros; apply Heq; reflexivity).
  split.
  - intros a. induction a as [|x a IH]; intros [|y b]; cbn [list_ltb];
      try reflexivity; try discriminate.
    destruct (eqb x y) eqn:E.
    + apply Heq in E. subst y. rewrite Hrefl. apply IH.
    + destruct (eqb y x) eqn:E'.
      * apply Heq in E'. subst y. rewrite Hrefl in E. discriminate.
      * apply (st_asym ltb ST).
  - intros a. induction a as [|x a IH]; intros [|y b] [|z c];
      cbn [list_ltb]; try reflexivity; try discriminate.
    destruct (eqb x y) eqn:E1.
    + apply Heq in E1. subst y. destruct (eqb x z); [apply IH|trivial].
    + destruct (eqb y z) eqn:E2.
      * apply Heq in E2. subst z. rewrite E1. trivial.
      * intros H1 H2. pose proof (st_trans ltb ST x y z H1 H2) as H3.
        destruct (eqb x z) eqn:E3; [|exact H3].
        apply Heq in E3. subst z.
        rewrite (st_asym ltb ST x y H1) in H2. discriminate.
  - intros a. induction a as [|x a IH]; intros [|y b]; cbn [list_ltb];
      try reflexivity; try discriminate.
    destruct (eqb x y) eqn:E.
    + apply Heq in E. subst y. rewrite Hrefl.
      intros H1 H2. f_equal. apply IH; assumption.
    + destruct (eqb y x) eqn:E'.
      * apply Heq in E'. subst y. rewrite Hrefl in E. discriminate.
      * intros H1 H2. rewrite (st_total ltb ST x y H1 H2) in E.
        rewrite Hrefl in E. discriminate.
Qed.

Lemma string_ltb_lt (a b : string) :
  String.ltb a b = true <-> String_as_OT.lt a b.
Proof.
  rewrite <- String_as_OT.cmp_lt. unfold String.ltb, String_as_OT.cmp.
  destruct (String.compare a b); split; intros; congruence.
Qed.

Lemma string_ltb_strict : StrictTotal String.ltb.
Proof.
  split.
  - intros a b H. unfold String.ltb in *. rewrite String.compare_antisym.
    destruct (String.compare a b); try discriminate. reflexivity.
  - intros a b c H1 H2. apply string_ltb_lt in H1, H2. apply string_ltb_lt.
    eapply String_as_OT.lt_trans; eassumption.
  - intros a b H1 H2. unfold String.ltb in *.
    rewrite String.compare_antisym in H2.
    destruct (String.compare a b) eqn:E; try discriminate.
    apply String.compare_eq_iff, E.
Qed.

Lemma names_ltb_strict : StrictTotal (list_ltb String.eqb String.ltb).
Proof.
  apply list_ltb_strict; [apply String.eqb_eq | apply string_ltb_strict].
Qed.

Ltac key_cases :=
  cbn [key_ltb];
  repeat match goal with
         | |- context [?a =? ?b] => destruct (Z.eqb_spec a b); [subst|]
         end;
  try lia; try (rewrite ?Z.ltb_lt, ?Z.ltb_ge; lia).

Lemma key_ltb_strict : StrictTotal key_ltb.
Proof.
  pose proof names_ltb_strict as N. split.
  - intros [[t1 d1] n1] [[t2 d2] n2]. key_cases. apply (st_asym _ N).
  - intros [[t1 d1] n1] [[t2 d2] n2] [[t3 d3] n3]. key_cases.
    apply (st_trans _ N).
  - intros [[t1 d1] n1] [[t2 d2] n2]. key_cases.
    intros H1 H2. rewrite (st_total _ N n1 n2 H1 H2). reflexivity.
Qed.

End SortFacts.

(** C9.  [instructions] is a rearrangement of the flattened tree in which
    no pair has a later pair with a smaller key, the key being (start time,
    duration, sorted channel names): of two pairs the earlier-listed one
    starts no later; at equal start times it is no longer; at equal start
    times and durations its sorted channel-name list is not
    lexicographically greater.  A pair with the same start and a strictly
    shorter duration, or the same start and duration and a strictly smaller
    name list, therefore comes first. *)
Theorem instructions_sorted_by_key (self : Schedule) :
  Permutation (instructions self) (_instructions self 0)
  /\ (forall p, In p (instructions self) ->
        StronglySorted (fun a b => String.ltb b a = false) (snd (key p)))
  /\ (forall l1 p l2 q l3,
        instructions self = l1 ++ p :: l2 ++ q :: l3 ->
        key_ltb (key q) (key p) = false
        /\ fst p <= fst q
        /\ (fst p = fst q ->
            inst_duration (snd p) <= inst_duration (snd q)
            /\ (inst_duration (snd p) = inst_duration (snd q) ->
                list_ltb String.eqb String.ltb
                  (snd (key q)) (snd (key p)) = false))).
Proof.
  split; [apply SortFacts.sorted_perm|]. split.
  - intros p _. apply SortFacts.sorted_sorted.
    apply SortFacts.strict_total_weak, SortFacts.string_ltb_strict.
  - intros l1 p l2 q l3 Hl.
    assert (Hle : key_ltb (key q) (key p) = false).
    { apply (SortFacts.sorted_apart
               (fun a b => key_ltb (key a) (key b))
               (instructions self) l1 l2 l3 p q); [|exact Hl].
      apply SortFacts.sorted_sorted.
      apply SortFacts.strict_weak_on_key, SortFacts.strict_total_weak,
        SortFacts.key_ltb_strict. }
    split; [exact Hle|]. revert Hle. unfold key. cbn [key_ltb snd fst].
    destruct (Z.eqb_spec (fst q) (fst p)) as [Et|Et];
      [|rewrite Z.ltb_ge; intros; split; lia].
    destruct (Z.eqb_spec (inst_duration (snd q)) (inst_duration (snd p)))
      as [Ed|Ed].
    + intros Hn. split; [lia|]. intros _. split; [lia|]. intros _. exact Hn.
    + rewrite Z.ltb_ge. intros Hd. split; [lia|]. intros _.
      split; [lia|]. intros Hd'. lia.
Qed.

(** ** The offset chosen by [append] *)

Module AppendFacts.

Lemma fold_max_spec (r : list Z) (x : Z) :
  (fold_left Z.max r x = x \/ In (fold_left Z.max r x) r)
  /\ x <= fold_left Z.max r x
  /\ Forall (fun v => v <= fold_left Z.max r x) r.
Proof.
  revert x. induction r as [|y r IH]; intros x; cbn [fold_left].
  - repeat split; [left; reflexivity | lia | constructor].
  - destruct (IH (Z.max x y)) as (H1 & H2 & H3). repeat split.
    + destruct H1 as [H1|H1]; [|right; right; exact H1].
      rewrite H1. destruct (Z.max_spec x y) as [[_ ->]|[_ ->]];
        [right; left; reflexivity | left; reflexivity].
    + lia.
    + constructor; [lia | exact H3].
Qed.

Lemma py_max_spec (l : list Z) (m : Z) :
  py_max l = Ok m -> In m l /\ Forall (fun v => v <= m) l.
Proof.
  destruct l as [|x r]; cbn [py_max]; [discriminate|].
  intros H. inversion H as [Hm]. clear H.
  destruct (fold_max_spec r x) as (H1 & H2 & H3). split.
  - destruct H1 as [->|H1]; [left; reflexivity | right; exact H1].
  - constructor; assumption.
Qed.

(** The generator of [ch_stop_time] yields the last stops of the supplied
    channels that the schedule knows. *)
Lemma last_stops_spec (self : Schedule) (chans : list Channel) :
  no_empty_slot self ->
  exists vs, last_stops (_timeslots self) chans = Ok vs
             /\ forall v, In v vs <->
                          exists c, In c chans /\ last_stop self c v.
Proof.
  intros Hne. induction chans as [|c chans (vs & Hvs & Hin)].
  - exists []. split; [reflexivity|]. intros v. split; [intros []|].
    intros (c & [] & _).
  - cbn [last_stops].
    destruct (ts_get c (_timeslots self)) as [l|] eqn:Hg.
    + pose proof (ChannelFacts.ts_get_In _ _ _ Hg) as Hl.
      unfold no_empty_slot in Hne. rewrite Forall_forall in Hne.
      specialize (Hne _ Hl). cbn [snd] in Hne.
      destruct l as [|i l]; [exfalso; apply Hne; reflexivity|].
      cbn [last_interval bind]. rewrite Hvs. cbn [bind].
      eexists. split; [reflexivity|]. intros v. cbn [In]. rewrite Hin.
      split.
      * intros [<-|(c' & Hc' & Hs)].
        -- exists c. split; [left; reflexivity|].
           exists (i :: l), (last l i). repeat split. exact Hg.
        -- exists c'. split; [right; exact Hc' | exact Hs].
      * intros (c' & [<-|Hc'] & Hs).
        -- left. destruct Hs as (l' & f & Hg' & Hl' & <-).
           rewrite Hg in Hg'. inversion Hg'; subst l'.
           cbn in Hl'. inversion Hl'. reflexivity.
        -- right. exists c'. split; assumption.
    + exists vs. split; [exact Hvs|]. intros v. rewrite Hin. split.
      * intros (c' & Hc' & Hs). exists c'. split; [right; exact Hc'|exact Hs].
      * intros (c' & [<-|Hc'] & Hs).
        -- destruct Hs as (l' & f & Hg' & _). rewrite Hg in Hg'. discriminate.
        -- exists c'. split; assumption.
Qed.

(** [ch_stop_time] is the largest last stop over the supplied channels the
    schedule knows, and 0 when it knows none of them. *)
Lemma ch_stop_time_spec (self : Schedule) (chans : list Channel) :
  no_empty_slot self ->
  exists time,
    ch_stop_time self chans = Ok time
    /\ (forall c stop, In c chans -> last_stop self c stop -> stop <= time)
    /\ ((exists c, In c chans /\ In c (channels self)) ->
        exists c, In c chans /\ last_stop self c time)
    /\ ((forall c, In c chans -> ~ In c (channels self)) -> time = 0).
Proof.
  intros Hne. destruct (last_stops_spec self chans Hne) as (vs & Hvs & Hin).
  unfold ch_stop_time. rewrite Hvs. cbn [bind].
  assert (Hknown : forall c, In c chans -> In c (channels self) ->
                             exists stop, last_stop self c stop).
  { intros c _ Hc. unfold channels in Hc.
    destruct (ts_get c (_timeslots self)) as [l|] eqn:Hg;
      [|apply ChannelFacts.ts_get_None in Hg; contradiction].
    pose proof (ChannelFacts.ts_get_In _ _ _ Hg) as Hl.
    unfold no_empty_slot in Hne. rewrite Forall_forall in Hne.
    specialize (Hne _ Hl). cbn [snd] in Hne.
    destruct l as [|i l]; [exfalso; apply Hne; reflexivity|].
    exists (snd (last l i)), (i :: l), (last l i). repeat split. exact Hg. }
  destruct vs as [|v vs].
  - exists 0. split; [reflexivity|]. repeat split.
    + intros c stop Hc Hs. exfalso. apply (proj2 (Hin stop)).
      exists c. split; assumption.
    + intros (c & Hc & Hk). destruct (Hknown c Hc Hk) as (stop & Hs).
      exfalso. apply (proj2 (Hin stop)). exists c. split; assumption.
  - destruct (py_max (v :: vs)) as [m|e] eqn:Hm; [|discriminate Hm].
    destruct (py_max_spec _ _ Hm) as [H1 H2]. rewrite Forall_forall in H2.
    exists m. cbn [except_ValueError]. split; [reflexivity|]. repeat split.
    + intros c stop Hc Hs. apply H2, Hin. exists c. split; assumption.
    + intros _. apply Hin, H1.
    + intros Hnone. apply Hin in H1. destruct H1 as (c & Hc & Hs).
      exfalso. apply (Hnone c Hc). destruct Hs as (l & f & Hg & _).
      eapply ChannelFacts.ts_get_Some_key, Hg.
Qed.

Lemma length_zero_iff {A} (l : list A) :
  (length l =? 0)%nat = true <-> forall x, ~ In x l.
Proof.
  destruct l as [|x l]; cbn.
  - split; [intros _ ? [] | reflexivity].
  - split; [discriminate|]. intros H. exfalso. apply (H x). left. reflexivity.
Qed.

(** The channels over which [append] takes its offset. *)
Lemma append_channels_In (self : Schedule) (schedule : ScheduleComponent)
  (c : Channel) :
  In c (append_channels self schedule) <->
  In c (channels self) /\ In c (component_channels schedule)
  /\ (has_dp_and_other schedule -> ~ In c dp_channels).
Proof.
  unfold append_channels, has_dp_and_other.
  destruct ((length (chan_diff (component_channels schedule) dp_channels)
             =? 0)%nat
            || (length (chan_inter (component_channels schedule) dp_channels)
                =? 0)%nat) eqn:Hc.
  - rewrite ChannelFacts.chan_inter_In.
    apply orb_true_iff in Hc. rewrite !length_zero_iff in Hc.
    split; [|tauto]. intros [H1 H2]. repeat split; try assumption.
    intros [(c1 & Hc1 & Hd1) (c2 & Hc2 & Hd2)]. exfalso.
    destruct Hc as [Hc|Hc].
    + apply (Hc c2), ChannelFacts.chan_diff_In. split; assumption.
    + apply (Hc c1), ChannelFacts.chan_inter_In. split; assumption.
  - rewrite ChannelFacts.chan_inter_In, ChannelFacts.chan_diff_In.
    apply orb_false_iff in Hc. destruct Hc as [Hc1 Hc2].
    assert (Hmix : (exists c0, In c0 (component_channels schedule)
                               /\ In c0 dp_channels)
                   /\ (exists c0, In c0 (component_channels schedule)
                                  /\ ~ In c0 dp_channels)).
    { split.
      - destruct (chan_inter (component_channels schedule) dp_channels)
          as [|x l] eqn:E; [discriminate Hc2|].
        exists x. apply ChannelFacts.chan_inter_In. rewrite E.
        left. reflexivity.
      - destruct (chan_diff (component_channels schedule) dp_channels)
          as [|x l] eqn:E; [discriminate Hc1|].
        exists x. apply ChannelFacts.chan_diff_In. rewrite E.
        left. reflexivity. }
    tauto.
Qed.

Section Scenario.
Variable merge : Schedule -> Z -> Schedule -> result (Schedule * Schedule).

Lemma append_channels_leaf (X : Channel) (d d' : Z) :
  append_channels (single_play d X) (Inst (play d' X)) = [X].
Proof.
  unfold append_channels, chan_diff, chan_inter.
  cbn [component_channels play inst_channels chan_set chan_mem existsb filter
         single_play channels _timeslots map fst].
  rewrite ChannelFacts.Channel_eqb_refl. cbn.
  destruct (Channel_eqb X (DriveChannel 24)), (Channel_eqb X (DriveChannel 1));
    cbn; rewrite ?ChannelFacts.Channel_eqb_refl; reflexivity.
Qed.

(** Appending a leaf of duration 50 to a single leaf of duration 100 on
    the same channel. *)
Lemma append_after_single_play (X : Channel) (name : option string)
  (inplace : bool) :
  exists R,
    snd (append merge (Inst (play 50 X)) name inplace (single_play 100 X))
    = Ok R
    /\ duration R = 150
    /\ _timeslots R = [(X, [(0, 100); (100, 150)])]
    /\ last (_children R) (0, Inst (play 0 X)) = (100, Inst (play 50 X))
    /\ instructions R = [(0, play 100 X); (100, play 50 X)].
Proof.
  unfold append, append_time. rewrite append_channels_leaf.
  unfold ch_stop_time. cbn [single_play _timeslots last_stops ts_get].
  rewrite ChannelFacts.Channel_eqb_refl.
  cbn [last_interval bind last snd py_max fold_left except_ValueError].
  destruct inplace.
  - cbn [insert _mutable_insert dp_merge_applies].
    unfold insert_tail, _add_timeslots.
    repeat (cbn; rewrite ?ChannelFacts.Channel_eqb_refl).
    eexists. split; [reflexivity|]. repeat split.
  - cbn [insert]. unfold _immutable_insert, _mutable_insert.
    cbn [dp_merge_applies initialize_from empty_schedule channels _timeslots
           map chan_inter chan_set filter length Nat.eqb negb].
    rewrite andb_false_r.
    unfold insert_tail, _add_timeslots.
    repeat (cbn; rewrite ?ChannelFacts.Channel_eqb_refl).
    eexists. split; [reflexivity|]. repeat split.
Qed.

(** The sample schedules are what the constructor builds from their
    leaves. *)
Lemma samples_built :
  Schedule_init merge [(0, Inst (play 100 (DriveChannel 1)))] "sched" []
  = Ok (single_play 100 (DriveChannel 1))
  /\ Schedule_init merge
       [(0, Inst (play 10 (DriveChannel 0)));
        (0, Inst (play 10 (DriveChannel 1)))] "pair" []
     = Ok two_channel_schedule.
Proof. split; reflexivity. Qed.

End Scenario.

End AppendFacts.

(** C3 as written fails: the receiver holds a leaf of duration 100 on
    [DriveChannel 1], the component has [DriveChannel 0] and
    [DriveChannel 1]; the only shared channel stops at 100 and the offset
    computed is 0. *)
Lemma append_skips_dp_channel :
  append_time (single_play 100 (DriveChannel 1)) (Sched two_channel_schedule)
  = Ok 0
  /\ ch_stop_time (single_play 100 (DriveChannel 1))
       (chan_inter (channels (single_play 100 (DriveChannel 1)))
          (component_channels (Sched two_channel_schedule)))
     = Ok 100
  /\ ~ append_offset_over_shared (single_play 100 (DriveChannel 1))
        (Sched two_channel_schedule).
Proof.
  split; [reflexivity|]. split; [reflexivity|].
  unfold append_offset_over_shared. intros H. vm_compute in H. discriminate H.
Qed.

(** C3, amended.  [append] inserts the component at the maximum stop time
    over the channels shared by the receiver and the component - leaving
    [DriveChannel 24] and [DriveChannel 1] out when the component has one
    of them together with some other channel - and at 0 when no channel
    is left.  Appending a leaf of duration 50 on a channel to a schedule
    holding one leaf of duration 100 at 0 on that channel places it at 100
    and gives duration 150. *)
Theorem append_offset :
  (forall merge self schedule name inplace,
      no_empty_slot self ->
      exists time,
        append_time self schedule = Ok time
        /\ append merge schedule name inplace self
           = insert merge time schedule name inplace self
        /\ (forall c, In c (append_channels self schedule) <->
                      In c (channels self)
                      /\ In c (component_channels schedule)
                      /\ (has_dp_and_other schedule -> ~ In c dp_channels))
        /\ (forall c stop, In c (append_channels self schedule) ->
                           last_stop self c stop -> stop <= time)
        /\ ((exists c, In c (append_channels self schedule)) ->
            exists c, In c (append_channels self schedule)
                      /\ last_stop self c time)
        /\ ((forall c, ~ In c (append_channels self schedule)) -> time = 0))
  /\ (forall merge X name inplace,
         exists R,
           snd (append merge (Inst (play 50 X)) name inplace
                  (single_play 100 X)) = Ok R
           /\ duration R = 150
           /\ _timeslots R = [(X, [(0, 100); (100, 150)])]
           /\ last (_children R) (0, Inst (play 0 X))
              = (100, Inst (play 50 X))
           /\ instructions R = [(0, play 100 X); (100, play 50 X)]).
Proof.
  split; [|intros; apply AppendFacts.append_after_single_play].
  intros merge self schedule name inplace Hne.
  destruct (AppendFacts.ch_stop_time_spec self
              (append_channels self schedule) Hne)
    as (time & Ht & Hle & Hmax & Hzero).
  exists time. unfold append, append_time. rewrite Ht.
  split; [reflexivity|]. split; [reflexivity|].
  split; [apply AppendFacts.append_channels_In|].
  split; [exact Hle|]. split.
  - intros (c & Hc). apply Hmax. exists c. split; [exact Hc|].
    apply AppendFacts.append_channels_In in Hc. tauto.
  - intros Hnone. apply Hzero. intros c Hc. exfalso. apply (Hnone c Hc).
Qed.

Lemma append_offset_witness :
  exists time,
    append_time (single_play 100 (DriveChannel 0))
      (Inst (play 50 (DriveChannel 0))) = Ok time
    /\ time = 100.
Proof.
  destruct (proj1 append_offset (fun _ _ _ => Raise KeyError)
              (single_play 100 (DriveChannel 0))
              (Inst (play 50 (DriveChannel 0))) None true)
    as (time & Ht & _).
  - repeat constructor. cbn. discriminate.
  - exists time. split; [exact Ht|].
    vm_compute in Ht. inversion Ht. reflexivity.
Defined.

(** ** Shifting twice and shifting once *)

Module ShiftFacts.

Lemma check_nonnegative_ok (ts : TimeSlots) :
  (forall c l iv, In (c, l) ts -> In iv l -> 0 <= fst iv) ->
  _check_nonnegative_timeslot ts = Ok tt.
Proof.
  induction ts as [|[c l] ts IH]; intros H; cbn [_check_nonnegative_timeslot];
    [reflexivity|].
  assert (IH' : _check_nonnegative_timeslot ts = Ok tt).
  { apply IH. intros c' l' iv Hin. apply (H c'). right. exact Hin. }
  destruct l as [|first l]; [exact IH'|].
  specialize (H c (first :: l) first (or_introl eq_refl) (or_introl eq_refl)).
  destruct (Z.ltb_spec (fst first) 0); [lia | exact IH'].
Qed.

Lemma shift_timeslots_nonneg (self : Schedule) (d : Z) :
  starts_nonneg_after self d ->
  _check_nonnegative_timeslot (shift_timeslots d (_timeslots self)) = Ok tt.
Proof.
  intros H. apply check_nonnegative_ok. intros c l iv Hin Hiv.
  unfold shift_timeslots in Hin. apply in_map_iff in Hin.
  destruct Hin as ([c0 l0] & Heq & Hin). cbn [fst snd] in Heq.
  inversion Heq; subst c l. apply in_map_iff in Hiv.
  destruct Hiv as (iv0 & <- & Hiv0). cbn [shift_interval fst].
  eapply H; eassumption.
Qed.

Lemma shift_timeslots_keys (d : Z) (ts : TimeSlots) :
  map fst (shift_timeslots d ts) = map fst ts.
Proof.
  unfold shift_timeslots. rewrite map_map. reflexivity.
Qed.

Lemma shift_timeslots_twice (d1 d2 : Z) (ts : TimeSlots) :
  shift_timeslots d2 (shift_timeslots d1 ts) = shift_timeslots (d1 + d2) ts.
Proof.
  unfold shift_timeslots. rewrite map_map. apply map_ext.
  intros [c l]. cbn [fst snd]. f_equal. rewrite map_map. apply map_ext.
  intros [a b]. unfold shift_interval. cbn [fst snd]. f_equal; lia.
Qed.

(** The copy made when the start time is 0 equals the list moved by 0. *)
Lemma shift_or_copy (time : Z) (l : list Interval) :
  (if time =? 0 then l else map (shift_interval time) l)
  = map (shift_interval time) l.
Proof.
  destruct (Z.eqb_spec time 0) as [->|_]; [|reflexivity].
  induction l as [|[a b] l IH]; [reflexivity|].
  cbn [map]. rewrite <- IH. unfold shift_interval. cbn [fst snd].
  rewrite !Z.add_0_r. reflexivity.
Qed.

Lemma ts_get_app_fresh (c : Channel) (l : list Interval)
  (pre post : TimeSlots) :
  ~ In c (map fst pre) -> ts_get c (pre ++ (c, l) :: post) = Some l.
Proof.
  induction pre as [|[c0 l0] pre IH]; intros H; cbn [app ts_get].
  - rewrite ChannelFacts.Channel_eqb_refl. reflexivity.
  - cbn [map fst In] in H.
    destruct (Channel_eqb c0 c) eqn:E.
    + apply ChannelFacts.Channel_eqb_eq in E. tauto.
    + apply IH. tauto.
Qed.

Lemma ts_set_fresh (c : Channel) (l : list Interval) (ts : TimeSlots) :
  ~ In c (map fst ts) -> ts_set c l ts = ts ++ [(c, l)].
Proof.
  induction ts as [|[c0 l0] ts IH]; intros H; cbn [app ts_set];
    [reflexivity|].
  cbn [map fst In] in H. destruct (Channel_eqb c0 c) eqn:E.
  - apply ChannelFacts.Channel_eqb_eq in E. tauto.
  - rewrite IH by tauto. reflexivity.
Qed.

(** Adding a whole timeslot dictionary to an empty one moves it. *)
Lemma add_channels_fresh (time : Z) (new old : string)
  (pre post : TimeSlots) :
  NoDup (map fst (pre ++ post)) ->
  add_channels time new old (pre ++ post) (map fst post)
    (shift_timeslots time pre)
  = (shift_timeslots time (pre ++ post), Ok tt).
Proof.
  revert pre. induction post as [|[c l] post IH]; intros pre Hnd.
  - rewrite app_nil_r. reflexivity.
  - cbn [map fst add_channels].
    assert (Hfresh : ~ In c (map fst pre)).
    { rewrite map_app in Hnd. cbn [map fst] in Hnd.
      apply NoDup_remove_2 in Hnd. intros Hc. apply Hnd.
      apply in_or_app. left. exact Hc. }
    rewrite ts_get_app_fresh by exact Hfresh.
    assert (Hnone : ts_get c (shift_timeslots time pre) = None).
    { apply ChannelFacts.ts_get_None. rewrite shift_timeslots_keys.
      exact Hfresh. }
    rewrite Hnone, shift_or_copy.
    rewrite ts_set_fresh by (rewrite shift_timeslots_keys; exact Hfresh).
    specialize (IH (pre ++ [(c, l)])).
    rewrite <- app_assoc in IH. cbn [app] in IH.
    replace (shift_timeslots time pre ++ [(c, map (shift_interval time) l)])
      with (shift_timeslots time (pre ++ [(c, l)]))
      by (unfold shift_timeslots; rewrite map_app; reflexivity).
    apply IH, Hnd.
Qed.

Section Shift.
Variable merge : Schedule -> Z -> Schedule -> result (Schedule * Schedule).

Lemma dp_merge_applies_fresh (self : Schedule) (c : ScheduleComponent) :
  _timeslots self = [] -> dp_merge_applies self c = false.
Proof.
  intros H. destruct c as [i|s]; [reflexivity|].
  unfold dp_merge_applies, channels. rewrite H. cbn. apply andb_false_r.
Qed.

(** What a successful shift returns, in place or not: the timeslots moved
    by [d] and a tree whose flattening at [t] is the receiver's at
    [t + d]. *)
Lemma shift_result (d : Z) (name : option string) (inplace : bool)
  (self : Schedule) :
  distinct_channels self -> starts_nonneg_after self d ->
  exists R,
    shift merge d name inplace self = ((if inplace then R else self), Ok R)
    /\ _timeslots R = shift_timeslots d (_timeslots self)
    /\ forall t, _instructions R t = _instructions self (t + d).
Proof.
  intros Hnd Hnn. destruct inplace; cbn [shift].
  - unfold _mutable_shift. fold (shift_timeslots d (_timeslots self)).
    rewrite shift_timeslots_nonneg by exact Hnn.
    eexists. split; [reflexivity|]. split; [reflexivity|].
    intros t. destruct self as [n m du ts ch].
    cbn [_instructions _children]. rewrite flat_map_concat_map, map_map.
    rewrite <- flat_map_concat_map. apply flat_map_ext.
    intros [off c]. cbn [fst snd].
    replace (t + (off + d)) with (t + d + off) by lia. reflexivity.
  - unfold _immutable_shift. cbn [insert]. unfold _mutable_insert.
    rewrite dp_merge_applies_fresh by reflexivity.
    unfold insert_tail, _add_timeslots.
    cbn [_get_timeslots component_channels component_name
           component_duration].
    unfold channels.
    pose proof (add_channels_fresh d (_name self)
                  (_name (initialize_from self name)) [] (_timeslots self))
      as Hadd.
    unfold shift_timeslots at 1 in Hadd. cbn [app map] in Hadd.
    cbn [set_duration _timeslots initialize_from empty_schedule].
    rewrite Hadd by exact Hnd.
    rewrite shift_timeslots_nonneg by exact Hnn.
    eexists. split; [reflexivity|]. split; [reflexivity|].
    intros t. cbn. rewrite app_nil_r. reflexivity.
Qed.

End Shift.

Lemma list_eqb_refl {A} (eqb : A -> A -> bool) (l : list A) :
  (forall a, eqb a a = true) -> list_eqb eqb l l = true.
Proof.
  intros H. induction l as [|x l IH]; [reflexivity|].
  cbn. rewrite H, IH. reflexivity.
Qed.

Lemma Instruction_eqb_refl (i : Instruction) : Instruction_eqb i i = true.
Proof.
  unfold Instruction_eqb.
  rewrite String.eqb_refl, Z.eqb_refl.
  rewrite !list_eqb_refl;
    [reflexivity | apply ChannelFacts.Channel_eqb_refl | apply Z.eqb_refl].
Qed.

Lemma chan_set_eqb_same (a b : list Channel) :
  a = b -> chan_set_eqb a b = true.
Proof.
  intros <-. unfold chan_set_eqb.
  assert (H : forallb (fun c => chan_mem c a) a = true).
  { apply forallb_forall. intros c Hc. apply ChannelFacts.chan_mem_In, Hc. }
  rewrite H. reflexivity.
Qed.

(** Two schedules with the same channels and the same flattening are
    equal for [==]. *)
Lemma Schedule_eq_same (a b : Schedule) :
  channels a = channels b -> _instructions a 0 = _instructions b 0 ->
  Schedule_eq a (Sched b) = true.
Proof.
  intros Hc Hi. unfold Schedule_eq. cbn [component_channels
    component_instructions]. rewrite chan_set_eqb_same by exact Hc.
  unfold instructions. rewrite Hi. cbn [negb]. rewrite Nat.eqb_refl.
  cbn [negb]. apply forallb_forall. intros [p q] Hin. cbn [fst snd].
  assert (p = q).
  { revert Hin. generalize (sorted (fun a0 b0 => key_ltb (key a0) (key b0))
                              (_instructions b 0)).
    intros l. induction l as [|x l IH]; cbn; [intros []|].
    intros [H|H]; [inversion H; reflexivity | apply IH, H]. }
  subst q. unfold time_inst_eqb. rewrite Z.eqb_refl, Instruction_eqb_refl.
  reflexivity.
Qed.

End ShiftFacts.

(** C7.  For every schedule and all integers [d1], [d2] such that every
    interval start stays non-negative after moving by [d1] and after moving
    by [d1 + d2], shifting by [d1] and then by [d2] succeeds, shifting by
    [d1 + d2] succeeds, and the two results are equal for [==], whichever
    of the in-place and copying variants is used at each step.  The keys of
    the timeslot dictionary are distinct, as in every dict. *)
Theorem shift_twice_is_shift_once
  (merge : Schedule -> Z -> Schedule -> result (Schedule * Schedule))
  (self : Schedule) (d1 d2 : Z) (n1 n2 n3 : option string) (b1 b2 b3 : bool) :
  distinct_channels self ->
  starts_nonneg_after self d1 ->
  starts_nonneg_after self (d1 + d2) ->
  exists R1 R12 R2,
    snd (shift merge d1 n1 b1 self) = Ok R1
    /\ snd (shift merge d2 n2 b2 R1) = Ok R12
    /\ snd (shift merge (d1 + d2) n3 b3 self) = Ok R2
    /\ Schedule_eq R12 (Sched R2) = true
    /\ Schedule_eq R2 (Sched R12) = true.
Proof.
  intros Hnd H1 H12.
  destruct (ShiftFacts.shift_result merge d1 n1 b1 self Hnd H1)
    as (R1 & E1 & T1 & I1).
  assert (Hnd1 : distinct_channels R1).
  { unfold distinct_channels, channels in *.
    rewrite T1, ShiftFacts.shift_timeslots_keys. exact Hnd. }
  assert (H2 : starts_nonneg_after R1 d2).
  { intros c l iv Hin Hiv. rewrite T1 in Hin.
    unfold shift_timeslots in Hin. apply in_map_iff in Hin.
    destruct Hin as ([c0 l0] & Heq & Hin). cbn [fst snd] in Heq.
    inversion Heq; subst c l. apply in_map_iff in Hiv.
    destruct Hiv as (iv0 & <- & Hiv0). cbn [shift_interval fst].
    specialize (H12 c0 l0 iv0 Hin Hiv0). lia. }
  destruct (ShiftFacts.shift_result merge d2 n2 b2 R1 Hnd1 H2)
    as (R12 & E12 & T12 & I12).
  destruct (ShiftFacts.shift_result merge (d1 + d2) n3 b3 self Hnd H12)
    as (R2 & E2 & T2 & I2).
  exists R1, R12, R2. rewrite E1, E12, E2. cbn [snd].
  assert (Hc : channels R12 = channels R2).
  { unfold channels. rewrite T12, T1, T2, !ShiftFacts.shift_timeslots_keys.
    reflexivity. }
  assert (Hi : _instructions R12 0 = _instructions R2 0).
  { rewrite I12, I1, I2. f_equal. lia. }
  repeat split; apply ShiftFacts.Schedule_eq_same; congruence.
Qed.

Lemma shift_twice_is_shift_once_witness :
  exists R12 R2,
    snd (shift (fun _ _ _ => Raise KeyError) (-3) None false
           (match snd (shift (fun _ _ _ => Raise KeyError) 5 None false
                         (single_play 100 (DriveChannel 0))) with
            | Ok R1 => R1
            | Raise _ => single_play 100 (DriveChannel 0)
            end)) = Ok R12
    /\ snd (shift (fun _ _ _ => Raise KeyError) 2 None true
              (single_play 100 (DriveChannel 0))) = Ok R2
    /\ Schedule_eq R12 (Sched R2) = true.
Proof.
  destruct (shift_twice_is_shift_once (fun _ _ _ => Raise KeyError)
              (single_play 100 (DriveChannel 0)) 5 (-3) None None None
              false false true)
    as (R1 & R12 & R2 & E1 & E12 & E2 & Heq & _).
  - repeat constructor. cbn. intros [].
  - intros c l iv [Hin|[]] Hiv. inversion Hin; subst.
    destruct Hiv as [<-|[]]. cbn. lia.
  - intros c l iv [Hin|[]] Hiv. inversion Hin; subst.
    destruct Hiv as [<-|[]]. cbn. lia.
  - exists R12, R2. rewrite E1. repeat split; assumption.
Defined.

(** ** The cached duration after a replacement *)

(** C4 fails on the code.  A schedule built from one leaf of duration 100
    has duration 100, the largest last stop.  Replacing the leaf in place
    by a leaf of duration 50 on the same channel succeeds and leaves the
    duration at 100 while the only interval now stops at 50:
    [_renew_timeslots] clears the timeslots and adds them again without
    resetting [_duration].  The copying variant of the same replacement
    returns duration 50.  Shifting an empty schedule in place by 5 gives
    duration 5 with no timeslots. *)
Theorem replace_in_place_stale_duration
  (merge : Schedule -> Z -> Schedule -> result (Schedule * Schedule)) :
  Schedule_init merge [(0, Inst (play 100 (DriveChannel 0)))] "sched" []
  = Ok (single_play 100 (DriveChannel 0))
  /\ duration_is_last_stop (single_play 100 (DriveChannel 0))
  /\ (exists R,
        replace merge (Inst (play 100 (DriveChannel 0)))
          (Inst (play 50 (DriveChannel 0))) true
          (single_play 100 (DriveChannel 0)) = (R, Ok R)
        /\ _children R = [(0, Inst (play 50 (DriveChannel 0)))]
        /\ _timeslots R = [(DriveChannel 0, [(0, 50)])]
        /\ last_stop_max (_timeslots R) = 50
        /\ duration R = 100
        /\ ~ duration_is_last_stop R)
  /\ (exists R,
        snd (replace merge (Inst (play 100 (DriveChannel 0)))
               (Inst (play 50 (DriveChannel 0))) false
               (single_play 100 (DriveChannel 0))) = Ok R
        /\ duration R = 50
        /\ duration_is_last_stop R)
  /\ (exists E,
        shift merge 5 None true (empty_schedule "sched" []) = (E, Ok E)
        /\ _timeslots E = []
        /\ duration E = 5
        /\ ~ duration_is_last_stop E).
Proof.
  split; [reflexivity|]. split; [reflexivity|]. split; [|split].
  - eexists. split; [reflexivity|]. repeat split. intros H. discriminate H.
  - eexists. split; [reflexivity|]. split; reflexivity.
  - eexists. split; [reflexivity|]. repeat split. intros H. discriminate H.
Qed.

(** ** Insertion against an occupied interval *)

Module InsertFacts.

Lemma find_insertion_raise (l : list Interval) (new : Interval) (e : exn) :
  _find_insertion_index l new = Raise e -> e = PulseError NewIntervalOverlaps.
Proof.
  unfold _find_insertion_index.
  destruct (nth_error l _) as [c|]; [|discriminate].
  destruct (_overlaps c new); [|discriminate].
  intros H. inversion H. reflexivity.
Qed.

Lemma In_list_insert {A} (k : nat) (x y : A) (l : list A) :
  In x (list_insert k y l) <-> x = y \/ In x l.
Proof.
  unfold list_insert. rewrite in_app_iff. cbn [In].
  rewrite <- (firstn_skipn k l) at 3. rewrite in_app_iff.
  split; intros H; repeat destruct H as [H|H]; auto.
Qed.

Lemma list_insert_not_nil {A} (k : nat) (y : A) (l : list A) :
  list_insert k y l <> [].
Proof.
  unfold list_insert. destruct (firstn k l); discriminate.
Qed.

Lemma last_default {A} (j i d : A) (l : list A) :
  last (j :: l) i = last (j :: l) d.
Proof.
  revert j. induction l as [|x l IH]; intros j; [reflexivity|].
  change (last (x :: l) i = last (x :: l) d). apply IH.
Qed.

(** In timeslot order the last interval stops last. *)
Lemma ordered_last_stop (l : list Interval) (final : Interval) :
  timeslot_ordered l -> last_interval l = Ok final ->
  Forall (fun j => snd j <= snd final) l.
Proof.
  intros [Hwf Hs]. destruct l as [|i l]; [discriminate|].
  cbn [last_interval]. intros H. inversion H as [Hf]. clear H Hf.
  revert i Hwf Hs. induction l as [|j l IH]; intros i Hwf Hs.
  - repeat constructor. cbn. lia.
  - apply Forall_cons_iff in Hwf. destruct Hwf as [Hwi Hwf].
    apply StronglySorted_inv in Hs. destruct Hs as [Hs Hi].
    specialize (IH j Hwf Hs).
    rewrite (last_default j i j l).
    replace (last (j :: l) j) with (last l j) by (destruct l; reflexivity).
    constructor; [|exact IH].
    apply Forall_cons_iff in Hi. destruct Hi as [Hij _].
    apply Forall_cons_iff in IH. destruct IH as [IHj _].
    apply Forall_cons_iff in Hwf. destruct Hwf as [Hwj _].
    unfold before, wf_interval in *. lia.
Qed.

(** In timeslot order no interval starts before the first one. *)
Lemma ordered_first_start (i : Interval) (l : list Interval) :
  timeslot_ordered (i :: l) -> Forall (fun j => fst i <= fst j) (i :: l).
Proof.
  intros [Hwf Hs]. apply Forall_cons_iff in Hwf. destruct Hwf as [Hwi Hwf].
  apply StronglySorted_inv in Hs. destruct Hs as [_ Hi].
  constructor; [lia|]. eapply Forall_impl; [|exact Hi].
  unfold before, wf_interval in *. intros; lia.
Qed.

Lemma ordered_tail (i : Interval) (l : list Interval) :
  timeslot_ordered (i :: l) -> timeslot_ordered l.
Proof.
  intros [Hwf Hs]. apply Forall_cons_iff in Hwf.
  apply StronglySorted_inv in Hs. split; tauto.
Qed.

Lemma wf_shift (time : Z) (i : Interval) :
  wf_interval i -> wf_interval (shift_interval time i).
Proof. unfold wf_interval, shift_interval. cbn [fst snd]. lia. Qed.

(** The inner loop ends in success with a non-empty list or in the
    [PulseError] of [_add_timeslots]. *)
Lemma merge_intervals_outcome (time : Z) (err : Interval -> PulseReason)
  (current others : list Interval) :
  current <> [] ->
  match merge_intervals time err current others with
  | (current', Ok _) => current' <> []
  | (_, Raise e) => exists i, e = PulseError (err i)
  end.
Proof.
  revert current. induction others as [|interval rest IH]; intros current Hne;
    cbn [merge_intervals]; [exact Hne|].
  destruct current as [|c0 current]; [contradiction|].
  cbn [last_interval].
  destruct (_ >=? _).
  - destruct (c0 :: current); discriminate.
  - destruct (_find_insertion_index (c0 :: current)
                (shift_interval time interval)) as [k|e] eqn:Hf.
    + apply IH, list_insert_not_nil.
    + rewrite (find_insertion_raise _ _ _ Hf). eexists. reflexivity.
Qed.

(** The inner loop raises when an interval still to be visited overlaps,
    once moved, an interval of the channel. *)
Lemma merge_intervals_overlap (time : Z) (err : Interval -> PulseReason)
  (current others : list Interval) :
  current <> [] -> timeslot_ordered current -> timeslot_ordered others ->
  (exists iv jv, In iv others /\ In jv current
                 /\ _overlaps jv (shift_interval time iv) = true) ->
  exists current' i,
    merge_intervals time err current others
    = (current', Raise (PulseError (err i))).
Proof.
  revert current.
  induction others as [|interval rest IH];
    intros current Hne Hcur Hoth (iv & jv & Hiv & Hjv & Hov).
  - destruct Hiv.
  - cbn [merge_intervals].
    destruct (last_interval current) as [final|e] eqn:Hlast;
      [|destruct current; [contradiction | discriminate]].
    destruct (Z.geb_spec (fst interval + time) (snd final)) as [Hge|Hlt].
    + exfalso.
      pose proof (ordered_last_stop _ _ Hcur Hlast) as Hmax.
      pose proof (ordered_first_start _ _ Hoth) as Hmin.
      rewrite Forall_forall in Hmax, Hmin.
      specialize (Hmax jv Hjv). specialize (Hmin iv Hiv).
      destruct Hcur as [Hwf _]. rewrite Forall_forall in Hwf.
      specialize (Hwf jv Hjv).
      apply IntervalFacts.overlaps_true_iff in Hov.
      unfold shift_interval, wf_interval in *. cbn [fst snd] in *. lia.
    + assert (Hwi : wf_interval (shift_interval time interval)).
      { apply wf_shift. destruct Hoth as [Hwf _].
        apply Forall_cons_iff in Hwf. tauto. }
      pose proof (Search.find_insertion_ordered current
                    (shift_interval time interval) Hcur Hwi) as Hfind.
      destruct (_find_insertion_index current (shift_interval time interval))
        as [k|e].
      * destruct Hfind as [Hord Hno]. rewrite Forall_forall in Hno.
        apply IH.
        -- apply list_insert_not_nil.
        -- exact Hord.
        -- eapply ordered_tail, Hoth.
        -- exists iv, jv. repeat split.
           ++ destruct Hiv as [<-|Hiv]; [|exact Hiv].
              rewrite (Hno jv Hjv) in Hov. discriminate.
           ++ apply In_list_insert. right. exact Hjv.
           ++ exact Hov.
      * destruct Hfind as [-> _]. eexists _, _. reflexivity.
Qed.

Lemma ts_get_set_other (c c' : Channel) (l : list Interval) (ts : TimeSlots) :
  c <> c' -> ts_get c' (ts_set c l ts) = ts_get c' ts.
Proof.
  intros Hne. induction ts as [|[c0 l0] ts IH]; cbn [ts_set ts_get].
  - destruct (Channel_eqb c c') eqn:E; [|reflexivity].
    apply ChannelFacts.Channel_eqb_eq in E. contradiction.
  - destruct (Channel_eqb c0 c) eqn:E; cbn [ts_get].
    + apply ChannelFacts.Channel_eqb_eq in E. subst c0.
      destruct (Channel_eqb c c') eqn:E'; [|reflexivity].
      apply ChannelFacts.Channel_eqb_eq in E'. contradiction.
    + destruct (Channel_eqb c0 c'); [reflexivity | exact IH].
Qed.

(** The loop over the component's channels raises the [PulseError] of
    [_add_timeslots] when one of them has an overlap. *)
Lemma add_channels_overlap (time : Z) (new old : string)
  (other : TimeSlots) (chans : list Channel) (ts : TimeSlots) :
  NoDup chans ->
  (forall c, In c chans ->
             exists others, ts_get c other = Some others
                            /\ timeslot_ordered others) ->
  (forall c l, In c chans -> ts_get c ts = Some l ->
               l <> [] /\ timeslot_ordered l) ->
  (exists channel others current iv jv,
      In channel chans
      /\ ts_get channel other = Some others
      /\ ts_get channel ts = Some current
      /\ In iv others /\ In jv current
      /\ _overlaps jv (shift_interval time iv) = true) ->
  exists ts' ch t0 tf,
    add_channels time new old other chans ts
    = (ts', Raise (PulseError (CannotBeInserted new old time ch t0 tf))).
Proof.
  revert ts. induction chans as [|c chans IH];
    intros ts Hnd Hoth Hts
      (channel & others & current & iv & jv & Hch & Ho & Hc & Hiv & Hjv & Hov).
  - destruct Hch.
  - cbn [add_channels]. apply NoDup_cons_iff in Hnd. destruct Hnd as [Hc' Hnd].
    destruct (Hoth c (or_introl eq_refl)) as (others_c & Hoc & Hordc).
    rewrite Hoc.
    assert (Hrest : forall ts1 l1,
               ts1 = ts_set c l1 ts ->
               exists ts' ch t0 tf,
                 add_channels time new old other chans ts1
                 = (ts', Raise (PulseError
                                  (CannotBeInserted new old time ch t0 tf)))
               \/ c = channel).
    { intros ts1 l1 ->.
      destruct (ChannelFacts.Channel_eqb_eq c channel) as [_ Heq].
      destruct (Channel_eqb c channel) eqn:E.
      - apply ChannelFacts.Channel_eqb_eq in E.
        exists [], ""%string, 0, 0. right. exact E.
      - apply ChannelFacts.Channel_eqb_neq in E.
        destruct (IH (ts_set c l1 ts) Hnd) as (ts' & ch & t0 & tf & H).
        + intros c1 Hc1. apply Hoth. right. exact Hc1.
        + intros c1 l Hc1. rewrite ts_get_set_other.
          * apply Hts. right. exact Hc1.
          * intros ->. contradiction.
        + exists channel, others, current, iv, jv.
          destruct Hch as [Hch|Hch]; [contradiction|].
          rewrite ts_get_set_other by exact E. repeat split; assumption.
        + exists ts', ch, t0, tf. left. exact H. }
    destruct (ts_get c ts) as [cur|] eqn:Hg.
    + destruct (Hts c cur (or_introl eq_refl) Hg) as [Hne Hord].
      destruct (Channel_eqb c channel) eqn:E.
      * apply ChannelFacts.Channel_eqb_eq in E. subst channel.
        rewrite Hoc in Ho. rewrite Hg in Hc.
        inversion Ho; subst others. inversion Hc; subst current.
        destruct (merge_intervals_overlap time
                    (fun i => CannotBeInserted new old time (chan_name c)
                                (fst i) (snd i))
                    cur others_c Hne Hord Hordc)
          as (cur' & i & Hm).
        { exists iv, jv. repeat split; assumption. }
        rewrite Hm. eexists _, _, _, _. reflexivity.
      * pose proof (merge_intervals_outcome time
                      (fun i => CannotBeInserted new old time (chan_name c)
                                  (fst i) (snd i))
                      cur others_c Hne) as Hout.
        destruct (merge_intervals time _ cur others_c) as [cur' [[]|e]].
        -- destruct (Hrest _ cur' eq_refl) as (ts' & ch & t0 & tf & [H|H]).
           ++ eexists _, _, _, _. exact H.
           ++ subst channel. rewrite ChannelFacts.Channel_eqb_refl in E.
              discriminate.
        -- destruct Hout as (i & ->). eexists _, _, _, _. reflexivity.
    + destruct (Hrest _ (if time =? 0 then others_c
                         else map (shift_interval time) others_c) eq_refl)
        as (ts' & ch & t0 & tf & [H|H]).
      * eexists _, _, _, _. exact H.
      * subst channel. rewrite Hg in Hc. discriminate.
Qed.

Lemma ts_get_set_same (c : Channel) (l : list Interval) (ts : TimeSlots) :
  ts_get c (ts_set c l ts) = Some l.
Proof.
  induction ts as [|[c0 l0] ts IH]; cbn [ts_set ts_get].
  - rewrite ChannelFacts.Channel_eqb_refl. reflexivity.
  - destruct (Channel_eqb c0 c) eqn:E; cbn [ts_get]; rewrite E;
      [reflexivity | exact IH].
Qed.

(** The dictionary comprehension of [_get_timeslots] on a leaf. *)
Lemma leaf_timeslots_lookup (v : list Interval) (chans : list Channel)
  (acc : TimeSlots) (c : Channel) :
  ts_get c (fold_left (fun ts channel => ts_set channel v ts) chans acc)
  = if chan_mem c chans then Some v else ts_get c acc.
Proof.
  revert acc. induction chans as [|x chans IH]; intros acc; [reflexivity|].
  cbn [fold_left]. rewrite IH. unfold chan_mem. cbn [existsb].
  fold (chan_mem c chans). destruct (chan_mem c chans);
    [rewrite orb_true_r; reflexivity|].
  rewrite orb_false_r. destruct (Channel_eqb c x) eqn:E.
  - apply ChannelFacts.Channel_eqb_eq in E. subst x. apply ts_get_set_same.
  - apply ChannelFacts.Channel_eqb_neq in E.
    apply ts_get_set_other. intros ->. apply E. reflexivity.
Qed.

Lemma leaf_timeslots_get (v : list Interval) (chans : list Channel)
  (acc : TimeSlots) (c : Channel) :
  In c chans ->
  ts_get c (fold_left (fun ts channel => ts_set channel v ts) chans acc)
  = Some v.
Proof.
  intros Hin. rewrite leaf_timeslots_lookup.
  apply ChannelFacts.chan_mem_In in Hin. rewrite Hin. reflexivity.
Qed.

(** The component's own lists, channel by channel. *)
Lemma component_lists_ordered (schedule : ScheduleComponent)
  (other : TimeSlots) :
  component_ok schedule -> _get_timeslots schedule = Ok other ->
  forall c, In c (component_channels schedule) ->
            exists others, ts_get c other = Some others
                           /\ timeslot_ordered others.
Proof.
  intros [_ Hok] Hget c Hc. destruct schedule as [i|s];
    cbn [_get_timeslots component_channels] in *.
  - unfold instruction_duration_validation in Hget.
    destruct (Z.leb_spec 0 (inst_duration i)) as [Hd|Hd]; [|discriminate].
    cbn [bind] in Hget. inversion Hget. subst other.
    exists [(0, inst_duration i)]. split; [apply leaf_timeslots_get, Hc|].
    split; repeat constructor. exact Hd.
  - inversion Hget. subst other. unfold channels in Hc.
    destruct (ts_get c (_timeslots s)) as [l|] eqn:Hg;
      [|apply ChannelFacts.ts_get_None in Hg; contradiction].
    exists l. split; [reflexivity|].
    rewrite Forall_forall in Hok.
    apply (Hok (c, l)), ChannelFacts.ts_get_In, Hg.
Qed.

(** [_add_timeslots] raises on an overlap, before any child is added. *)
Lemma add_timeslots_overlap (time : Z) (schedule : ScheduleComponent)
  (self : Schedule) :
  slots_ordered (_timeslots self) -> component_ok schedule ->
  would_overlap self time schedule ->
  exists self' ch t0 tf,
    _add_timeslots time schedule self
    = (self', Raise (PulseError
                       (CannotBeInserted (component_name schedule)
                          (_name self) time ch t0 tf)))
    /\ _children self' = _children self.
Proof.
  intros Hself Hcomp
    (other & channel & others & current & iv & jv
     & Hget & Hch & Ho & Hc & Hiv & Hjv & Hov).
  unfold _add_timeslots. rewrite Hget.
  destruct (add_channels_overlap time (component_name schedule) (_name self)
              other (component_channels schedule) (_timeslots self))
    as (ts' & ch & t0 & tf & Hadd).
  - apply Hcomp.
  - apply component_lists_ordered; assumption.
  - intros c l _ Hg. unfold slots_ordered in Hself.
    rewrite Forall_forall in Hself.
    apply (Hself (c, l)), ChannelFacts.ts_get_In, Hg.
  - exists channel, others, current, iv, jv. repeat split; assumption.
  - destruct self as [n m d ts ch0].
    cbn [set_duration _timeslots _name _duration _metadata _children] in *.
    rewrite Hadd. eexists _, _, _, _. split; reflexivity.
Qed.

Lemma shift_timeslots_zero (ts : TimeSlots) : shift_timeslots 0 ts = ts.
Proof.
  unfold shift_timeslots. induction ts as [|[c l] ts IH]; [reflexivity|].
  cbn [map fst snd]. rewrite IH. f_equal. f_equal.
  rewrite <- (ShiftFacts.shift_or_copy 0 l). reflexivity.
Qed.

Section Insert.
Variable merge : Schedule -> Z -> Schedule -> result (Schedule * Schedule).

(** The first step of the copying insertion: the receiver put at 0 into a
    new schedule, which then has the receiver's timeslots. *)
Lemma copy_of_receiver (self : Schedule) (name : option string) :
  timeslots_ok self ->
  exists R,
    _mutable_insert merge 0 (Sched self) (initialize_from self name)
    = (R, Ok R)
    /\ _timeslots R = _timeslots self
    /\ _name R = _name (initialize_from self name).
Proof.
  intros (Hnd & _ & Hnn).
  unfold _mutable_insert.
  rewrite ShiftFacts.dp_merge_applies_fresh by reflexivity.
  unfold insert_tail, _add_timeslots.
  cbn [_get_timeslots component_channels component_name component_duration].
  unfold channels.
  pose proof (ShiftFacts.add_channels_fresh 0 (_name self)
                (_name (initialize_from self name)) [] (_timeslots self))
    as Hadd.
  unfold shift_timeslots at 1 in Hadd. cbn [app map] in Hadd.
  cbn [set_duration _timeslots initialize_from empty_schedule].
  rewrite Hadd by exact Hnd.
  rewrite ShiftFacts.shift_timeslots_nonneg by exact Hnn.
  eexists. split; [reflexivity|]. split; [apply shift_timeslots_zero|].
  reflexivity.
Qed.

End Insert.

End InsertFacts.

(** C1 as written fails for the in-place variant.  Inserting in place, at
    50, a leaf of duration 100 into a schedule holding a leaf of duration
    100 at 0 on the same channel raises and leaves the duration at 150;
    inserting a schedule whose first channel is new and whose second
    channel collides raises and leaves the first channel recorded. *)
Lemma insert_in_place_not_atomic :
  ~ failed_insert_leaves_unchanged (fun _ _ _ => Raise KeyError)
      (single_play 100 (DriveChannel 0)) 50
      (Inst (play 100 (DriveChannel 0))) true
  /\ ~ failed_insert_leaves_unchanged (fun _ _ _ => Raise KeyError)
        (single_play 100 (DriveChannel 0)) 50 (Sched reversed_pair) true.
Proof.
  split; intros H.
  - destruct H as [_ (_ & _ & Hd)]; [|discriminate Hd].
    exists [(DriveChannel 0, [(0, 100)])], (DriveChannel 0), [(0, 100)],
      [(0, 100)], (0, 100), (0, 100).
    repeat split; try reflexivity; left; reflexivity.
  - destruct H as [_ (Ht & _ & _)]; [|discriminate Ht].
    exists (_timeslots reversed_pair), (DriveChannel 0), [(0, 10)],
      [(0, 100)], (0, 10), (0, 100).
    repeat split; try reflexivity; try (left; reflexivity).
    right. left. reflexivity.
Qed.

(** C1, amended.  When the receiver's timeslots are as the module keeps
    them, the component is one the module builds, the channel-merging
    branch does not apply and some interval of the component, moved to the
    offset, overlaps an interval of the receiver on the same channel, then
    [insert] raises the [PulseError] of [_add_timeslots].  In place, the
    receiver's children are as before (its duration and timeslots may
    already have been updated).  In the copying variant the receiver is
    unchanged. *)
Theorem insert_overlap_fails
  (merge : Schedule -> Z -> Schedule -> result (Schedule * Schedule))
  (self : Schedule) (time : Z) (schedule : ScheduleComponent)
  (name : option string) :
  timeslots_ok self -> component_ok schedule ->
  dp_merge_applies self schedule = false ->
  would_overlap self time schedule ->
  (exists self' ch t0 tf,
      insert merge time schedule name true self
      = (self', Raise (PulseError
                         (CannotBeInserted (component_name schedule)
                            (_name self) time ch t0 tf)))
      /\ _children self' = _children self)
  /\ (exists ch t0 tf,
         insert merge time schedule name false self
         = (self, Raise (PulseError
                           (CannotBeInserted (component_name schedule)
                              (_name (initialize_from self name))
                              time ch t0 tf)))).
Proof.
  intros Hok Hcomp Hdp Hov. split.
  - cbn [insert]. unfold _mutable_insert. rewrite Hdp. unfold insert_tail.
    destruct (InsertFacts.add_timeslots_overlap time schedule self)
      as (self' & ch & t0 & tf & Hadd & Hch);
      [apply Hok | exact Hcomp | exact Hov |].
    rewrite Hadd. exists self', ch, t0, tf. split; [reflexivity | exact Hch].
  - cbn [insert]. unfold _immutable_insert.
    destruct (InsertFacts.copy_of_receiver merge self name Hok)
      as (R & HR & HT & HN).
    rewrite HR. unfold _mutable_insert.
    assert (Hdp' : dp_merge_applies R schedule = false).
    { unfold dp_merge_applies, channels in *. rewrite HT. exact Hdp. }
    rewrite Hdp'. unfold insert_tail.
    destruct (InsertFacts.add_timeslots_overlap time schedule R)
      as (R' & ch & t0 & tf & Hadd & _).
    + rewrite HT. apply Hok.
    + exact Hcomp.
    + unfold would_overlap in *. rewrite HT. exact Hov.
    + rewrite Hadd, HN. exists ch, t0, tf. reflexivity.
Qed.

Lemma insert_overlap_fails_witness :
  (exists self', 
      insert (fun _ _ _ => Raise KeyError) 50
        (Inst (play 100 (DriveChannel 0))) None true
        (single_play 100 (DriveChannel 0))
      = (self', Raise (PulseError
                         (CannotBeInserted "play" "sched" 50 "d0" 50 150)))
      /\ _children self' = _children (single_play 100 (DriveChannel 0)))
  /\ insert (fun _ _ _ => Raise KeyError) 50
       (Inst (play 100 (DriveChannel 0))) None false
       (single_play 100 (DriveChannel 0))
     = (single_play 100 (DriveChannel 0),
        Raise (PulseError (CannotBeInserted "play" "sched" 50 "d0" 50 150))).
Proof.
  destruct (insert_overlap_fails (fun _ _ _ => Raise KeyError)
              (single_play 100 (DriveChannel 0)) 50
              (Inst (play 100 (DriveChannel 0))) None)
    as [(self' & ch & t0 & tf & H1 & H2) (ch' & t0' & tf' & H3)].
  - split; [|split].
    + repeat constructor. cbn. intros [].
    + repeat constructor; cbn; discriminate.
    + intros c l iv [Hin|[]] Hiv. inversion Hin; subst.
      destruct Hiv as [<-|[]]. cbn. lia.
  - split; [|exact I]. repeat constructor. cbn. intros [].
  - reflexivity.
  - exists [(DriveChannel 0, [(0, 100)])], (DriveChannel 0), [(0, 100)],
      [(0, 100)], (0, 100), (0, 100).
    repeat split; try reflexivity; left; reflexivity.
  - split.
    + exists self'. split; [|exact H2]. rewrite H1.
      vm_compute in H1. inversion H1. reflexivity.
    + rewrite H3. vm_compute in H3. inversion H3. reflexivity.
Defined.

(** ** Filtering and excluding *)

Module FilterFacts.

Lemma slot_ready_weaken (p : Z * Instruction) (K : list (Z * Instruction))
  (entry : Channel * list Interval) :
  slot_ready (p :: K) entry -> slot_ready K entry.
Proof.
  intros (H1 & H2 & final & H3 & H4). repeat split; try assumption.
  exists final. split; [exact H3|]. intros q Hq. apply H4. right. exact Hq.
Qed.

Lemma Forall_ts_set (P : Channel * list Interval -> Prop) (c : Channel)
  (l : list Interval) (ts : TimeSlots) :
  Forall P ts -> P (c, l) -> Forall P (ts_set c l ts).
Proof.
  intros Hts Hp. induction Hts as [|[c0 l0] ts H0 Hts IH]; cbn [ts_set].
  - repeat constructor. exact Hp.
  - destruct (Channel_eqb c0 c) eqn:E.
    + apply ChannelFacts.Channel_eqb_eq in E. subst c0.
      constructor; assumption.
    + constructor; assumption.
Qed.

Lemma last_interval_app (l : list Interval) (x : Interval) :
  last_interval (l ++ [x]) = Ok x.
Proof.
  destruct l as [|i l]; [reflexivity|]. cbn [app last_interval].
  rewrite last_last. reflexivity.
Qed.

Lemma ready_check_nonnegative (K : list (Z * Instruction)) (ts : TimeSlots) :
  Forall (slot_ready K) ts -> _check_nonnegative_timeslot ts = Ok tt.
Proof.
  induction 1 as [|[c l] ts (_ & Hf & _) _ IH];
    cbn [_check_nonnegative_timeslot]; [reflexivity|].
  destruct l as [|first rest]; [exact IH|]. cbn [snd] in Hf.
  specialize (Hf first rest eq_refl).
  destruct (Z.ltb_spec (fst first) 0); [lia | exact IH].
Qed.

(** Adding a leaf that starts after everything on its channels: every
    channel is new or takes the quick path. *)
Lemma add_channels_leaf (t d : Z) (new old : string) (other : TimeSlots)
  (K : list (Z * Instruction)) (chans : list Channel) (ts : TimeSlots) :
  NoDup chans -> 0 <= t -> 0 <= d ->
  (forall c, In c chans -> ts_get c other = Some [(0, d)]) ->
  Forall (slot_ready K) ts ->
  (forall c l, In c chans -> ts_get c ts = Some l ->
               exists final, last_interval l = Ok final /\ snd final <= t) ->
  (forall c q, In c chans -> In q K -> In c (inst_channels (snd q)) ->
               t + d <= fst q) ->
  exists ts',
    add_channels t new old other chans ts = (ts', Ok tt)
    /\ Forall (slot_ready K) ts'.
Proof.
  intros Hnd Ht Hd. revert ts.
  induction chans as [|c chans IH]; intros ts Hoth Hready Hlast Hnext.
  - exists ts. split; [reflexivity | exact Hready].
  - apply NoDup_cons_iff in Hnd. destruct Hnd as [Hc Hnd].
    cbn [add_channels]. rewrite (Hoth c (or_introl eq_refl)).
    assert (Hnew : slot_ready K (c, [(0 + t, d + t)])).
    { repeat split; cbn [snd fst]; [discriminate| |].
      - intros first rest H. inversion H. cbn. lia.
      - exists (0 + t, d + t). split; [reflexivity|]. cbn [snd].
        intros q Hq Hcq.
        specialize (Hnext c q (or_introl eq_refl) Hq Hcq). lia. }
    assert (Hstep : forall l1,
               slot_ready K (c, l1) ->
               exists ts',
                 add_channels t new old other chans (ts_set c l1 ts)
                 = (ts', Ok tt) /\ Forall (slot_ready K) ts').
    { intros l1 Hl1. apply (IH Hnd).
      - intros c' Hc'. apply Hoth. right. exact Hc'.
      - apply Forall_ts_set; assumption.
      - intros c' l Hc'. rewrite InsertFacts.ts_get_set_other.
        + apply Hlast. right. exact Hc'.
        + intros ->. contradiction.
      - intros c' q Hc'. apply Hnext. right. exact Hc'. }
    destruct (ts_get c ts) as [l|] eqn:Hg.
    + destruct (Hlast c l (or_introl eq_refl) Hg) as (final & Hf & Hle).
      cbn [merge_intervals]. rewrite Hf. cbn [fst].
      destruct (Z.geb_spec (0 + t) (snd final)) as [_|Hlt]; [|lia].
      cbn [map shift_interval fst snd]. apply Hstep.
      rewrite Forall_forall in Hready.
      destruct (Hready (c, l) (ChannelFacts.ts_get_In _ _ _ Hg))
        as (Hne & Hfirst & _).
      cbn [snd fst] in *. repeat split; cbn [snd fst].
      * destruct l; discriminate.
      * intros first rest H. destruct l as [|i l]; [contradiction|].
        cbn [app] in H. inversion H. subst first.
        apply (Hfirst i l eq_refl).
      * exists (0 + t, d + t). split; [apply last_interval_app|].
        cbn [snd]. intros q Hq Hcq.
        specialize (Hnext c q (or_introl eq_refl) Hq Hcq). lia.
    + rewrite ShiftFacts.shift_or_copy. cbn [map shift_interval fst snd].
      apply Hstep, Hnew.
Qed.

Section Filter.
Variable merge : Schedule -> Z -> Schedule -> result (Schedule * Schedule).

(** One in-place insertion of the next leaf. *)
Lemma insert_next_leaf (p : Z * Instruction) (K : list (Z * Instruction))
  (self : Schedule) :
  leaf_ok p -> leaves_disjoint (p :: K) ->
  Forall (slot_ready (p :: K)) (_timeslots self) ->
  exists self',
    insert merge (fst p) (Inst (snd p)) None true self = (self', Ok self')
    /\ Forall (slot_ready K) (_timeslots self')
    /\ _children self' = _children self ++ [leaf_child p].
Proof.
  intros (Ht & Hd & Hnd) [Hdis _] Hready. destruct p as [t i].
  cbn [fst snd] in *. cbn [insert]. unfold _mutable_insert.
  cbn [dp_merge_applies]. unfold insert_tail, _add_timeslots.
  cbn [_get_timeslots]. unfold instruction_duration_validation.
  destruct (Z.leb_spec 0 (inst_duration i)) as [_|Hlt]; [|lia].
  cbn [bind component_channels component_name component_duration].
  destruct (add_channels_leaf t (inst_duration i) (inst_name i) (_name self)
              (fold_left (fun ts channel =>
                            ts_set channel [(0, inst_duration i)] ts)
                 (inst_channels i) [])
              K (inst_channels i) (_timeslots self) Hnd Ht Hd)
    as (ts' & Hadd & Hready').
  - intros c Hc. apply InsertFacts.leaf_timeslots_get, Hc.
  - eapply Forall_impl; [|exact Hready]. apply slot_ready_weaken.
  - intros c l Hc Hg. rewrite Forall_forall in Hready.
    destruct (Hready (c, l) (ChannelFacts.ts_get_In _ _ _ Hg))
      as (_ & _ & final & Hf & Hle).
    exists final. split; [exact Hf|].
    apply (Hle (t, i)); [left; reflexivity | exact Hc].
  - intros c q Hc Hq Hcq. rewrite Forall_forall in Hdis.
    apply (Hdis q Hq c Hc Hcq).
  - destruct self as [n m du ts ch].
    cbn [set_duration _timeslots _name _duration _metadata _children] in *.
    rewrite Hadd. rewrite (ready_check_nonnegative K ts' Hready').
    eexists. split; [reflexivity|]. split; [exact Hready' | reflexivity].
Qed.

(** The loop of insertions over leaves that do not collide succeeds and
    adds exactly these leaves as children. *)
Lemma insert_all_leaves (K : list (Z * Instruction)) (self : Schedule) :
  Forall leaf_ok K -> leaves_disjoint K ->
  Forall (slot_ready K) (_timeslots self) ->
  exists self',
    insert_all merge (map leaf_child K) self = (self', Ok tt)
    /\ _children self' = _children self ++ map leaf_child K.
Proof.
  revert self. induction K as [|p K IH]; intros self Hok Hdis Hready.
  - exists self. split; [reflexivity|]. cbn [map]. rewrite app_nil_r.
    reflexivity.
  - apply Forall_cons_iff in Hok. destruct Hok as [Hp Hok].
    destruct (insert_next_leaf p K self Hp Hdis Hready)
      as (self1 & H1 & Hready1 & Hch1).
    destruct (IH self1 Hok (proj2 Hdis) Hready1) as (self' & H2 & Hch2).
    exists self'. cbn [map insert_all]. unfold leaf_child at 1.
    cbn [fst snd]. rewrite H1, H2. split; [reflexivity|].
    rewrite Hch2, Hch1, <- app_assoc. reflexivity.
Qed.

Lemma leaves_disjoint_filter (f : Z * Instruction -> bool)
  (l : list (Z * Instruction)) :
  leaves_disjoint l -> leaves_disjoint (filter f l).
Proof.
  induction l as [|p l IH]; [trivial|]. intros [Hp Hl]. cbn [filter].
  destruct (f p); [|apply IH, Hl]. split; [|apply IH, Hl].
  rewrite Forall_forall in Hp |- *. intros q Hq. apply Hp.
  apply filter_In in Hq. tauto.
Qed.

Lemma Forall_filter {A} (P : A -> Prop) (f : A -> bool) (l : list A) :
  Forall P l -> Forall P (filter f l).
Proof.
  rewrite !Forall_forall. intros H x Hx. apply H.
  apply filter_In in Hx. tauto.
Qed.

Lemma flatten_leaves (K : list (Z * Instruction)) :
  flat_map
    (fun p : Z * ScheduleComponent =>
       let '(insert_time, child_sched) := p in
       match child_sched with
       | Inst i => [(0 + insert_time, i)]
       | Sched s' => _instructions s' (0 + insert_time)
       end) (map leaf_child K) = K.
Proof.
  induction K as [|[t i] K IH]; [reflexivity|].
  cbn [map flat_map leaf_child fst snd app]. rewrite IH. reflexivity.
Qed.

(** [filter_instructions] on a consistent schedule returns a schedule
    whose time-ordered leaves are a rearrangement of the kept pairs. *)
Lemma filter_instructions_result (self : Schedule)
  (filters : list (Z * Instruction -> bool)) (negate : bool) :
  flat_consistent self ->
  exists F,
    filter_instructions merge self filters negate = Ok F
    /\ Permutation (instructions F)
         (filter (fun p => if negate
                           then negb (forallb (fun f => f p) filters)
                           else forallb (fun f => f p) filters)
            (instructions self)).
Proof.
  intros [Hok Hdis]. unfold filter_instructions.
  set (kept := filter _ (instructions self)).
  destruct (insert_all_leaves kept (initialize_from self None))
    as (F & HF & Hch).
  - apply Forall_filter, Hok.
  - apply leaves_disjoint_filter, Hdis.
  - constructor.
  - change (map (fun p : Z * Instruction => (fst p, Inst (snd p))) kept)
      with (map leaf_child kept).
    rewrite HF. exists F. split; [reflexivity|].
    unfold instructions at 1. rewrite SortFacts.sorted_perm.
    destruct F as [n m du ts ch]. cbn [_children] in Hch. subst ch.
    cbn [_instructions _children initialize_from empty_schedule app].
    rewrite flatten_leaves. reflexivity.
Qed.

End Filter.

Lemma filter_split {A} (f : A -> bool) (l : list A) :
  Permutation (filter f l ++ filter (fun x => negb (f x)) l) l.
Proof.
  induction l as [|x l IH]; [reflexivity|]. cbn [filter].
  destruct (f x); cbn [negb app].
  - constructor. exact IH.
  - rewrite <- Permutation_middle. constructor. exact IH.
Qed.

End FilterFacts.

(** C6.  Over [filter_instructions] as the specification describes it:
    for every schedule whose time-ordered leaves do not collide and every
    set of filter arguments, [filter] and [exclude] both return a schedule;
    no pair is among the time-ordered leaves of both results; a pair is
    among the receiver's leaves iff it is among those of one of the
    results; and the two results' leaves together are a rearrangement of
    the receiver's. *)
Theorem filter_exclude_partition
  (merge : Schedule -> Z -> Schedule -> result (Schedule * Schedule))
  (self : Schedule) (a : FilterArgs) :
  flat_consistent self ->
  exists F E,
    Schedule_filter merge a self = (self, Ok F)
    /\ Schedule_exclude merge a self = (self, Ok E)
    /\ (forall p, In p (instructions F) -> ~ In p (instructions E))
    /\ (forall p, In p (instructions self) <->
                  In p (instructions F) \/ In p (instructions E))
    /\ Permutation (instructions F ++ instructions E) (instructions self).
Proof.
  intros Hc. unfold Schedule_filter, Schedule_exclude.
  destruct (FilterFacts.filter_instructions_result merge self
              (composite_filter a ++ filter_funcs a) false Hc)
    as (F & HF & PF).
  destruct (FilterFacts.filter_instructions_result merge self
              (composite_filter a ++ filter_funcs a) true Hc)
    as (E & HE & PE).
  exists F, E. rewrite HF, HE. split; [reflexivity|]. split; [reflexivity|].
  set (valid := fun p : Z * Instruction =>
                  forallb (fun f => f p)
                    (composite_filter a ++ filter_funcs a)) in *.
  assert (InF : forall p, In p (instructions F) <->
                          In p (instructions self) /\ valid p = true).
  { intros p. split; intros H.
    - apply (Permutation_in _ PF), filter_In in H. exact H.
    - apply (Permutation_in _ (Permutation_sym PF)), filter_In. exact H. }
  assert (InE : forall p, In p (instructions E) <->
                          In p (instructions self) /\ valid p = false).
  { intros p. rewrite <- negb_true_iff. split; intros H.
    - apply (Permutation_in _ PE), filter_In in H. exact H.
    - apply (Permutation_in _ (Permutation_sym PE)), filter_In. exact H. }
  split; [|split].
  - intros p HpF HpE. apply InF in HpF. apply InE in HpE.
    destruct HpF as [_ H1]. destruct HpE as [_ H2]. congruence.
  - intros p. rewrite InF, InE. destruct (valid p); tauto.
  - rewrite PF, PE. apply FilterFacts.filter_split.
Qed.

Lemma filter_exclude_partition_witness :
  exists F E,
    Schedule_filter (fun _ _ _ => Raise KeyError)
      (mkFilterArgs [] (Some [DriveChannel 0]) None None None true)
      two_channel_schedule = (two_channel_schedule, Ok F)
    /\ Schedule_exclude (fun _ _ _ => Raise KeyError)
         (mkFilterArgs [] (Some [DriveChannel 0]) None None None true)
         two_channel_schedule = (two_channel_schedule, Ok E)
    /\ instructions F = [(0, play 10 (DriveChannel 0))]
    /\ instructions E = [(0, play 10 (DriveChannel 1))].
Proof.
  destruct (filter_exclude_partition (fun _ _ _ => Raise KeyError)
              two_channel_schedule
              (mkFilterArgs [] (Some [DriveChannel 0]) None None None true))
    as (F & E & HF & HE & _).
  - split.
    + change (instructions two_channel_schedule)
        with [(0, play 10 (DriveChannel 0)); (0, play 10 (DriveChannel 1))].
      repeat constructor; cbn; try lia; try discriminate; intros [[=]|[]].
    + change (instructions two_channel_schedule)
        with [(0, play 10 (DriveChannel 0)); (0, play 10 (DriveChannel 1))].
      cbn. repeat split; repeat constructor.
      intros c [<-|[]] [[=]|[]].
  - exists F, E. split; [exact HF|]. split; [exact HE|].
    vm_compute in HF, HE. inversion HF. inversion HE. split; reflexivity.
Defined.

(** ** The timeslot invariant is kept by successful operations *)

Module InvariantFacts.

Lemma ordered_shift (time : Z) (l : list Interval) :
  timeslot_ordered l -> timeslot_ordered (map (shift_interval time) l).
Proof.
  intros [Hwf Hs]. split.
  - rewrite Forall_forall in *. intros x Hx. apply in_map_iff in Hx.
    destruct Hx as (y & <- & Hy). apply InsertFacts.wf_shift, Hwf, Hy.
  - clear Hwf. induction Hs as [|a l Hs IH Ha]; cbn [map]; constructor;
      [exact IH|].
    rewrite Forall_forall in *. intros x Hx. apply in_map_iff in Hx.
    destruct Hx as (y & <- & Hy). specialize (Ha y Hy).
    unfold before, shift_interval in *. cbn [fst snd]. lia.
Qed.

Lemma ordered_app (l1 l2 : list Interval) :
  timeslot_ordered l1 -> timeslot_ordered l2 ->
  (forall a b, In a l1 -> In b l2 -> before a b) ->
  timeslot_ordered (l1 ++ l2).
Proof.
  intros [W1 S1] [W2 S2] H. split.
  - apply Forall_app. split; assumption.
  - apply Search.StronglySorted_app_iff. repeat split; assumption.
Qed.

(** A successful run of the inner loop keeps the channel's list non-empty
    and in timeslot order. *)
Lemma merge_intervals_ordered (time : Z) (err : Interval -> PulseReason)
  (current others current' : list Interval) :
  current <> [] -> timeslot_ordered current -> timeslot_ordered others ->
  merge_intervals time err current others = (current', Ok tt) ->
  current' <> [] /\ timeslot_ordered current'.
Proof.
  revert current. induction others as [|interval rest IH];
    intros current Hne Hcur Hoth; cbn [merge_intervals].
  - intros H. inversion H. subst current'. split; assumption.
  - destruct (last_interval current) as [final|e] eqn:Hlast; [|discriminate].
    destruct (Z.geb_spec (fst interval + time) (snd final)) as [Hge|Hlt].
    + intros H. inversion H. subst current'. split.
      * destruct current; [contradiction | discriminate].
      * apply ordered_app;
          [exact Hcur | apply (ordered_shift time (interval :: rest)), Hoth |].
        intros a b Ha Hb.
        change (In b (map (shift_interval time) (interval :: rest))) in Hb.
        apply in_map_iff in Hb.
        destruct Hb as (b0 & <- & Hb0).
        pose proof (InsertFacts.ordered_last_stop _ _ Hcur Hlast) as Hmax.
        pose proof (InsertFacts.ordered_first_start _ _ Hoth) as Hmin.
        rewrite Forall_forall in Hmax, Hmin.
        specialize (Hmax a Ha). specialize (Hmin b0 Hb0).
        unfold before, shift_interval. cbn [fst snd]. lia.
    + assert (Hwi : wf_interval (shift_interval time interval)).
      { apply InsertFacts.wf_shift. destruct Hoth as [Hwf _].
        apply Forall_cons_iff in Hwf. tauto. }
      pose proof (Search.find_insertion_ordered current
                    (shift_interval time interval) Hcur Hwi) as Hfind.
      destruct (_find_insertion_index current (shift_interval time interval))
        as [k|[r| | |]]; try discriminate.
      destruct Hfind as [Hord _]. apply IH.
      * apply InsertFacts.list_insert_not_nil.
      * exact Hord.
      * eapply InsertFacts.ordered_tail, Hoth.
Qed.

Lemma ts_set_keys (c : Channel) (l : list Interval) (ts : TimeSlots) :
  map fst (ts_set c l ts)
  = if ts_mem c ts then map fst ts else map fst ts ++ [c].
Proof.
  unfold ts_mem. induction ts as [|[c0 l0] ts IH]; cbn [ts_set ts_get map fst];
    [reflexivity|].
  destruct (Channel_eqb c0 c) eqn:E; cbn [map fst]; [reflexivity|].
  rewrite IH. destruct (ts_get c ts); reflexivity.
Qed.

Lemma ts_set_NoDup (c : Channel) (l : list Interval) (ts : TimeSlots) :
  NoDup (map fst ts) -> NoDup (map fst (ts_set c l ts)).
Proof.
  intros H. rewrite ts_set_keys. unfold ts_mem.
  destruct (ts_get c ts) eqn:Hg; [exact H|].
  apply ChannelFacts.ts_get_None in Hg.
  apply NoDup_app; [exact H | repeat constructor; intros [] | ].
  intros x Hx [<-|[]]. contradiction.
Qed.

(** A successful run of the loop over channels keeps distinct keys and
    non-empty ordered lists. *)
Lemma add_channels_ordered (time : Z) (new old : string) (other : TimeSlots)
  (chans : list Channel) (ts ts' : TimeSlots) :
  (forall c l, In c chans -> ts_get c other = Some l ->
               l <> [] /\ timeslot_ordered l) ->
  NoDup (map fst ts) -> slots_ordered ts ->
  add_channels time new old other chans ts = (ts', Ok tt) ->
  NoDup (map fst ts') /\ slots_ordered ts'.
Proof.
  revert ts. induction chans as [|c chans IH]; intros ts Hoth Hnd Hts;
    cbn [add_channels].
  - intros H. inversion H. subst ts'. split; assumption.
  - destruct (ts_get c other) as [others|] eqn:Ho; [|discriminate].
    destruct (Hoth c others (or_introl eq_refl) Ho) as [Hne Hord].
    assert (Hoth' : forall c0 l, In c0 chans -> ts_get c0 other = Some l ->
                                 l <> [] /\ timeslot_ordered l).
    { intros c0 l Hc0. apply Hoth. right. exact Hc0. }
    destruct (ts_get c ts) as [current|] eqn:Hg.
    + unfold slots_ordered in Hts. pose proof Hts as Hts0.
      rewrite Forall_forall in Hts0.
      destruct (Hts0 (c, current) (ChannelFacts.ts_get_In _ _ _ Hg))
        as [Hcn Hco]. cbn [snd] in Hcn, Hco.
      destruct (merge_intervals time _ current others)
        as [current' [[]|e]] eqn:Hm; [|discriminate].
      destruct (merge_intervals_ordered _ _ _ _ _ Hcn Hco Hord Hm).
      apply IH; [exact Hoth' | apply ts_set_NoDup, Hnd |].
      apply FilterFacts.Forall_ts_set; [exact Hts | split; assumption].
    + apply IH; [exact Hoth' | apply ts_set_NoDup, Hnd |].
      apply FilterFacts.Forall_ts_set; [exact Hts|].
      rewrite ShiftFacts.shift_or_copy. cbn [snd]. split.
      * destruct others; [contradiction | discriminate].
      * apply ordered_shift, Hord.
Qed.

(** With ordered lists the check of the first starts covers every
    start. *)
Lemma checked_starts_nonneg (ts : TimeSlots) :
  slots_ordered ts -> _check_nonnegative_timeslot ts = Ok tt ->
  forall c l iv, In (c, l) ts -> In iv l -> 0 <= fst iv.
Proof.
  induction 1 as [|[c0 l0] ts [_ Hord] _ IH];
    cbn [_check_nonnegative_timeslot]; intros Hchk c l iv Hin Hiv;
    [destruct Hin|].
  cbn [snd] in Hord. destruct l0 as [|first rest].
  - destruct Hin as [Heq|Hin]; [inversion Heq; subst; destruct Hiv|].
    eapply IH; eassumption.
  - destruct (Z.ltb_spec (fst first) 0) as [|Hge]; [discriminate|].
    destruct Hin as [Heq|Hin]; [|eapply IH; eassumption].
    inversion Heq; subst c l.
    pose proof (InsertFacts.ordered_first_start _ _ Hord) as Hmin.
    rewrite Forall_forall in Hmin. specialize (Hmin iv Hiv). lia.
Qed.

Lemma empty_schedule_ok (name : string) (metadata : list (string * string)) :
  timeslots_ok (empty_schedule name metadata).
Proof.
  split; [constructor|]. split; [constructor|]. intros c l iv [].
Qed.

Section Insert.
Variable merge : Schedule -> Z -> Schedule -> result (Schedule * Schedule).

(** A successful in-place insertion outside the channel-merging branch
    keeps the receiver's timeslots as the module keeps them, and appends
    the component to the children. *)
Lemma insert_keeps_timeslots_ok (time : Z) (schedule : ScheduleComponent)
  (name : option string) (self R R' : Schedule) :
  timeslots_ok self -> component_ok schedule ->
  match schedule with Sched s => no_empty_slot s | Inst _ => True end ->
  dp_merge_applies self schedule = false ->
  insert merge time schedule name true self = (R, Ok R') ->
  timeslots_ok R /\ R' = R
  /\ _children R = _children self ++ [(time, schedule)].
Proof.
  intros (Hnd & Hord & _) Hcomp Hne Hdp. cbn [insert].
  unfold _mutable_insert. rewrite Hdp. unfold insert_tail, _add_timeslots.
  destruct (_get_timeslots schedule) as [other|e] eqn:Hget; [|discriminate].
  destruct (add_channels _ _ _ _ _ _) as [ts' [[]|e]] eqn:Hadd;
    [|discriminate].
  destruct (_check_nonnegative_timeslot ts') eqn:Hchk; [|discriminate].
  intros H. inversion H. subst R'. clear H.
  destruct self as [n m du ts ch].
  cbn [set_duration set_timeslots set_children _timeslots _name _duration
         _metadata _children] in *.
  assert (Hoth : forall c l, In c (component_channels schedule) ->
                             ts_get c other = Some l ->
                             l <> [] /\ timeslot_ordered l).
  { intros c l Hc Hg.
    destruct (InsertFacts.component_lists_ordered schedule other Hcomp Hget
                c Hc) as (others & Ho & Hoo).
    rewrite Hg in Ho. inversion Ho. subst others. split; [|exact Hoo].
    destruct schedule as [i|s]; cbn [_get_timeslots] in Hget.
    - unfold instruction_duration_validation in Hget.
      destruct (0 <=? inst_duration i); [|discriminate].
      cbn [bind] in Hget. inversion Hget. subst other.
      cbn [component_channels] in Hc.
      rewrite (InsertFacts.leaf_timeslots_get _ _ _ _ Hc) in Hg.
      inversion Hg. discriminate.
    - inversion Hget. subst other. unfold no_empty_slot in Hne.
      rewrite Forall_forall in Hne.
      apply (Hne (c, l)), ChannelFacts.ts_get_In, Hg. }
  destruct (add_channels_ordered _ _ _ _ _ _ _ Hoth Hnd Hord Hadd)
    as [Hnd' Hord'].
  split; [|split; reflexivity].
  split; [exact Hnd'|]. split; [exact Hord'|].
  intros c l iv Hin Hiv. cbn [_timeslots] in Hin.
  destruct a.
  pose proof (checked_starts_nonneg ts' Hord' Hchk c l iv Hin Hiv). lia.
Qed.

End Insert.

(** Timeslots in the kept form have no empty list. *)
Lemma timeslots_ok_no_empty (self : Schedule) :
  timeslots_ok self -> no_empty_slot self.
Proof.
  intros (_ & Hord & _). unfold no_empty_slot.
  eapply Forall_impl; [|exact Hord]. intros e [H _]. exact H.
Qed.

End InvariantFacts.

(** ** Further properties of the interval code *)

Module LookupFacts.

(** In timeslot order no two intervals overlap. *)
Lemma ordered_pairwise (l : list Interval) :
  timeslot_ordered l -> pairwise_non_overlapping l.
Proof.
  intros [Hwf Hs]. unfold pairwise_non_overlapping.
  induction Hs as [|a l Hs IH Ha]; [constructor|].
  apply Forall_cons_iff in Hwf. destruct Hwf as [Hwa Hwf].
  constructor; [|apply IH, Hwf].
  rewrite Forall_forall in Ha, Hwf |- *. intros b Hb.
  specialize (Ha b Hb). specialize (Hwf b Hb).
  split; apply IntervalFacts.overlaps_false_iff;
    unfold before, wf_interval in *; lia.
Qed.

(** The binary search finds an interval of a list in timeslot order. *)
Lemma locate_finds (l : list Interval) (iv : Interval) :
  timeslot_ordered l -> In iv l ->
  nth_error l (_locate_interval_index l iv 0) = Some iv.
Proof.
  remember (length l) as n eqn:Hn. revert l Hn.
  induction n as [n IH] using lt_wf_ind. intros l Hn Hord Hin. subst n.
  rewrite (Search.locate_unfold l iv 0).
  destruct (Nat.leb_spec (length l) 1) as [Hle|Hgt].
  - destruct l as [|x [|y l]]; [destruct Hin | | cbn in Hle; lia].
    destruct Hin as [->|[]]. reflexivity.
  - pose proof (Search.half_bounds _ Hgt) as Hm.
    set (m := (length l / 2)%nat) in *. clearbody m.
    assert (Hmid : nth_error l m = Some (nth m l iv))
      by (apply nth_error_nth'; lia).
    destruct (Search.nth_error_parts l m _ Hmid) as [_ Hsk].
    pose proof Hord as [Hwf Hch].
    rewrite <- (firstn_skipn m l) in Hch, Hin, Hwf.
    apply Search.StronglySorted_app_iff in Hch.
    destruct Hch as (Hc1 & Hc2 & Hc3).
    apply Forall_app in Hwf. destruct Hwf as [Hw1 Hw2].
    rewrite Hsk in Hc2, Hc3, Hw2, Hin.
    apply Forall_cons_iff in Hw2. destruct Hw2 as [Hwm Hw2].
    apply StronglySorted_inv in Hc2. destruct Hc2 as [Hc2 Hc4].
    rewrite Forall_forall in Hw1, Hw2, Hc4.
    set (mid := nth m l iv) in *. clearbody mid.
    destruct ((snd iv <=? fst mid) && negb (interval_eqb iv mid)) eqn:Htest.
    + apply andb_true_iff in Htest. destruct Htest as [Ht Hne].
      apply Z.leb_le in Ht. apply negb_true_iff in Hne.
      assert (Hneq : iv <> mid).
      { intros E. apply IntervalFacts.interval_eqb_eq in E. congruence. }
      assert (Hleft : In iv (firstn m l)).
      { apply in_app_iff in Hin. destruct Hin as [H|[H|H]];
          [exact H | congruence |].
        exfalso. specialize (Hc4 iv H). specialize (Hw2 iv H).
        apply Hneq. destruct iv, mid.
        unfold before, wf_interval in *. cbn [fst snd] in *.
        f_equal; lia. }
      assert (Hlen : length (firstn m l) = m)
        by (rewrite length_firstn; lia).
      pose proof (IH (length (firstn m l)) ltac:(lia) (firstn m l) eq_refl)
        as IH1.
      assert (Hord1 : timeslot_ordered (firstn m l)).
      { split; [rewrite Forall_forall; exact Hw1 | exact Hc1]. }
      specialize (IH1 Hord1 Hleft).
      rewrite nth_error_firstn in IH1.
      destruct (Nat.ltb_spec (_locate_interval_index (firstn m l) iv 0) m);
        [exact IH1 | discriminate].
    + assert (Hright : In iv (skipn m l)).
      { rewrite Hsk. apply in_app_iff in Hin.
        destruct Hin as [H|H]; [|exact H].
        apply andb_false_iff in Htest. destruct Htest as [Ht|Ht].
        - exfalso. apply Z.leb_gt in Ht.
          specialize (Hc3 iv mid H (or_introl eq_refl)).
          unfold before in Hc3. lia.
        - apply negb_false_iff, IntervalFacts.interval_eqb_eq in Ht.
          left. symmetry. exact Ht. }
      rewrite Search.locate_shift.
      pose proof (IH (length (skipn m l))
                    ltac:(rewrite length_skipn; lia) (skipn m l) eq_refl)
        as IH2.
      assert (Hord2 : timeslot_ordered (skipn m l)).
      { rewrite Hsk. split.
        - constructor; [exact Hwm | rewrite Forall_forall; exact Hw2].
        - constructor; [exact Hc2 | rewrite Forall_forall; exact Hc4]. }
      specialize (IH2 Hord2 Hright).
      rewrite nth_error_skipn in IH2. rewrite Nat.add_0_l. exact IH2.
Qed.

Lemma interval_index_sound (l : list Interval) (iv : Interval) (k : nat) :
  _interval_index l iv = Removed k -> nth_error l k = Some iv.
Proof.
  unfold _interval_index.
  destruct (nth_error l (_locate_interval_index l iv 0)) as [found|] eqn:Hn;
    [|discriminate].
  destruct (interval_eqb found iv) eqn:E; cbn [negb]; [|discriminate].
  intros H. inversion H. subst k.
  apply IntervalFacts.interval_eqb_eq in E. subst found. exact Hn.
Qed.

Lemma interval_index_finds (l : list Interval) (iv : Interval) :
  timeslot_ordered l -> In iv l ->
  _interval_index l iv = Removed (_locate_interval_index l iv 0).
Proof.
  intros Hord Hin. unfold _interval_index.
  rewrite (locate_finds l iv Hord Hin).
  assert (E : interval_eqb iv iv = true)
    by (apply IntervalFacts.interval_eqb_eq; reflexivity).
  rewrite E. reflexivity.
Qed.

Lemma interval_index_missing (l : list Interval) (iv : Interval) :
  l <> [] -> ~ In iv l ->
  _interval_index l iv
  = RemovalRaise (RemovalError (IntervalDoesNotExist iv l)).
Proof.
  intros Hne Hnot. unfold _interval_index.
  destruct (Search.locate_props l iv) as (Ha & _ & _).
  destruct Ha as [Ha|[Ha _]]; [|contradiction].
  destruct (nth_error l (_locate_interval_index l iv 0)) as [found|] eqn:Hn;
    [|apply nth_error_None in Hn; lia].
  destruct (interval_eqb found iv) eqn:E; [|reflexivity].
  apply IntervalFacts.interval_eqb_eq in E. subst found.
  exfalso. apply Hnot. eapply nth_error_In, Hn.
Qed.

End LookupFacts.

(** X1.  [expand_slot] returns nothing, without raising, exactly when the
    inner slot starts before and stops after the outer one; in every other
    case, also when the two slots are apart, it returns the smallest slot
    that covers both. *)
Theorem expand_slot_hull (slot_inner slot_outer : Interval) :
  (expand_slot slot_inner slot_outer = None <->
   fst slot_inner < fst slot_outer /\ snd slot_outer < snd slot_inner)
  /\ (forall r, expand_slot slot_inner slot_outer = Some r ->
        fst r <= fst slot_inner /\ fst r <= fst slot_outer
        /\ snd slot_inner <= snd r /\ snd slot_outer <= snd r
        /\ (fst r = fst slot_inner \/ fst r = fst slot_outer)
        /\ (snd r = snd slot_inner \/ snd r = snd slot_outer)).
Proof.
  unfold expand_slot, slots_overlap.
  destruct (Z.leb_spec (fst slot_outer) (fst slot_inner)) as [Hs|Hs],
    (Z.leb_spec (snd slot_inner) (snd slot_outer)) as [He|He]; cbn [orb];
    (split; [split; [try discriminate; intros; lia | intros; try lia;
                     try reflexivity]
            | intros r Hr; inversion Hr; cbn [fst snd]; lia]).
Qed.

(** X2.  [merge_slots_pulse_delay] returns a slot of positive length that
    lies inside the delay slot and outside the pulse slot: the part of the
    delay before the pulse starts if there is one, else the part after the
    pulse stops.  It returns nothing when neither end of the pulse lies
    strictly inside the delay; when the delay extends past the pulse on
    both sides only the part before the pulse is returned. *)
Theorem merge_slots_pulse_delay_spec (pulse_slot delay_slot : Interval) :
  (forall r, merge_slots_pulse_delay pulse_slot delay_slot = Some r ->
     fst delay_slot <= fst r /\ snd r <= snd delay_slot /\ fst r < snd r
     /\ (snd r = fst pulse_slot \/ fst r = snd pulse_slot))
  /\ (merge_slots_pulse_delay pulse_slot delay_slot = None <->
      ~ (fst delay_slot < fst pulse_slot < snd delay_slot)
      /\ ~ (fst delay_slot < snd pulse_slot < snd delay_slot))
  /\ (fst delay_slot < fst pulse_slot < snd delay_slot ->
      merge_slots_pulse_delay pulse_slot delay_slot
      = Some (fst delay_slot, fst pulse_slot)).
Proof.
  unfold merge_slots_pulse_delay.
  destruct (Z.ltb_spec (fst delay_slot) (fst pulse_slot)) as [H1|H1],
    (Z.gtb_spec (snd delay_slot) (fst pulse_slot)) as [H2|H2],
    (Z.ltb_spec (fst delay_slot) (snd pulse_slot)) as [H3|H3],
    (Z.gtb_spec (snd delay_slot) (snd pulse_slot)) as [H4|H4]; cbn [andb];
    (split; [intros r Hr; inversion Hr; cbn [fst snd]; lia|]);
    (split; [split; [try discriminate; intros _; lia
                    | intros [Ha Hb]; try reflexivity; exfalso; lia]
            | intros Hd; try reflexivity; exfalso; lia]).
Qed.

(** X3.  The position returned by [_locate_interval_index] is the running
    tally plus a position of the list: it is the tally itself on an empty
    list and lies below tally plus length otherwise. *)
Theorem locate_index_in_range (intervals : list Interval)
  (interval : Interval) (index : nat) :
  (index <= _locate_interval_index intervals interval index)%nat
  /\ (intervals = [] ->
      _locate_interval_index intervals interval index = index)
  /\ (intervals <> [] ->
      (_locate_interval_index intervals interval index
       < index + length intervals)%nat).
Proof.
  rewrite Search.locate_shift.
  destruct (Search.locate_props intervals interval) as ([Ha|[-> Ha]] & _).
  - repeat split; [lia | intros ->; cbn in Ha; lia | intros _; lia].
  - rewrite Ha. repeat split; [lia | intros _; lia | intros H; contradiction].
Qed.

(** X4.  On a list in timeslot order, putting a well-formed interval at the
    position [_find_insertion_index] returns gives again a list in timeslot
    order, so one without overlaps, made of the old intervals and the new
    one; the position is at most the length of the list. *)
Theorem find_insertion_keeps_timeslot_order (intervals : list Interval)
  (new_interval : Interval) (index : nat) :
  timeslot_ordered intervals -> wf_interval new_interval ->
  _find_insertion_index intervals new_interval = Ok index ->
  timeslot_ordered (list_insert index new_interval intervals)
  /\ pairwise_non_overlapping (list_insert index new_interval intervals)
  /\ Permutation (list_insert index new_interval intervals)
       (new_interval :: intervals)
  /\ (index <= length intervals)%nat.
Proof.
  intros Hord Hnew Hk.
  pose proof (Search.find_insertion_ordered intervals new_interval Hord Hnew)
    as H. rewrite Hk in H. destruct H as [Hord' _].
  split; [exact Hord'|]. split; [apply LookupFacts.ordered_pairwise, Hord'|].
  split.
  - unfold list_insert. rewrite <- Permutation_middle.
    rewrite firstn_skipn. reflexivity.
  - destruct (Search.find_insertion_cases intervals new_interval
                (Search.ordered_sorted_by_start _ Hord))
      as [(-> & _ & H)|(r & c & _ & Hn & _ & _ & _ & H)];
      rewrite H in Hk.
    + inversion Hk. cbn. lia.
    + assert (r < length intervals)%nat
        by (apply nth_error_Some; rewrite Hn; discriminate).
      destruct (_overlaps c new_interval); [discriminate|].
      inversion Hk. destruct (snd new_interval <=? fst c); lia.
Qed.

Lemma find_insertion_keeps_timeslot_order_witness :
  timeslot_ordered (list_insert 1 (10, 20) [(0, 10); (20, 30)])
  /\ pairwise_non_overlapping (list_insert 1 (10, 20) [(0, 10); (20, 30)]).
Proof.
  destruct (find_insertion_keeps_timeslot_order [(0, 10); (20, 30)]
              (10, 20) 1) as (H1 & H2 & _).
  - split; repeat constructor; unfold wf_interval, before; cbn; lia.
  - unfold wf_interval. cbn. lia.
  - reflexivity.
  - split; assumption.
Defined.

(** X5.  On a list in timeslot order [_interval_index] returns the position
    of an interval that is in the list, and a position it returns always
    holds the interval asked for.  For an interval that is not in a
    non-empty list it raises [PulseError]; on the empty list it raises
    [IndexError]. *)
Theorem interval_index_spec (intervals : list Interval)
  (interval : Interval) :
  (forall index, _interval_index intervals interval = Removed index ->
                 nth_error intervals index = Some interval)
  /\ (timeslot_ordered intervals -> In interval intervals ->
      exists index, _interval_index intervals interval = Removed index)
  /\ (intervals <> [] -> ~ In interval intervals ->
      _interval_index intervals interval
      = RemovalRaise (RemovalError (IntervalDoesNotExist interval intervals)))
  /\ _interval_index [] interval = RemovalRaise (Inherited IndexError).
Proof.
  split; [apply LookupFacts.interval_index_sound|]. split; [|split].
  - intros Hord Hin. eexists.
    apply LookupFacts.interval_index_finds; assumption.
  - apply LookupFacts.interval_index_missing.
  - reflexivity.
Qed.

Lemma interval_index_spec_witness :
  _interval_index [(0, 10); (10, 10); (10, 25); (30, 40)] (10, 25)
  = Removed 2%nat.
Proof.
  destruct (proj1 (proj2 (interval_index_spec
                            [(0, 10); (10, 10); (10, 25); (30, 40)]
                            (10, 25)))) as (k & Hk).
  - split; repeat constructor; unfold wf_interval, before; cbn; lia.
  - right. right. left. reflexivity.
  - rewrite Hk. vm_compute in Hk. inversion Hk. reflexivity.
Defined.

(** ** Further properties of shifting *)

Module MoveFacts.

(** The check fails on the first channel whose first interval starts
    below zero. *)
Lemma check_nonnegative_raise (ts : TimeSlots) :
  (exists c first rest, In (c, first :: rest) ts /\ fst first < 0) ->
  exists c first rest,
    In (c, first :: rest) ts /\ fst first < 0
    /\ _check_nonnegative_timeslot ts
       = Raise (PulseError (NegativeStart (chan_name c))).
Proof.
  induction ts as [|[c l] ts IH]; intros (c0 & f0 & r0 & Hin & Hneg);
    [destruct Hin|].
  cbn [_check_nonnegative_timeslot].
  assert (Hrest : In (c0, f0 :: r0) ts ->
                  exists c1 f1 r1,
                    In (c1, f1 :: r1) ((c, l) :: ts) /\ fst f1 < 0
                    /\ _check_nonnegative_timeslot ts
                       = Raise (PulseError (NegativeStart (chan_name c1)))).
  { intros H. destruct IH as (c1 & f1 & r1 & H1 & H2 & H3).
    - exists c0, f0, r0. split; assumption.
    - exists c1, f1, r1. repeat split; [right|..]; assumption. }
  destruct l as [|first l].
  - destruct Hin as [Heq|Hin]; [discriminate|]. apply Hrest, Hin.
  - destruct (Z.ltb_spec (fst first) 0) as [Hlt|Hge].
    + exists c, first, l. repeat split; [left; reflexivity | exact Hlt].
    + destruct Hin as [Heq|Hin]; [|apply Hrest, Hin].
      inversion Heq; subst. lia.
Qed.

Lemma shifted_first (time : Z) (ts : TimeSlots) (c : Channel)
  (first : Interval) (rest : list Interval) :
  In (c, first :: rest) (shift_timeslots time ts) ->
  exists first0 rest0,
    In (c, first0 :: rest0) ts /\ first = shift_interval time first0.
Proof.
  unfold shift_timeslots. intros H. apply in_map_iff in H.
  destruct H as ([c0 l0] & Heq & Hin). cbn [fst snd] in Heq.
  destruct l0 as [|first0 rest0]; [discriminate|].
  inversion Heq; subst. exists first0, rest0. split; [exact Hin|reflexivity].
Qed.

Lemma first_shifted (time : Z) (ts : TimeSlots) (c : Channel)
  (first : Interval) (rest : list Interval) :
  In (c, first :: rest) ts ->
  In (c, shift_interval time first :: map (shift_interval time) rest)
    (shift_timeslots time ts).
Proof.
  intros H. unfold shift_timeslots. apply in_map_iff.
  exists (c, first :: rest). split; [reflexivity | exact H].
Qed.

(** Shifting raises when some channel's first interval would start below
    zero, naming such a channel. *)
Lemma shifted_check_raise (time : Z) (ts : TimeSlots) :
  (exists c first rest, In (c, first :: rest) ts /\ fst first + time < 0) ->
  exists c first rest,
    In (c, first :: rest) ts /\ fst first + time < 0
    /\ _check_nonnegative_timeslot (shift_timeslots time ts)
       = Raise (PulseError (NegativeStart (chan_name c))).
Proof.
  intros (c & first & rest & Hin & Hneg).
  destruct (check_nonnegative_raise (shift_timeslots time ts))
    as (c1 & f1 & r1 & H1 & H2 & H3).
  - exists c, (shift_interval time first),
      (map (shift_interval time) rest).
    split; [apply first_shifted, Hin | exact Hneg].
  - apply shifted_first in H1. destruct H1 as (f0 & r0 & Hin0 & ->).
    exists c1, f0, r0. repeat split; assumption.
Qed.

End MoveFacts.

(** X6.  A shift that would move the first interval of some channel below
    time zero raises [PulseError] for such a channel, and the receiver is
    as it was before the call, also when the shift is in place. *)
Theorem shift_below_zero_fails
  (merge : Schedule -> Z -> Schedule -> result (Schedule * Schedule))
  (time : Z) (name : option string) (inplace : bool) (self : Schedule) :
  (inplace = false -> distinct_channels self) ->
  (exists c first rest,
      In (c, first :: rest) (_timeslots self) /\ fst first + time < 0) ->
  exists c first rest,
    In (c, first :: rest) (_timeslots self) /\ fst first + time < 0
    /\ shift merge time name inplace self
       = (self, Raise (PulseError (NegativeStart (chan_name c)))).
Proof.
  intros Hnd Hneg.
  destruct (MoveFacts.shifted_check_raise time (_timeslots self) Hneg)
    as (c & first & rest & Hin & Hlt & Hcheck).
  exists c, first, rest. split; [exact Hin|]. split; [exact Hlt|].
  destruct inplace; cbn [shift].
  - unfold _mutable_shift. fold (shift_timeslots time (_timeslots self)).
    rewrite Hcheck. reflexivity.
  - specialize (Hnd eq_refl).
    unfold _immutable_shift. cbn [insert]. unfold _mutable_insert.
    rewrite ShiftFacts.dp_merge_applies_fresh by reflexivity.
    unfold insert_tail, _add_timeslots.
    cbn [_get_timeslots component_channels component_name
           component_duration].
    unfold channels.
    pose proof (ShiftFacts.add_channels_fresh time (_name self)
                  (_name (initialize_from self name)) [] (_timeslots self))
      as Hadd.
    unfold shift_timeslots at 1 in Hadd. cbn [app map] in Hadd.
    cbn [set_duration _timeslots initialize_from empty_schedule].
    rewrite Hadd by exact Hnd.
    rewrite Hcheck. reflexivity.
Qed.

Lemma shift_below_zero_fails_witness :
  shift (fun _ _ _ => Raise KeyError) (-5) None false
    (mkSchedule "s" [] 20 [(DriveChannel 0, [(3, 20)])]
       [(3, Inst (play 17 (DriveChannel 0)))])
  = (mkSchedule "s" [] 20 [(DriveChannel 0, [(3, 20)])]
       [(3, Inst (play 17 (DriveChannel 0)))],
     Raise (PulseError (NegativeStart "d0"))).
Proof.
  destruct (shift_below_zero_fails (fun _ _ _ => Raise KeyError) (-5) None
              false
              (mkSchedule "s" [] 20 [(DriveChannel 0, [(3, 20)])]
                 [(3, Inst (play 17 (DriveChannel 0)))]))
    as (c & first & rest & Hin & _ & H).
  - intros _. repeat constructor. cbn. intros [].
  - exists (DriveChannel 0), (3, 20), []. split; [left; reflexivity|].
    cbn. lia.
  - destruct Hin as [Heq|[]]. inversion Heq; subst. exact H.
Defined.

(** X7.  An in-place shift by [time] followed by an in-place shift by
    [-time] gives back the schedule it started from: name, metadata,
    duration, timeslots and children. *)
Theorem shift_in_place_round_trip
  (merge : Schedule -> Z -> Schedule -> result (Schedule * Schedule))
  (time : Z) (n1 n2 : option string) (self : Schedule) :
  starts_nonneg_after self 0 -> starts_nonneg_after self time ->
  exists R,
    shift merge time n1 true self = (R, Ok R)
    /\ shift merge (- time) n2 true R = (self, Ok self).
Proof.
  intros H0 Ht. cbn [shift]. unfold _mutable_shift.
  fold (shift_timeslots time (_timeslots self)).
  rewrite ShiftFacts.shift_timeslots_nonneg by exact Ht.
  eexists. split; [reflexivity|].
  cbn [_timeslots _name _metadata _duration _children].
  fold (shift_timeslots (- time) (shift_timeslots time (_timeslots self))).
  rewrite ShiftFacts.shift_timeslots_twice, Z.add_opp_diag_r.
  rewrite InsertFacts.shift_timeslots_zero.
  rewrite ShiftFacts.check_nonnegative_ok.
  - assert (E : mkSchedule (_name self) (_metadata self)
                  (_duration self + time + - time) (_timeslots self)
                  (map (fun c : Z * ScheduleComponent =>
                          (fst c + - time, snd c))
                     (map (fun c : Z * ScheduleComponent =>
                             (fst c + time, snd c)) (_children self)))
                = self).
    { destruct self as [n m d ts ch].
      cbn [_name _metadata _duration _timeslots _children]. f_equal; [lia|].
      rewrite map_map. rewrite <- (map_id ch) at 2. apply map_ext.
      intros [t c]. cbn [fst snd]. f_equal. lia. }
    rewrite E. reflexivity.
  - intros c l iv Hin Hiv. specialize (H0 c l iv Hin Hiv). lia.
Qed.

Lemma shift_in_place_round_trip_witness :
  exists R,
    shift (fun _ _ _ => Raise KeyError) 7 None true
      (single_play 100 (DriveChannel 0)) = (R, Ok R)
    /\ shift (fun _ _ _ => Raise KeyError) (-7) None true R
       = (single_play 100 (DriveChannel 0),
          Ok (single_play 100 (DriveChannel 0))).
Proof.
  apply (shift_in_place_round_trip (fun _ _ _ => Raise KeyError) 7 None None
           (single_play 100 (DriveChannel 0))).
  - intros c l iv [Heq|[]] Hiv. inversion Heq; subst.
    destruct Hiv as [<-|[]]. cbn. lia.
  - intros c l iv [Heq|[]] Hiv. inversion Heq; subst.
    destruct Hiv as [<-|[]]. cbn. lia.
Defined.

(** ** Further properties of adding timeslots *)

(** As everywhere in this development a component handed to a method is a
    value: an object other than the receiver, sharing no list with it. *)

Module ContentFacts.

(** A merged channel list holds the old intervals and the moved new ones. *)
Lemma merge_intervals_content (time : Z) (err : Interval -> PulseReason)
  (current others current' : list Interval) :
  merge_intervals time err current others = (current', Ok tt) ->
  Permutation current' (current ++ map (shift_interval time) others).
Proof.
  revert current. induction others as [|interval rest IH]; intros current H.
  - cbn in H. inversion H. rewrite app_nil_r. reflexivity.
  - cbn [merge_intervals] in H.
    destruct (last_interval current) as [final|e]; [|discriminate].
    destruct (fst interval + time >=? snd final).
    + inversion H. reflexivity.
    + destruct (_find_insertion_index current (shift_interval time interval))
        as [index|[r| | |]]; try discriminate.
      apply IH in H. rewrite H. cbn [map].
      rewrite <- Permutation_middle. unfold list_insert.
      rewrite <- !app_assoc. cbn [app].
      rewrite <- Permutation_middle.
      rewrite app_assoc, firstn_skipn. reflexivity.
Qed.

Lemma add_channels_content (time : Z) (new old : string) (other : TimeSlots)
  (chans : list Channel) (ts ts' : TimeSlots) :
  NoDup chans ->
  add_channels time new old other chans ts = (ts', Ok tt) ->
  (forall c, ~ In c chans -> ts_get c ts' = ts_get c ts)
  /\ (forall c, In c chans ->
        exists others l',
          ts_get c other = Some others /\ ts_get c ts' = Some l'
          /\ Permutation l'
               (slot_of c ts ++ map (shift_interval time) others)).
Proof.
  intros Hnd. revert ts.
  induction chans as [|channel rest IH]; intros ts H.
  - cbn in H. inversion H. split; [reflexivity | intros c []].
  - apply NoDup_cons_iff in Hnd. destruct Hnd as [Hfresh Hnd].
    cbn [add_channels] in H.
    destruct (ts_get channel other) as [others|] eqn:Hother; [|discriminate].
    assert (Hstep : forall l1,
               add_channels time new old other rest (ts_set channel l1 ts)
               = (ts', Ok tt) ->
               Permutation l1
                 (slot_of channel ts ++ map (shift_interval time) others) ->
               (forall c, ~ In c (channel :: rest) ->
                          ts_get c ts' = ts_get c ts)
               /\ (forall c, In c (channel :: rest) ->
                     exists others l',
                       ts_get c other = Some others /\ ts_get c ts' = Some l'
                       /\ Permutation l'
                            (slot_of c ts
                             ++ map (shift_interval time) others))).
    { intros l1 Hadd Hperm.
      destruct (IH Hnd _ Hadd) as [Hout Hin]. split.
      - intros c Hc. rewrite Hout by (intros Hr; apply Hc; right; exact Hr).
        apply InsertFacts.ts_get_set_other. intros ->.
        apply Hc. left. reflexivity.
      - intros c [<-|Hc].
        + exists others, l1. split; [exact Hother|]. split; [|exact Hperm].
          rewrite Hout by exact Hfresh. apply InsertFacts.ts_get_set_same.
        + destruct (Hin c Hc) as (o & l' & Ho & Hl & Hp).
          exists o, l'. split; [exact Ho|]. split; [exact Hl|].
          unfold slot_of in *.
          rewrite InsertFacts.ts_get_set_other in Hp; [exact Hp|].
          intros ->. contradiction. }
    destruct (ts_get channel ts) as [current|] eqn:Hcur.
    + destruct (merge_intervals _ _ current others) as [current' [[]|e]]
        eqn:Hmerge; [|discriminate].
      apply (Hstep current' H). unfold slot_of. rewrite Hcur.
      eapply merge_intervals_content, Hmerge.
    + apply (Hstep _ H). unfold slot_of. rewrite Hcur.
      rewrite ShiftFacts.shift_or_copy. reflexivity.
Qed.

(** The check passes exactly when no first interval starts below zero. *)
Lemma check_nonnegative_first (ts : TimeSlots) :
  _check_nonnegative_timeslot ts = Ok tt ->
  forall c first rest, In (c, first :: rest) ts -> 0 <= fst first.
Proof.
  intros H c first rest Hin.
  destruct (Z.le_gt_cases 0 (fst first)) as [Hle|Hlt]; [exact Hle|].
  destruct (MoveFacts.check_nonnegative_raise ts) as (c1 & _ & _ & _ & _ & E).
  - exists c, first, rest. split; [exact Hin | lia].
  - rewrite E in H. discriminate.
Qed.

End ContentFacts.

(** X8.  A successful [_add_timeslots] of a component with distinct channels
    leaves every channel outside the component as it was; on each channel
    of the component the list is made of the old intervals and the
    component's intervals moved by [time]; no first interval starts below
    zero; the duration is the larger of the old one and the component's
    stop; name and children are untouched. *)
Theorem add_timeslots_content (time : Z) (schedule : ScheduleComponent)
  (self R : Schedule) :
  NoDup (component_channels schedule) ->
  _add_timeslots time schedule self = (R, Ok tt) ->
  exists other_timeslots,
    _get_timeslots schedule = Ok other_timeslots
    /\ (forall c, ~ In c (component_channels schedule) ->
                  ts_get c (_timeslots R) = ts_get c (_timeslots self))
    /\ (forall c, In c (component_channels schedule) ->
          exists others l',
            ts_get c other_timeslots = Some others
            /\ ts_get c (_timeslots R) = Some l'
            /\ Permutation l'
                 (slot_of c (_timeslots self)
                  ++ map (shift_interval time) others))
    /\ (forall c first rest,
          In (c, first :: rest) (_timeslots R) -> 0 <= fst first)
    /\ _duration R
       = Z.max (_duration self) (time + component_duration schedule)
    /\ _children R = _children self
    /\ _name R = _name self.
Proof.
  intros Hnd. unfold _add_timeslots.
  destruct (_get_timeslots schedule) as [other|e]; [|discriminate].
  destruct (add_channels _ _ _ _ _ _) as [ts' [[]|e]] eqn:Hadd;
    [|discriminate].
  intros H. inversion H as [[HR Hchk]]. clear H.
  destruct self as [n m du ts ch].
  cbn [set_duration set_timeslots _timeslots _name _duration _metadata
         _children] in *.
  destruct (ContentFacts.add_channels_content _ _ _ _ _ _ _ Hnd Hadd)
    as [Hout Hin].
  exists other. split; [reflexivity|]. split; [exact Hout|].
  split; [exact Hin|]. split; [|repeat split].
  apply ContentFacts.check_nonnegative_first, Hchk.
Qed.

Lemma add_timeslots_content_witness :
  exists R,
    _add_timeslots 100 (Inst (play 50 (DriveChannel 0)))
      (single_play 100 (DriveChannel 0)) = (R, Ok tt)
    /\ _duration R = 150
    /\ ts_get (DriveChannel 1) (_timeslots R) = None.
Proof.
  eexists. split; [reflexivity|].
  destruct (add_timeslots_content 100 (Inst (play 50 (DriveChannel 0)))
              (single_play 100 (DriveChannel 0)) _
              ltac:(repeat constructor; cbn; intros []) eq_refl)
    as (other & _ & Hout & _ & _ & Hd & _).
  split; [exact Hd|]. rewrite Hout; [reflexivity|].
  cbn. intros [H|[]]. discriminate H.
Defined.

(** ** Further properties of insertion *)

Module TreeFacts.


End TreeFacts.

Module ShapeFacts.

Section Insert.
Variable merge : Schedule -> Z -> Schedule -> result (Schedule * Schedule).

(** What the statements that end [_mutable_insert] leave when they
    succeed. *)
Lemma insert_tail_shape (time : Z) (schedule : ScheduleComponent)
  (self R R' : Schedule) :
  insert_tail time schedule self = (R, Ok R') ->
  R' = R
  /\ _children R = _children self ++ [(time, schedule)]
  /\ _duration R
     = Z.max (_duration self) (time + component_duration schedule)
  /\ _name R = _name self /\ _metadata R = _metadata self.
Proof.
  unfold insert_tail, _add_timeslots.
  destruct (_get_timeslots schedule) as [other|e]; [|discriminate].
  destruct (add_channels _ _ _ _ _ _) as [ts' [[]|e]]; [|discriminate].
  destruct (_check_nonnegative_timeslot ts'); [|discriminate].
  intros H. inversion H. destruct self as [n m du ts ch].
  repeat split.
Qed.

(** The copy that the copying insertion starts from. *)
Lemma copy_of_receiver_full (self : Schedule) (name : option string) :
  timeslots_ok self ->
  _mutable_insert merge 0 (Sched self) (initialize_from self name)
  = (mkSchedule (_name (initialize_from self name)) (_metadata self)
       (Z.max 0 (_duration self)) (_timeslots self) [(0, Sched self)],
     Ok (mkSchedule (_name (initialize_from self name)) (_metadata self)
           (Z.max 0 (_duration self)) (_timeslots self) [(0, Sched self)])).
Proof.
  intros (Hnd & _ & Hnn).
  unfold _mutable_insert.
  rewrite ShiftFacts.dp_merge_applies_fresh by reflexivity.
  unfold insert_tail, _add_timeslots.
  cbn [_get_timeslots component_channels component_name component_duration].
  unfold channels.
  pose proof (ShiftFacts.add_channels_fresh 0 (_name self)
                (_name (initialize_from self name)) [] (_timeslots self))
    as Hadd.
  unfold shift_timeslots at 1 in Hadd. cbn [app map] in Hadd.
  cbn [set_duration _timeslots initialize_from empty_schedule].
  rewrite Hadd by exact Hnd.
  rewrite ShiftFacts.shift_timeslots_nonneg by exact Hnn.
  rewrite InsertFacts.shift_timeslots_zero. reflexivity.
Qed.

(** The object a successful insertion returns, in place or not. *)
Lemma insert_ok_shape (time : Z) (schedule : ScheduleComponent)
  (name : option string) (inplace : bool) (self R R' : Schedule) :
  (inplace = false -> timeslots_ok self) ->
  dp_merge_applies self schedule = false ->
  insert merge time schedule name inplace self = (R, Ok R') ->
  R = (if inplace then R' else self)
  /\ _children R'
     = (if inplace then _children self else [(0, Sched self)])
       ++ [(time, schedule)]
  /\ _duration R'
     = Z.max (if inplace then _duration self else Z.max 0 (_duration self))
         (time + component_duration schedule)
  /\ _metadata R' = _metadata self
  /\ exists S,
      _timeslots S = _timeslots self
      /\ insert merge time schedule name true S = (R', Ok R').
Proof.
  intros Hok Hdp. destruct inplace; cbn [insert].
  - unfold _mutable_insert. rewrite Hdp. intros H.
    destruct (insert_tail_shape _ _ _ _ _ H) as (-> & Hch & Hd & _ & Hm).
    repeat split; try assumption.
    exists self. split; [reflexivity|]. unfold _mutable_insert.
    rewrite Hdp. exact H.
  - specialize (Hok eq_refl). unfold _immutable_insert.
    rewrite (copy_of_receiver_full self name Hok).
    set (S := mkSchedule _ _ _ _ _).
    assert (Hdp' : dp_merge_applies S schedule = false) by exact Hdp.
    destruct (_mutable_insert merge time schedule S) as [S' [S''|e]] eqn:H;
      [|discriminate].
    intros E. injection E as <- <-.
    pose proof H as H'. unfold _mutable_insert in H'. rewrite Hdp' in H'.
    destruct (insert_tail_shape _ _ _ _ _ H') as (-> & Hch & Hd & _ & Hm).
    repeat split; try assumption.
    exists S. split; [reflexivity | exact H].
Qed.

End Insert.

End ShapeFacts.

(** X9.  A successful insertion outside the channel-merging branch, in
    place or not, returns a schedule whose channels are distinct and whose
    channel lists are non-empty, in timeslot order, free of overlaps and
    without negative start; the component is its last child.  In place the
    receiver is that schedule, otherwise the receiver is unchanged. *)
Theorem insert_keeps_timeslots_in_order
  (merge : Schedule -> Z -> Schedule -> result (Schedule * Schedule))
  (time : Z) (schedule : ScheduleComponent) (name : option string)
  (inplace : bool) (self R R' : Schedule) :
  timeslots_ok self -> component_ok schedule ->
  match schedule with Sched s => no_empty_slot s | Inst _ => True end ->
  dp_merge_applies self schedule = false ->
  insert merge time schedule name inplace self = (R, Ok R') ->
  timeslots_ok R'
  /\ (forall c l, In (c, l) (_timeslots R') -> pairwise_non_overlapping l)
  /\ R = (if inplace then R' else self)
  /\ _children R'
     = (if inplace then _children self else [(0, Sched self)])
       ++ [(time, schedule)]
  /\ _duration R'
     = Z.max (if inplace then _duration self else Z.max 0 (_duration self))
         (time + component_duration schedule).
Proof.
  intros Hok Hcomp Hne Hdp H.
  destruct (ShapeFacts.insert_ok_shape merge _ _ _ _ _ _ _
              (fun _ => Hok) Hdp H)
    as (HR & Hch & Hd & _ & S & HS & Hins).
  assert (HokS : timeslots_ok S).
  { unfold timeslots_ok, distinct_channels, starts_nonneg_after, channels
      in *. rewrite HS. exact Hok. }
  assert (HdpS : dp_merge_applies S schedule = false).
  { unfold dp_merge_applies, channels in *. rewrite HS. exact Hdp. }
  destruct (InvariantFacts.insert_keeps_timeslots_ok merge _ _ _ _ _ _
              HokS Hcomp Hne HdpS Hins) as (Hok' & _).
  split; [exact Hok'|]. split; [|repeat split; assumption].
  intros c l Hin. apply LookupFacts.ordered_pairwise.
  destruct Hok' as (_ & Hord & _). unfold slots_ordered in Hord.
  rewrite Forall_forall in Hord. apply (Hord (c, l) Hin).
Qed.

Lemma insert_keeps_timeslots_in_order_witness :
  exists R',
    insert (fun _ _ _ => Raise KeyError) 20
      (Inst (play 30 (DriveChannel 0))) None false
      (mkSchedule "s" [] 100 [(DriveChannel 0, [(0, 10); (60, 100)])]
         [(0, Inst (play 10 (DriveChannel 0)));
          (60, Inst (play 40 (DriveChannel 0)))])
    = (mkSchedule "s" [] 100 [(DriveChannel 0, [(0, 10); (60, 100)])]
         [(0, Inst (play 10 (DriveChannel 0)));
          (60, Inst (play 40 (DriveChannel 0)))], Ok R')
    /\ _timeslots R' = [(DriveChannel 0, [(0, 10); (20, 50); (60, 100)])]
    /\ timeslots_ok R'.
Proof.
  eexists. split; [reflexivity|]. split; [reflexivity|].
  eapply (insert_keeps_timeslots_in_order (fun _ _ _ => Raise KeyError) 20
            (Inst (play 30 (DriveChannel 0))) None false
            (mkSchedule "s" [] 100 [(DriveChannel 0, [(0, 10); (60, 100)])]
               [(0, Inst (play 10 (DriveChannel 0)));
                (60, Inst (play 40 (DriveChannel 0)))])).
  - split; [|split].
    + repeat constructor. cbn. intros [].
    + repeat constructor; unfold wf_interval, before; cbn;
        try discriminate; lia.
    + intros c l iv [Hin|[]] Hiv. inversion Hin; subst.
      destruct Hiv as [<-|[<-|[]]]; cbn; lia.
  - split; [|exact I]. repeat constructor. cbn. intros [].
  - exact I.
  - reflexivity.
  - reflexivity.
Defined.



(** ** The exceptions of an insertion *)

Module RaiseFacts.

Lemma check_nonnegative_kind (ts : TimeSlots) (e : exn) :
  _check_nonnegative_timeslot ts = Raise e ->
  exists ch, e = PulseError (NegativeStart ch).
Proof.
  induction ts as [|[c l] ts IH]; cbn [_check_nonnegative_timeslot];
    [discriminate|].
  destruct l as [|first l]; [exact IH|].
  destruct (fst first <? 0); [|exact IH].
  intros H. inversion H. eexists. reflexivity.
Qed.

(** On channels the component has a list for, and with no empty list in
    the receiver, the loop of [_add_timeslots] raises nothing but its own
    [PulseError]. *)
Lemma add_channels_kind (time : Z) (new old : string) (other : TimeSlots)
  (chans : list Channel) (ts ts' : TimeSlots) (e : exn) :
  NoDup chans ->
  (forall c, In c chans -> exists others, ts_get c other = Some others) ->
  (forall c l, In c chans -> ts_get c ts = Some l -> l <> []) ->
  add_channels time new old other chans ts = (ts', Raise e) ->
  exists ch t0 tf, e = PulseError (CannotBeInserted new old time ch t0 tf).
Proof.
  intros Hnd. revert ts.
  induction chans as [|channel rest IH]; intros ts Hoth Hne H;
    [discriminate|].
  apply NoDup_cons_iff in Hnd. destruct Hnd as [Hfresh Hnd].
  cbn [add_channels] in H.
  destruct (Hoth channel (or_introl eq_refl)) as (others & Ho).
  rewrite Ho in H.
  assert (Hstep : forall l1,
             add_channels time new old other rest (ts_set channel l1 ts)
             = (ts', Raise e) ->
             exists ch t0 tf,
               e = PulseError (CannotBeInserted new old time ch t0 tf)).
  { intros l1 Hadd. apply (IH Hnd (ts_set channel l1 ts)); [| |exact Hadd].
    - intros c Hc. apply Hoth. right. exact Hc.
    - intros c l Hc Hg. rewrite InsertFacts.ts_get_set_other in Hg.
      + apply (Hne c l); [right; exact Hc | exact Hg].
      + intros ->. contradiction. }
  destruct (ts_get channel ts) as [current|] eqn:Hcur.
  - pose proof (InsertFacts.merge_intervals_outcome time
                  (fun i => CannotBeInserted new old time (chan_name channel)
                              (fst i) (snd i))
                  current others
                  (Hne channel current (or_introl eq_refl) Hcur)) as Hout.
    destruct (merge_intervals _ _ current others) as [current' [[]|e']].
    + apply (Hstep current' H).
    + destruct Hout as (i & ->). inversion H. do 3 eexists. reflexivity.
  - apply (Hstep _ H).
Qed.

(** The component's timeslots have a list for each of its channels. *)
Lemma component_has_lists (schedule : ScheduleComponent) (other : TimeSlots) :
  _get_timeslots schedule = Ok other ->
  forall c, In c (component_channels schedule) ->
            exists others, ts_get c other = Some others.
Proof.
  intros Hget c Hc. destruct schedule as [i|s]; cbn [_get_timeslots] in Hget.
  - unfold instruction_duration_validation in Hget.
    destruct (0 <=? inst_duration i); [|discriminate].
    cbn [bind] in Hget. inversion Hget.
    eexists. apply InsertFacts.leaf_timeslots_get. exact Hc.
  - inversion Hget. subst other. cbn [component_channels] in Hc.
    unfold channels in Hc.
    destruct (ts_get c (_timeslots s)) as [l|] eqn:E;
      [eexists; reflexivity|].
    apply ChannelFacts.ts_get_None in E. contradiction.
Qed.

Lemma get_timeslots_kind (schedule : ScheduleComponent) (e : exn) :
  _get_timeslots schedule = Raise e -> e = PulseError InvalidDuration.
Proof.
  destruct schedule as [i|s]; cbn [_get_timeslots]; [|discriminate].
  unfold instruction_duration_validation.
  destruct (0 <=? inst_duration i); cbn [bind]; [discriminate|].
  intros H. inversion H. reflexivity.
Qed.

Lemma add_timeslots_kind (time : Z) (schedule : ScheduleComponent)
  (self S : Schedule) (e : exn) :
  no_empty_slot self -> NoDup (component_channels schedule) ->
  _add_timeslots time schedule self = (S, Raise e) ->
  exists r, e = PulseError r /\ insertion_reason r.
Proof.
  intros Hne Hnd. unfold _add_timeslots.
  destruct (_get_timeslots schedule) as [other|e0] eqn:Hget.
  - destruct (add_channels _ _ _ _ _ _) as [ts' [[]|e1]] eqn:Hadd.
    + intros H. injection H as _ Hchk.
      destruct (check_nonnegative_kind _ _ Hchk) as (ch & ->).
      eexists. split; [reflexivity | exact I].
    + intros H. injection H as _ <-.
      assert (Hcur : forall c l,
                 In c (component_channels schedule) ->
                 ts_get c (_timeslots
                             (set_duration self
                                (Z.max (_duration self)
                                   (time + component_duration schedule))))
                 = Some l -> l <> []).
      { intros c l _ Hg. destruct self as [n m du ts ch].
        cbn [set_duration _timeslots _name _metadata _children] in Hg.
        unfold no_empty_slot in Hne. rewrite Forall_forall in Hne.
        apply (Hne (c, l)), ChannelFacts.ts_get_In, Hg. }
      destruct (add_channels_kind _ _ _ _ _ _ _ _ Hnd
                  (component_has_lists _ _ Hget) Hcur Hadd)
        as (ch & t0 & tf & ->).
      eexists. split; [reflexivity | exact I].
  - intros H. injection H as _ <-.
    rewrite (get_timeslots_kind _ _ Hget).
    eexists. split; [reflexivity | exact I].
Qed.

End RaiseFacts.

Module FailFacts.

Section Insert.
Variable merge : Schedule -> Z -> Schedule -> result (Schedule * Schedule).

Lemma insert_tail_kind (time : Z) (schedule : ScheduleComponent)
  (self S : Schedule) (e : exn) :
  no_empty_slot self -> NoDup (component_channels schedule) ->
  insert_tail time schedule self = (S, Raise e) ->
  exists r, e = PulseError r /\ insertion_reason r.
Proof.
  intros Hne Hnd. unfold insert_tail.
  destruct (_add_timeslots time schedule self) as [S1 [[]|e1]] eqn:Hadd;
    [discriminate|].
  intros H. injection H as _ <-.
  eapply RaiseFacts.add_timeslots_kind; eassumption.
Qed.

(** The lists of the component's channels after the statements that end
    [_mutable_insert] have succeeded. *)
Lemma insert_tail_slots (time : Z) (schedule : ScheduleComponent)
  (self R R' : Schedule) (other : TimeSlots) :
  NoDup (component_channels schedule) ->
  _get_timeslots schedule = Ok other ->
  insert_tail time schedule self = (R, Ok R') ->
  forall c others,
    In c (component_channels schedule) -> ts_get c other = Some others ->
    exists l',
      ts_get c (_timeslots R) = Some l'
      /\ Permutation l'
           (slot_of c (_timeslots self) ++ map (shift_interval time) others).
Proof.
  intros Hnd Hget. unfold insert_tail, _add_timeslots. rewrite Hget.
  destruct (add_channels _ _ _ _ _ _) as [ts' [[]|e]] eqn:Hadd;
    [|discriminate].
  destruct (_check_nonnegative_timeslot ts'); [|discriminate].
  intros H. injection H as <- _. intros c others Hc Ho.
  destruct (ContentFacts.add_channels_content _ _ _ _ _ _ _ Hnd Hadd)
    as [_ Hin].
  destruct (Hin c Hc) as (o & l' & Ho' & Hl & Hp).
  rewrite Ho in Ho'. injection Ho' as <-.
  destruct self as [n m du ts ch].
  exists l'. split; [exact Hl | exact Hp].
Qed.

Lemma insert_kind (time : Z) (schedule : ScheduleComponent)
  (name : option string) (inplace : bool) (self S : Schedule) (e : exn) :
  timeslots_ok self -> NoDup (component_channels schedule) ->
  dp_merge_applies self schedule = false ->
  insert merge time schedule name inplace self = (S, Raise e) ->
  exists r, e = PulseError r /\ insertion_reason r.
Proof.
  intros Hok Hnd Hdp. destruct inplace; cbn [insert].
  - unfold _mutable_insert. rewrite Hdp.
    apply insert_tail_kind;
      [apply InvariantFacts.timeslots_ok_no_empty, Hok | exact Hnd].
  - unfold _immutable_insert.
    rewrite (ShapeFacts.copy_of_receiver_full merge self name Hok).
    set (S0 := mkSchedule _ _ _ _ _).
    assert (Hdp' : dp_merge_applies S0 schedule = false) by exact Hdp.
    unfold _mutable_insert. rewrite Hdp'.
    destruct (insert_tail time schedule S0) as [S1 [S2|e1]] eqn:H;
      [discriminate|].
    intros E. injection E as _ <-.
    assert (Hne : no_empty_slot S0)
      by exact (InvariantFacts.timeslots_ok_no_empty self Hok).
    apply (insert_tail_kind _ _ _ _ _ Hne Hnd H).
Qed.

End Insert.

End FailFacts.



(** X12.  When the receiver's timeslots are as the module keeps them and
    the component is one the module builds, an insertion that would put
    an interval of the component below time zero raises [PulseError], for
    the negative start or for an overlap met first.  A leaf with a channel
    inserted at a negative time is the plain case. *)
Theorem insert_below_zero_fails
  (merge : Schedule -> Z -> Schedule -> result (Schedule * Schedule))
  (time : Z) (schedule : ScheduleComponent) (name : option string)
  (inplace : bool) (self : Schedule) :
  timeslots_ok self -> component_ok schedule ->
  match schedule with Sched s => no_empty_slot s | Inst _ => True end ->
  dp_merge_applies self schedule = false ->
  starts_below_zero time schedule ->
  exists S r,
    insert merge time schedule name inplace self = (S, Raise (PulseError r))
    /\ insertion_reason r
    /\ (inplace = false -> S = self).
Proof.
  intros Hok Hcomp Hne Hdp (other & c & others & iv & Hget & Hc & Ho & Hiv
                             & Hneg).
  destruct (insert merge time schedule name inplace self) as [S [R'|e]]
    eqn:H.
  - exfalso.
    destruct (ShapeFacts.insert_ok_shape merge _ _ _ _ _ _ _
                (fun _ => Hok) Hdp H)
      as (_ & _ & _ & _ & S0 & HS & Hins).
    assert (HokS : timeslots_ok S0).
    { unfold timeslots_ok, distinct_channels, starts_nonneg_after, channels
        in *. rewrite HS. exact Hok. }
    assert (HdpS : dp_merge_applies S0 schedule = false).
    { unfold dp_merge_applies, channels in *. rewrite HS. exact Hdp. }
    destruct (InvariantFacts.insert_keeps_timeslots_ok merge _ _ _ _ _ _
                HokS Hcomp Hne HdpS Hins) as ((_ & _ & Hnn) & _).
    cbn [insert] in Hins. unfold _mutable_insert in Hins.
    rewrite HdpS in Hins.
    destruct (FailFacts.insert_tail_slots _ _ _ _ _ _ (proj1 Hcomp) Hget
                Hins c others Hc Ho) as (l' & Hl & Hp).
    assert (Hin : In (shift_interval time iv) l').
    { apply (Permutation_in _ (Permutation_sym Hp)), in_or_app. right.
      apply in_map, Hiv. }
    specialize (Hnn c l' _ (ChannelFacts.ts_get_In _ _ _ Hl) Hin).
    cbn [shift_interval fst] in Hnn. lia.
  - destruct (FailFacts.insert_kind merge _ _ _ _ _ _ _ Hok (proj1 Hcomp)
                Hdp H) as (r & -> & Hr).
    exists S, r. split; [reflexivity|]. split; [exact Hr|].
    intros ->. cbn [insert] in H. unfold _immutable_insert in H.
    destruct (_mutable_insert merge 0 (Sched self)
                (initialize_from self name)) as [S1 [S2|e1]];
      [|injection H as <- _; reflexivity].
    destruct (_mutable_insert merge time schedule S1) as [S3 [S4|e2]];
      [discriminate|]. injection H as <- _. reflexivity.
Qed.

Lemma insert_below_zero_fails_witness :
  insert (fun _ _ _ => Raise KeyError) (-5)
    (Inst (play 10 (DriveChannel 1))) None false
    (single_play 100 (DriveChannel 0))
  = (single_play 100 (DriveChannel 0),
     Raise (PulseError (NegativeStart "d1"))).
Proof.
  destruct (insert_below_zero_fails (fun _ _ _ => Raise KeyError) (-5)
              (Inst (play 10 (DriveChannel 1))) None false
              (single_play 100 (DriveChannel 0)))
    as (S & r & H & _ & HS).
  - split; [|split].
    + repeat constructor. cbn. intros [].
    + repeat constructor; cbn; discriminate.
    + intros c l iv [Hin|[]] Hiv. inversion Hin; subst.
      destruct Hiv as [<-|[]]. cbn. lia.
  - split; [|exact I]. repeat constructor. cbn. intros [].
  - exact I.
  - reflexivity.
  - exists [(DriveChannel 1, [(0, 10)])], (DriveChannel 1), [(0, 10)],
      (0, 10).
    repeat split; try reflexivity; left; reflexivity.
  - rewrite H. vm_compute in H. inversion H. reflexivity.
Defined.

(** ** Removing timeslots *)

Module RemovalFacts.

(** Two lists in timeslot order with the same intervals are equal. *)
Lemma ordered_perm_eq (a b : list Interval) :
  timeslot_ordered a -> timeslot_ordered b -> Permutation a b -> a = b.
Proof.
  revert b. induction a as [|x a IH]; intros b Ha Hb Hp.
  - apply Permutation_nil in Hp. symmetry. exact Hp.
  - destruct b as [|y b];
      [apply Permutation_sym, Permutation_nil in Hp; discriminate|].
    assert (Hxy : x = y).
    { assert (Hx : In x (y :: b))
        by (apply (Permutation_in _ Hp); left; reflexivity).
      assert (Hy : In y (x :: a))
        by (apply (Permutation_in _ (Permutation_sym Hp)); left;
            reflexivity).
      destruct Hx as [Hx|Hx]; [symmetry; exact Hx|].
      destruct Hy as [Hy|Hy]; [exact Hy|].
      destruct Ha as [Hwa Hsa], Hb as [Hwb Hsb].
      apply StronglySorted_inv in Hsa, Hsb.
      destruct Hsa as [_ Hsa], Hsb as [_ Hsb].
      rewrite Forall_forall in Hsa, Hsb.
      specialize (Hsa y Hy). specialize (Hsb x Hx).
      apply Forall_cons_iff in Hwa, Hwb.
      destruct Hwa as [Hwx _], Hwb as [Hwy _].
      destruct x, y. unfold before, wf_interval in *. cbn [fst snd] in *.
      f_equal; lia. }
    subst y. f_equal. apply IH.
    + eapply InsertFacts.ordered_tail, Ha.
    + eapply InsertFacts.ordered_tail, Hb.
    + eapply Permutation_cons_inv, Hp.
Qed.

Lemma pop_perm {A} (l : list A) (k : nat) (x : A) :
  nth_error l k = Some x -> Permutation l (x :: list_pop k l).
Proof.
  intros H. destruct (Search.nth_error_parts l k x H) as [Hl _].
  rewrite Hl at 1. unfold list_pop. symmetry. apply Permutation_middle.
Qed.

Lemma In_parts {A} (k : nat) (l : list A) (x : A) :
  In x (firstn k l) \/ In x (skipn k l) -> In x l.
Proof.
  intros H. rewrite <- (firstn_skipn k l). apply in_or_app, H.
Qed.

Lemma ordered_pop (l : list Interval) (k : nat) :
  timeslot_ordered l -> timeslot_ordered (list_pop k l).
Proof.
  intros [Hwf Hs]. unfold list_pop. split.
  - apply Forall_app. split.
    + apply Forall_forall. intros x Hx. rewrite Forall_forall in Hwf.
      apply Hwf, (In_parts k). left. exact Hx.
    + apply Forall_forall. intros x Hx. rewrite Forall_forall in Hwf.
      apply Hwf, (In_parts (S k)). right. exact Hx.
  - rewrite <- (firstn_skipn k l) in Hs.
    apply Search.StronglySorted_app_iff in Hs. destruct Hs as (H1 & H2 & H3).
    apply Search.StronglySorted_app_iff. split; [exact H1|]. split.
    + replace (skipn (S k) l) with (skipn 1 (skipn k l))
        by (rewrite skipn_skipn; reflexivity).
      apply Search.StronglySorted_skipn, H2.
    + intros a b Ha Hb. apply (H3 a b Ha).
      replace (skipn (S k) l) with (skipn 1 (skipn k l)) in Hb
        by (rewrite skipn_skipn; reflexivity).
      apply (In_parts 1). right. exact Hb.
Qed.

(** What a successful run of the inner loop has removed. *)
Lemma remove_intervals_content (time : Z) (err : Interval -> RemovalReason)
  (l others l' : list Interval) :
  remove_intervals time err l others = (l', Removed tt) ->
  Permutation l (l' ++ map (shift_interval time) others).
Proof.
  revert l. induction others as [|interval rest IH]; intros l H.
  - cbn in H. injection H as <-. rewrite app_nil_r. reflexivity.
  - cbn [remove_intervals] in H.
    destruct l as [|x xs]; [discriminate|].
    destruct (_interval_index (x :: xs) (shift_interval time interval))
      as [index|e] eqn:Hidx; [|discriminate].
    apply LookupFacts.interval_index_sound in Hidx.
    rewrite Hidx in H.
    destruct (interval_eqb _ _); [|discriminate].
    apply IH in H. rewrite (pop_perm _ _ _ Hidx), H. cbn [map].
    apply Permutation_middle.
Qed.

(** The inner loop succeeds on a list in timeslot order that holds the
    intervals to remove, and gives back the rest. *)
Lemma remove_intervals_ok (time : Z) (err : Interval -> RemovalReason)
  (l cur others : list Interval) :
  timeslot_ordered l -> timeslot_ordered cur ->
  Permutation l (cur ++ map (shift_interval time) others) ->
  remove_intervals time err l others = (cur, Removed tt).
Proof.
  revert l. induction others as [|interval rest IH]; intros l Hl Hcur Hp.
  - cbn [map] in Hp. rewrite app_nil_r in Hp. cbn.
    rewrite (ordered_perm_eq l cur Hl Hcur Hp). reflexivity.
  - cbn [remove_intervals].
    assert (Hin : In (shift_interval time interval) l).
    { apply (Permutation_in _ (Permutation_sym Hp)), in_or_app. right.
      left. reflexivity. }
    destruct l as [|x xs]; [destruct Hin|].
    rewrite (LookupFacts.interval_index_finds _ _ Hl Hin).
    pose proof (LookupFacts.locate_finds _ _ Hl Hin) as Hnth.
    rewrite Hnth.
    assert (E : interval_eqb (shift_interval time interval)
                  (shift_interval time interval) = true)
      by (apply IntervalFacts.interval_eqb_eq; reflexivity).
    rewrite E. apply IH; [apply ordered_pop, Hl | exact Hcur |].
    apply (Permutation_cons_inv (a := shift_interval time interval)).
    rewrite <- (pop_perm _ _ _ Hnth), Hp. cbn [map].
    symmetry. apply Permutation_middle.
Qed.

Lemma ts_get_pop_other (c c' : Channel) (ts : TimeSlots) :
  c <> c' -> ts_get c' (ts_pop c ts) = ts_get c' ts.
Proof.
  intros Hne. induction ts as [|[c0 l0] ts IH]; [reflexivity|].
  cbn [ts_pop ts_get].
  destruct (Channel_eqb c0 c) eqn:E.
  - apply ChannelFacts.Channel_eqb_eq in E. subst c0.
    destruct (Channel_eqb c c') eqn:E'; [|reflexivity].
    apply ChannelFacts.Channel_eqb_eq in E'. contradiction.
  - cbn [ts_get]. rewrite IH. reflexivity.
Qed.

Lemma ts_pop_keys (c : Channel) (ts : TimeSlots) :
  forall x, In x (map fst (ts_pop c ts)) -> In x (map fst ts).
Proof.
  induction ts as [|[c0 l0] ts IH]; intros x Hx; [exact Hx|].
  cbn [ts_pop] in Hx. destruct (Channel_eqb c0 c).
  - right. exact Hx.
  - destruct Hx as [Hx|Hx]; [left; exact Hx | right; apply IH, Hx].
Qed.

Lemma ts_pop_NoDup (c : Channel) (ts : TimeSlots) :
  NoDup (map fst ts) -> NoDup (map fst (ts_pop c ts)).
Proof.
  induction ts as [|[c0 l0] ts IH]; intros H; [exact H|].
  cbn [map fst] in H. apply NoDup_cons_iff in H. destruct H as [Hn Hd].
  cbn [ts_pop]. destruct (Channel_eqb c0 c); [exact Hd|].
  cbn [map fst]. constructor; [|apply IH, Hd].
  intros Hx. apply Hn. eapply ts_pop_keys, Hx.
Qed.

Lemma ts_get_pop_same (c : Channel) (ts : TimeSlots) :
  NoDup (map fst ts) -> ts_get c (ts_pop c ts) = None.
Proof.
  induction ts as [|[c0 l0] ts IH]; intros H; [reflexivity|].
  cbn [map fst] in H. apply NoDup_cons_iff in H. destruct H as [Hn Hd].
  cbn [ts_pop]. destruct (Channel_eqb c0 c) eqn:E.
  - apply ChannelFacts.Channel_eqb_eq in E. subst c0.
    apply ChannelFacts.ts_get_None. exact Hn.
  - cbn [ts_get]. rewrite E. apply IH, Hd.
Qed.

Lemma after_channel_other (channel c : Channel) (l : list Interval)
  (ts : TimeSlots) :
  channel <> c -> ts_get c (after_channel channel l ts) = ts_get c ts.
Proof.
  intros Hne. unfold after_channel. destruct l.
  - rewrite ts_get_pop_other by exact Hne.
    apply InsertFacts.ts_get_set_other, Hne.
  - apply InsertFacts.ts_get_set_other, Hne.
Qed.

Lemma after_channel_same (channel : Channel) (l : list Interval)
  (ts : TimeSlots) :
  NoDup (map fst ts) ->
  ts_get channel (after_channel channel l ts)
  = match l with [] => None | _ :: _ => Some l end.
Proof.
  intros Hnd. unfold after_channel. destruct l.
  - apply ts_get_pop_same, InvariantFacts.ts_set_NoDup, Hnd.
  - apply InsertFacts.ts_get_set_same.
Qed.

Lemma after_channel_NoDup (channel : Channel) (l : list Interval)
  (ts : TimeSlots) :
  NoDup (map fst ts) -> NoDup (map fst (after_channel channel l ts)).
Proof.
  intros Hnd. unfold after_channel. destruct l.
  - apply ts_pop_NoDup, InvariantFacts.ts_set_NoDup, Hnd.
  - apply InvariantFacts.ts_set_NoDup, Hnd.
Qed.

(** What a successful run of the loop over the channels has removed. *)
Lemma remove_channels_content (time : Z) (schedule : ScheduleComponent)
  (chans : list Channel) (ts ts' : TimeSlots) :
  NoDup chans -> NoDup (map fst ts) ->
  remove_channels time schedule chans ts = (ts', Removed tt) ->
  NoDup (map fst ts')
  /\ (forall c, ~ In c chans -> ts_get c ts' = ts_get c ts)
  /\ (forall c, In c chans ->
        exists other others l,
          _get_timeslots schedule = Ok other
          /\ ts_get c other = Some others
          /\ ts_get c ts = Some l
          /\ Permutation l
               (slot_of c ts' ++ map (shift_interval time) others)
          /\ ts_get c ts' <> Some []).
Proof.
  intros Hnd. revert ts.
  induction chans as [|channel rest IH]; intros ts Hkeys H.
  - cbn in H. injection H as <-.
    split; [exact Hkeys|]. split; [reflexivity | intros c []].
  - apply NoDup_cons_iff in Hnd. destruct Hnd as [Hfresh Hnd].
    cbn [remove_channels] in H.
    destruct (ts_get channel ts) as [l|] eqn:Hl; [|discriminate].
    destruct (_get_timeslots schedule) as [other|e] eqn:Hget;
      [|discriminate].
    destruct (ts_get channel other) as [others|] eqn:Ho; [|discriminate].
    destruct (remove_intervals _ _ l others) as [l' [[]|e]] eqn:Hrem;
      [|discriminate].
    fold (after_channel channel l' ts) in H.
    destruct (IH Hnd _ (after_channel_NoDup channel l' ts Hkeys) H)
      as (Hkeys' & Hout & Hin).
    split; [exact Hkeys'|]. split.
    + intros c Hc. rewrite Hout by (intros Hr; apply Hc; right; exact Hr).
      apply after_channel_other. intros ->. apply Hc. left. reflexivity.
    + assert (Hsame : ts_get channel ts'
                      = match l' with [] => None | _ :: _ => Some l' end).
      { rewrite Hout by exact Hfresh.
        apply after_channel_same, Hkeys. }
      intros c [<-|Hc].
      * exists other, others, l. repeat split; try assumption.
        -- unfold slot_of. rewrite Hsame.
           apply remove_intervals_content in Hrem.
           destruct l'; exact Hrem.
        -- rewrite Hsame. destruct l'; discriminate.
      * destruct (Hin c Hc) as (o & os & l0 & H1 & H2 & H3 & H4 & H5).
        exists o, os, l0. repeat split; try assumption.
        rewrite after_channel_other in H3; [exact H3|].
        intros ->. contradiction.
Qed.

(** The loop over the channels undoes an addition: [ts0] is the dictionary
    before the addition. *)
Lemma remove_channels_ok (time : Z) (schedule : ScheduleComponent)
  (other ts0 : TimeSlots) (chans : list Channel) (ts : TimeSlots) :
  _get_timeslots schedule = Ok other ->
  NoDup chans -> NoDup (map fst ts) ->
  (forall c, In c chans ->
     exists others l,
       ts_get c other = Some others /\ ts_get c ts = Some l
       /\ timeslot_ordered l
       /\ Permutation l (slot_of c ts0 ++ map (shift_interval time) others)
       /\ timeslot_ordered (slot_of c ts0)
       /\ ts_get c ts0 <> Some []) ->
  exists ts',
    remove_channels time schedule chans ts = (ts', Removed tt)
    /\ NoDup (map fst ts')
    /\ (forall c, In c chans -> ts_get c ts' = ts_get c ts0)
    /\ (forall c, ~ In c chans -> ts_get c ts' = ts_get c ts).
Proof.
  intros Hget Hnd. revert ts.
  induction chans as [|channel rest IH]; intros ts Hkeys Hall.
  - exists ts. split; [reflexivity|]. split; [exact Hkeys|].
    split; [intros c [] | reflexivity].
  - apply NoDup_cons_iff in Hnd. destruct Hnd as [Hfresh Hnd].
    destruct (Hall channel (or_introl eq_refl))
      as (others & l & Ho & Hl & Hlo & Hp & Hco & Hne).
    cbn [remove_channels]. rewrite Hl, Hget, Ho.
    rewrite (remove_intervals_ok time _ l (slot_of channel ts0) others
               Hlo Hco Hp).
    fold (after_channel channel (slot_of channel ts0) ts).
    destruct (IH Hnd (after_channel channel (slot_of channel ts0) ts))
      as (ts' & Hrun & Hkeys' & Hin & Hout).
    + apply after_channel_NoDup, Hkeys.
    + intros c Hc.
      destruct (Hall c (or_intror Hc))
        as (os & l0 & H1 & H2 & H3 & H4 & H5 & H6).
      exists os, l0. split; [exact H1|]. split.
      { rewrite after_channel_other; [exact H2|]. intros ->. contradiction. }
      split; [exact H3|]. split; [exact H4|]. split; assumption.
    + exists ts'. split; [exact Hrun|]. split; [exact Hkeys'|]. split.
      * intros c [<-|Hc]; [|apply Hin, Hc].
        rewrite Hout by exact Hfresh.
        rewrite after_channel_same by exact Hkeys.
        unfold slot_of in *.
        destruct (ts_get channel ts0) as [[|x xs]|]; try reflexivity.
        contradiction.
      * intros c Hc. rewrite Hout by (intros Hr; apply Hc; right; exact Hr).
        apply after_channel_other. intros ->. apply Hc. left. reflexivity.
Qed.

End RemovalFacts.

Module RoundTripFacts.

(** The lists of a component the module builds are non-empty and in
    timeslot order. *)
Lemma component_lists (schedule : ScheduleComponent) (other : TimeSlots) :
  component_ok schedule ->
  match schedule with Sched s => no_empty_slot s | Inst _ => True end ->
  _get_timeslots schedule = Ok other ->
  forall c l, In c (component_channels schedule) ->
              ts_get c other = Some l -> l <> [] /\ timeslot_ordered l.
Proof.
  intros Hcomp Hne Hget c l Hc Hg.
  destruct (InsertFacts.component_lists_ordered schedule other Hcomp Hget
              c Hc) as (others & Ho & Hoo).
  rewrite Hg in Ho. injection Ho as <-. split; [|exact Hoo].
  destruct schedule as [i|s]; cbn [_get_timeslots] in Hget.
  - unfold instruction_duration_validation in Hget.
    destruct (0 <=? inst_duration i); [|discriminate].
    cbn [bind] in Hget. injection Hget as <-.
    cbn [component_channels] in Hc.
    rewrite (InsertFacts.leaf_timeslots_get _ _ _ _ Hc) in Hg.
    injection Hg as <-. discriminate.
  - injection Hget as <-. unfold no_empty_slot in Hne.
    rewrite Forall_forall in Hne.
    apply (Hne (c, l)), ChannelFacts.ts_get_In, Hg.
Qed.

Lemma slot_of_ordered (c : Channel) (ts : TimeSlots) :
  slots_ordered ts ->
  timeslot_ordered (slot_of c ts) /\ ts_get c ts <> Some [].
Proof.
  intros Hord. unfold slots_ordered in Hord. rewrite Forall_forall in Hord.
  unfold slot_of. destruct (ts_get c ts) as [l|] eqn:E.
  - destruct (Hord (c, l) (ChannelFacts.ts_get_In _ _ _ E)) as [Hne Ho].
    split; [exact Ho|]. intros H. injection H as ->. apply Hne. reflexivity.
  - split; [split; constructor | discriminate].
Qed.

End RoundTripFacts.

(** X13.  When [_remove_timeslots] succeeds on a receiver with distinct
    channels, for a component with distinct channels, then every channel
    of the component was in the receiver and held each interval of the
    component moved by [time]; what is left on such a channel is the old
    list without these, and a channel left with nothing is dropped.  The
    other channels, the duration and the children are untouched. *)
Theorem remove_timeslots_content (time : Z) (schedule : ScheduleComponent)
  (self R : Schedule) :
  NoDup (component_channels schedule) -> distinct_channels self ->
  _remove_timeslots time schedule self = (R, Removed tt) ->
  distinct_channels R
  /\ (forall c, ~ In c (component_channels schedule) ->
                ts_get c (_timeslots R) = ts_get c (_timeslots self))
  /\ (forall c, In c (component_channels schedule) ->
        exists other_timeslots others l,
          _get_timeslots schedule = Ok other_timeslots
          /\ ts_get c other_timeslots = Some others
          /\ ts_get c (_timeslots self) = Some l
          /\ Permutation l
               (slot_of c (_timeslots R)
                ++ map (shift_interval time) others)
          /\ ts_get c (_timeslots R) <> Some [])
  /\ _duration R = _duration self
  /\ _children R = _children self.
Proof.
  intros Hnd Hkeys. unfold _remove_timeslots.
  destruct (remove_channels _ _ _ _) as [ts' r] eqn:Hrem.
  intros H. injection H as <- ->.
  destruct (RemovalFacts.remove_channels_content _ _ _ _ _ Hnd Hkeys Hrem)
    as (Hk & Hout & Hin).
  destruct self as [n m du ts ch].
  repeat split; assumption.
Qed.

Lemma remove_timeslots_content_witness :
  exists R,
    _remove_timeslots 20 (Inst (play 30 (DriveChannel 0)))
      (mkSchedule "s" [] 50
         [(DriveChannel 0, [(0, 10); (20, 50)]);
          (DriveChannel 1, [(0, 5)])] [])
    = (R, Removed tt)
    /\ ts_get (DriveChannel 1) (_timeslots R) = Some [(0, 5)]
    /\ _duration R = 50.
Proof.
  eexists. split; [reflexivity|].
  destruct (remove_timeslots_content 20 (Inst (play 30 (DriveChannel 0)))
              (mkSchedule "s" [] 50
                 [(DriveChannel 0, [(0, 10); (20, 50)]);
                  (DriveChannel 1, [(0, 5)])] []) _
              ltac:(repeat constructor; cbn; intros [])
              ltac:(repeat constructor; cbn; intuition discriminate)
              eq_refl)
    as (_ & Hout & _ & Hd & _).
  split; [|exact Hd]. rewrite Hout; [reflexivity|].
  cbn. intros [H|[]]. discriminate H.
Defined.

(** X14.  Removing a component right after its timeslots were added at the
    same time succeeds and gives every channel the list it had before the
    addition, a channel that was new being dropped again.  The duration is
    not taken back: it stays the larger of the old one and the component's
    stop. *)
Theorem add_then_remove_timeslots (time : Z) (schedule : ScheduleComponent)
  (self R : Schedule) :
  timeslots_ok self -> component_ok schedule ->
  match schedule with Sched s => no_empty_slot s | Inst _ => True end ->
  _add_timeslots time schedule self = (R, Ok tt) ->
  exists R2,
    _remove_timeslots time schedule R = (R2, Removed tt)
    /\ (forall c, ts_get c (_timeslots R2) = ts_get c (_timeslots self))
    /\ distinct_channels R2
    /\ _duration R2
       = Z.max (_duration self) (time + component_duration schedule)
    /\ _children R2 = _children self.
Proof.
  intros (Hkeys & Hord & _) Hcomp Hne. unfold _add_timeslots.
  destruct (_get_timeslots schedule) as [other|e] eqn:Hget; [|discriminate].
  destruct (add_channels _ _ _ _ _ _) as [ts' [[]|e]] eqn:Hadd;
    [|discriminate].
  intros H. injection H as <- _.
  destruct self as [n m du ts ch].
  cbn [set_duration set_timeslots _timeslots _name _duration _metadata
         _children] in *.
  unfold distinct_channels, channels in Hkeys. cbn [_timeslots] in Hkeys.
  pose proof (RoundTripFacts.component_lists schedule other Hcomp Hne Hget)
    as Hoth.
  destruct (InvariantFacts.add_channels_ordered _ _ _ _ _ _ _ Hoth Hkeys
              Hord Hadd) as [Hkeys' Hord'].
  destruct (ContentFacts.add_channels_content _ _ _ _ _ _ _ (proj1 Hcomp)
              Hadd) as [Hout Hin].
  destruct (RemovalFacts.remove_channels_ok time schedule other ts
              (component_channels schedule) ts' Hget (proj1 Hcomp) Hkeys')
    as (ts2 & Hrun & Hkeys2 & Hin2 & Hout2).
  { intros c Hc. destruct (Hin c Hc) as (others & l' & Ho & Hl & Hp).
    exists others, l'. split; [exact Ho|]. split; [exact Hl|].
    split.
    - unfold slots_ordered in Hord'. rewrite Forall_forall in Hord'.
      apply (Hord' (c, l') (ChannelFacts.ts_get_In _ _ _ Hl)).
    - split; [exact Hp|]. apply RoundTripFacts.slot_of_ordered, Hord. }
  unfold _remove_timeslots.
  cbn [set_duration set_timeslots _timeslots _name _duration _metadata
         _children].
  rewrite Hrun.
  eexists. split; [reflexivity|].
  cbn [set_timeslots _timeslots _name _duration _metadata _children].
  split; [|repeat split; assumption].
  intros c. destruct (chan_mem c (component_channels schedule)) eqn:E.
  - apply ChannelFacts.chan_mem_In in E. apply Hin2, E.
  - assert (Hc : ~ In c (component_channels schedule)).
    { intros Hc. apply ChannelFacts.chan_mem_In in Hc. congruence. }
    rewrite Hout2, Hout by exact Hc. reflexivity.
Qed.

Lemma add_then_remove_timeslots_witness :
  exists R R2,
    _add_timeslots 20 (Sched two_channel_schedule)
      (mkSchedule "s" [] 100 [(DriveChannel 0, [(0, 10); (60, 100)])] [])
    = (R, Ok tt)
    /\ _remove_timeslots 20 (Sched two_channel_schedule) R
       = (R2, Removed tt)
    /\ _timeslots R2 = [(DriveChannel 0, [(0, 10); (60, 100)])].
Proof.
  destruct (_add_timeslots 20 (Sched two_channel_schedule)
              (mkSchedule "s" [] 100
                 [(DriveChannel 0, [(0, 10); (60, 100)])] []))
    as [R [[]|e]] eqn:Hadd; [|vm_compute in Hadd; discriminate].
  destruct (add_then_remove_timeslots 20 (Sched two_channel_schedule)
              (mkSchedule "s" [] 100
                 [(DriveChannel 0, [(0, 10); (60, 100)])] []) R)
    as (R2 & H & _).
  - split; [|split].
    + repeat constructor. cbn. intros [].
    + repeat constructor; unfold wf_interval, before; cbn;
        try discriminate; lia.
    + intros c l iv [Hin|[]] Hiv. inversion Hin; subst.
      destruct Hiv as [<-|[<-|[]]]; cbn; lia.
  - split.
    + repeat constructor; cbn; intuition discriminate.
    + repeat constructor; unfold wf_interval; cbn; lia.
  - repeat constructor; cbn; discriminate.
  - exact Hadd.
  - exists R, R2. split; [reflexivity|]. split; [exact H|].
    vm_compute in Hadd. injection Hadd as <-.
    vm_compute in H. inversion H. reflexivity.
Defined.

(** ** The cached duration *)

Module DurationFacts.

Lemma stop_of_last (l : list Interval) (final : Interval) :
  last_interval l = Ok final -> stop_of l = snd final.
Proof.
  destruct l as [|i r]; [discriminate|]. cbn [last_interval].
  intros H. injection H as <-. unfold stop_of.
  rewrite (InsertFacts.last_default i (0, 0) i r).
  destruct r; reflexivity.
Qed.

Lemma stop_of_bound (l : list Interval) (iv : Interval) :
  timeslot_ordered l -> In iv l -> snd iv <= stop_of l.
Proof.
  intros Hord Hin. destruct l as [|i r]; [destruct Hin|].
  pose proof (InsertFacts.ordered_last_stop (i :: r) (last r i) Hord eq_refl)
    as H.
  rewrite Forall_forall in H.
  rewrite (stop_of_last (i :: r) (last r i) eq_refl).
  apply H, Hin.
Qed.

Lemma stop_of_in (l : list Interval) :
  l <> [] -> exists iv, In iv l /\ snd iv = stop_of l.
Proof.
  intros Hne. destruct (exists_last Hne) as (l' & a & ->).
  exists a. split; [apply in_or_app; right; left; reflexivity|].
  unfold stop_of. rewrite last_last. reflexivity.
Qed.

(** The largest last stop bounds every channel and is reached by one. *)
Lemma last_stop_max_spec (ts : TimeSlots) :
  ts <> [] ->
  (forall c l, In (c, l) ts -> stop_of l <= last_stop_max ts)
  /\ exists c l, In (c, l) ts /\ stop_of l = last_stop_max ts.
Proof.
  destruct ts as [|[c0 l0] ts]; [contradiction|]. intros _.
  unfold last_stop_max. cbn [map snd].
  fold (stop_of l0).
  set (r := map (fun entry : Channel * list Interval =>
                   snd (last (snd entry) (0, 0))) ts).
  destruct (AppendFacts.fold_max_spec r (stop_of l0)) as (H1 & H2 & H3).
  split.
  - intros c l [Heq|Hin].
    + injection Heq as <- <-. exact H2.
    + rewrite Forall_forall in H3. apply H3. unfold r.
      apply in_map_iff. exists (c, l). split; [reflexivity | exact Hin].
  - destruct H1 as [H1|H1].
    + exists c0, l0. split; [left; reflexivity | symmetry; exact H1].
    + unfold r in H1 at 2. apply in_map_iff in H1.
      destruct H1 as ([c l] & Heq & Hin). exists c, l.
      split; [right; exact Hin | exact Heq].
Qed.

Lemma last_stop_max_unique (ts : TimeSlots) (m : Z) :
  (forall c l, In (c, l) ts -> stop_of l <= m) ->
  (exists c l, In (c, l) ts /\ stop_of l = m) ->
  last_stop_max ts = m.
Proof.
  intros Hle (c & l & Hin & Heq).
  assert (Hne : ts <> []) by (intros ->; destruct Hin).
  destruct (last_stop_max_spec ts Hne) as (Hb & c' & l' & Hin' & Heq').
  specialize (Hb c l Hin). specialize (Hle c' l' Hin'). lia.
Qed.

Lemma In_ts_get (c : Channel) (l : list Interval) (ts : TimeSlots) :
  NoDup (map fst ts) -> In (c, l) ts -> ts_get c ts = Some l.
Proof.
  induction ts as [|[c0 l0] ts IH]; intros Hnd Hin; [destruct Hin|].
  cbn [map fst] in Hnd. apply NoDup_cons_iff in Hnd.
  destruct Hnd as [Hfresh Hnd]. cbn [ts_get].
  destruct Hin as [Heq|Hin].
  - injection Heq as -> ->. rewrite ChannelFacts.Channel_eqb_refl.
    reflexivity.
  - destruct (Channel_eqb c0 c) eqn:E; [|apply IH; assumption].
    apply ChannelFacts.Channel_eqb_eq in E. subst c0. exfalso.
    apply Hfresh. apply in_map_iff. exists (c, l).
    split; [reflexivity | exact Hin].
Qed.

Lemma In_ts_set (c ch : Channel) (l v : list Interval) (ts : TimeSlots) :
  In (c, l) (ts_set ch v ts) -> (c = ch /\ l = v) \/ In (c, l) ts.
Proof.
  induction ts as [|[c0 l0] ts IH]; cbn [ts_set].
  - intros [H|[]]. injection H as <- <-. left. split; reflexivity.
  - destruct (Channel_eqb c0 ch) eqn:E.
    + apply ChannelFacts.Channel_eqb_eq in E. subst c0.
      intros [H|H].
      * injection H as <- <-. left. split; reflexivity.
      * right. right. exact H.
    + intros [H|H]; [right; left; exact H|].
      destruct (IH H) as [H'|H']; [left; exact H' | right; right; exact H'].
Qed.

Lemma leaf_entries (v : list Interval) (chans : list Channel)
  (acc : TimeSlots) (c : Channel) (l : list Interval) :
  In (c, l) (fold_left (fun ts channel => ts_set channel v ts) chans acc) ->
  (In c chans /\ l = v) \/ In (c, l) acc.
Proof.
  revert acc. induction chans as [|ch chans IH]; intros acc H;
    [right; exact H|].
  cbn [fold_left] in H. destruct (IH _ H) as [[H1 H2]|H1].
  - left. split; [right; exact H1 | exact H2].
  - destruct (In_ts_set _ _ _ _ _ H1) as [[-> ->]|H2].
    + left. split; [left; reflexivity | reflexivity].
    + right. exact H2.
Qed.

Lemma leaf_keys (v : list Interval) (chans : list Channel) (acc : TimeSlots) :
  NoDup (map fst acc) ->
  NoDup (map fst
           (fold_left (fun ts channel => ts_set channel v ts) chans acc)).
Proof.
  revert acc. induction chans as [|ch chans IH]; intros acc H; [exact H|].
  cbn [fold_left]. apply IH, InvariantFacts.ts_set_NoDup, H.
Qed.

(** The timeslots of a component that has a channel: distinct keys, all
    among its channels, and its duration is their largest last stop. *)
Lemma component_timeslots (schedule : ScheduleComponent) (other : TimeSlots) :
  component_ok schedule -> component_timed schedule ->
  _get_timeslots schedule = Ok other ->
  NoDup (map fst other)
  /\ (forall c l, In (c, l) other -> In c (component_channels schedule))
  /\ other <> []
  /\ component_duration schedule = last_stop_max other.
Proof.
  intros [Hnd Hord] Htimed Hget.
  destruct schedule as [i|s]; cbn [_get_timeslots] in Hget.
  - unfold instruction_duration_validation in Hget.
    destruct (0 <=? inst_duration i); [|discriminate].
    cbn [bind] in Hget. injection Hget as <-.
    cbn [component_timed component_channels component_duration] in *.
    assert (Hent : forall c l,
               In (c, l)
                 (fold_left
                    (fun ts channel =>
                       ts_set channel [(0, inst_duration i)] ts)
                    (inst_channels i) []) ->
               In c (inst_channels i) /\ l = [(0, inst_duration i)]).
    { intros c l H. destruct (leaf_entries _ _ _ _ _ H) as [H'|[]].
      exact H'. }
    destruct (inst_channels i) as [|c0 chans] eqn:Hch; [contradiction|].
    assert (Hc0 : ts_get c0
                    (fold_left
                       (fun ts channel =>
                          ts_set channel [(0, inst_duration i)] ts)
                       (c0 :: chans) [])
                  = Some [(0, inst_duration i)])
      by (apply InsertFacts.leaf_timeslots_get; left; reflexivity).
    apply ChannelFacts.ts_get_In in Hc0.
    split; [apply leaf_keys; constructor|].
    split; [intros c l H; apply (Hent c l H)|].
    split; [intros E; rewrite E in Hc0; destruct Hc0|].
    symmetry. apply last_stop_max_unique.
    + intros c l H. destruct (Hent c l H) as [_ ->]. cbn. lia.
    + exists c0, [(0, inst_duration i)]. split; [exact Hc0 | reflexivity].
  - injection Hget as <-.
    cbn [component_timed component_channels component_duration] in *.
    destruct Htimed as [Hne Hd]. split; [exact Hnd|].
    split; [|split; [exact Hne | exact Hd]].
    intros c l H. unfold channels. apply in_map_iff.
    exists (c, l). split; [reflexivity | exact H].
Qed.

Lemma last_stop_max_nonneg (ts : TimeSlots) :
  slots_ordered ts ->
  (forall c l iv, In (c, l) ts -> In iv l -> 0 <= fst iv) ->
  0 <= last_stop_max ts.
Proof.
  intros Hord Hnn. destruct ts as [|e ts]; [cbn; lia|].
  destruct (last_stop_max_spec (e :: ts)) as (_ & c & l & Hin & <-);
    [discriminate|].
  unfold slots_ordered in Hord. rewrite Forall_forall in Hord.
  destruct (Hord (c, l) Hin) as [Hne [Hwf _]]. cbn [snd] in *.
  destruct (stop_of_in l Hne) as (iv & Hiv & <-).
  rewrite Forall_forall in Hwf. specialize (Hwf iv Hiv).
  specialize (Hnn c l iv Hin Hiv). unfold wf_interval in Hwf. lia.
Qed.

(** The largest last stop after the loop of [_add_timeslots]. *)
Lemma add_channels_last_stop (time : Z) (new old : string)
  (other : TimeSlots) (chans : list Channel) (ts ts' : TimeSlots) :
  NoDup (map fst ts) -> slots_ordered ts -> NoDup chans -> chans <> [] ->
  NoDup (map fst other) ->
  (forall c l, In (c, l) other -> In c chans) -> other <> [] ->
  (forall c l, In c chans -> ts_get c other = Some l ->
               l <> [] /\ timeslot_ordered l) ->
  add_channels time new old other chans ts = (ts', Ok tt) ->
  _check_nonnegative_timeslot ts' = Ok tt ->
  last_stop_max ts'
  = Z.max (last_stop_max ts) (time + last_stop_max other).
Proof.
  intros Hkeys Hord Hnd Hchans Hokeys Hsub Hone Hoth Hadd Hchk.
  destruct (InvariantFacts.add_channels_ordered _ _ _ _ _ _ _ Hoth Hkeys
              Hord Hadd) as [Hkeys' Hord'].
  destruct (ContentFacts.add_channels_content _ _ _ _ _ _ _ Hnd Hadd)
    as [Hout Hin].
  pose proof (InvariantFacts.checked_starts_nonneg ts' Hord' Hchk) as Hnn.
  pose proof Hord as Hord0. pose proof Hord' as Hord1.
  unfold slots_ordered in Hord, Hord'. rewrite Forall_forall in Hord, Hord'.
  assert (Hslot : forall c iv,
             In iv (slot_of c ts) ->
             exists l, ts_get c ts = Some l /\ In iv l).
  { intros c iv. unfold slot_of.
    destruct (ts_get c ts) as [l|]; [|intros []].
    intros H. exists l. split; [reflexivity | exact H]. }
  assert (Hbound : forall c l, In (c, l) ts' ->
                     stop_of l
                     <= Z.max (last_stop_max ts)
                          (time + last_stop_max other)).
  { intros c l' Hcl. pose proof (In_ts_get c l' ts' Hkeys' Hcl) as Hget.
    destruct (chan_mem c chans) eqn:E.
    - apply ChannelFacts.chan_mem_In in E.
      destruct (Hin c E) as (others & l'' & Ho & Hl & Hp).
      rewrite Hget in Hl. injection Hl as <-.
      destruct (Hord' (c, l') Hcl) as [Hne _]. cbn [snd] in Hne.
      destruct (stop_of_in l' Hne) as (iv & Hiv & <-).
      apply (Permutation_in _ Hp), in_app_or in Hiv.
      destruct Hiv as [Hiv|Hiv].
      + destruct (Hslot c iv Hiv) as (l & Hg & Hil).
        apply ChannelFacts.ts_get_In in Hg.
        assert (Hts : ts <> []) by (intros ->; destruct Hg).
        destruct (last_stop_max_spec ts Hts) as [Hb _].
        specialize (Hb c l Hg).
        pose proof (stop_of_bound l iv (proj2 (Hord (c, l) Hg)) Hil). lia.
      + apply in_map_iff in Hiv. destruct Hiv as (iv0 & <- & Hiv0).
        destruct (Hoth c others E Ho) as [_ Hoo].
        apply ChannelFacts.ts_get_In in Ho.
        destruct (last_stop_max_spec other Hone) as [Hb _].
        specialize (Hb c others Ho).
        pose proof (stop_of_bound others iv0 Hoo Hiv0).
        cbn [shift_interval snd]. lia.
    - assert (Hc : ~ In c chans).
      { intros Hc. apply ChannelFacts.chan_mem_In in Hc. congruence. }
      rewrite (Hout c Hc) in Hget. apply ChannelFacts.ts_get_In in Hget.
      assert (Hts : ts <> []) by (intros ->; destruct Hget).
      destruct (last_stop_max_spec ts Hts) as [Hb _].
      specialize (Hb c l' Hget). lia. }
  apply last_stop_max_unique; [exact Hbound|].
  assert (Hreach : forall c l' iv,
             ts_get c ts' = Some l' -> In iv l' ->
             Z.max (last_stop_max ts) (time + last_stop_max other) <= snd iv ->
             exists c l, In (c, l) ts'
                         /\ stop_of l
                            = Z.max (last_stop_max ts)
                                (time + last_stop_max other)).
  { intros c l' iv Hg Hiv Hle. apply ChannelFacts.ts_get_In in Hg.
    exists c, l'. split; [exact Hg|].
    pose proof (Hbound c l' Hg).
    pose proof (stop_of_bound l' iv (proj2 (Hord' (c, l') Hg)) Hiv). lia. }
  destruct (Z.max_spec (last_stop_max ts) (time + last_stop_max other))
    as [[Hlt HM]|[Hge HM]].
  - destruct (last_stop_max_spec other Hone) as (_ & c & others & Hco & Hs).
    pose proof (Hsub c others Hco) as Hc.
    pose proof (In_ts_get c others other Hokeys Hco) as Hgo.
    destruct (Hin c Hc) as (others' & l' & Ho & Hl & Hp).
    rewrite Hgo in Ho. injection Ho as <-.
    destruct (Hoth c others Hc Hgo) as [Hne _].
    destruct (stop_of_in others Hne) as (iv0 & Hiv0 & Hs0).
    apply (Hreach c l' (shift_interval time iv0) Hl).
    + apply (Permutation_in _ (Permutation_sym Hp)), in_or_app. right.
      apply in_map, Hiv0.
    + cbn [shift_interval snd]. lia.
  - assert (Hcase : ts = [] \/ ts <> [])
      by (destruct ts; [left; reflexivity | right; discriminate]).
    destruct Hcase as [->|Hts].
    + destruct chans as [|c0 chans0]; [contradiction|].
      destruct (Hin c0 (or_introl eq_refl)) as (others & l' & Ho & Hl & Hp).
      pose proof (ChannelFacts.ts_get_In _ _ _ Hl) as Hcl.
      destruct (Hord' (c0, l') Hcl) as [Hne [Hwf _]]. cbn [snd] in *.
      destruct (stop_of_in l' Hne) as (iv & Hiv & Hs).
      apply (Hreach c0 l' iv Hl Hiv).
      rewrite Forall_forall in Hwf. specialize (Hwf iv Hiv).
      specialize (Hnn c0 l' iv Hcl Hiv). unfold wf_interval in Hwf.
      rewrite HM. cbn. lia.
    + destruct (last_stop_max_spec ts Hts) as (_ & c & l & Hcl & Hs).
      pose proof (In_ts_get c l ts Hkeys Hcl) as Hg.
      destruct (Hord (c, l) Hcl) as [Hne _]. cbn [snd] in Hne.
      destruct (stop_of_in l Hne) as (iv & Hiv & Hs0).
      destruct (chan_mem c chans) eqn:E.
      * apply ChannelFacts.chan_mem_In in E.
        destruct (Hin c E) as (others & l' & Ho & Hl & Hp).
        apply (Hreach c l' iv Hl); [|lia].
        apply (Permutation_in _ (Permutation_sym Hp)), in_or_app. left.
        unfold slot_of. rewrite Hg. exact Hiv.
      * assert (Hc : ~ In c chans).
        { intros Hc. apply ChannelFacts.chan_mem_In in Hc. congruence. }
        apply (Hreach c l iv); [|exact Hiv | lia].
        rewrite (Hout c Hc). exact Hg.
Qed.

(** The largest last stop after the statements that end
    [_mutable_insert]. *)
Lemma insert_tail_last_stop (time : Z) (schedule : ScheduleComponent)
  (self R R' : Schedule) :
  distinct_channels self -> slots_ordered (_timeslots self) ->
  component_ok schedule ->
  match schedule with Sched s => no_empty_slot s | Inst _ => True end ->
  component_timed schedule ->
  insert_tail time schedule self = (R, Ok R') ->
  last_stop_max (_timeslots R')
  = Z.max (last_stop_max (_timeslots self))
      (time + component_duration schedule).
Proof.
  intros Hkeys Hord Hcomp Hne Htimed. unfold insert_tail, _add_timeslots.
  destruct (_get_timeslots schedule) as [other|e] eqn:Hget; [|discriminate].
  destruct (add_channels _ _ _ _ _ _) as [ts' [[]|e]] eqn:Hadd;
    [|discriminate].
  destruct (_check_nonnegative_timeslot ts') as [[]|e] eqn:Hchk;
    [|discriminate].
  intros H. injection H as _ <-.
  destruct self as [n m du ts ch].
  cbn [set_duration set_timeslots set_children _timeslots _name _duration
         _metadata _children] in *.
  destruct (component_timeslots schedule other Hcomp Htimed Hget)
    as (Hokeys & Hsub & Hone & ->).
  apply (add_channels_last_stop time (component_name schedule) n other
           (component_channels schedule) ts ts'); try assumption.
  - apply Hcomp.
  - destruct other as [|[c l] other]; [contradiction|].
    intros E. specialize (Hsub c l (or_introl eq_refl)).
    rewrite E in Hsub. destruct Hsub.
  - apply (RoundTripFacts.component_lists schedule other Hcomp Hne Hget).
Qed.

End DurationFacts.

(** X15.  When the cached duration of the receiver is its largest last
    stop, a successful insertion, in place or not and outside the
    channel-merging branch, of a component that has a channel and whose own
    duration is its largest last stop returns a schedule whose cached
    duration is again its largest last stop. *)
Theorem insert_keeps_duration
  (merge : Schedule -> Z -> Schedule -> result (Schedule * Schedule))
  (time : Z) (schedule : ScheduleComponent) (name : option string)
  (inplace : bool) (self R R' : Schedule) :
  timeslots_ok self -> duration_is_last_stop self ->
  component_ok schedule ->
  match schedule with Sched s => no_empty_slot s | Inst _ => True end ->
  component_timed schedule ->
  dp_merge_applies self schedule = false ->
  insert merge time schedule name inplace self = (R, Ok R') ->
  duration_is_last_stop R'
  /\ duration R' = Z.max (duration self) (time + component_duration schedule).
Proof.
  intros Hok Hdur Hcomp Hne Htimed Hdp H.
  destruct (ShapeFacts.insert_ok_shape merge _ _ _ _ _ _ _
              (fun _ => Hok) Hdp H)
    as (_ & _ & Hd & _ & S & HS & Hins).
  assert (HdpS : dp_merge_applies S schedule = false).
  { unfold dp_merge_applies, channels in *. rewrite HS. exact Hdp. }
  cbn [insert] in Hins. unfold _mutable_insert in Hins.
  rewrite HdpS in Hins.
  destruct Hok as (Hkeys & Hord & Hnn).
  assert (Hlast : last_stop_max (_timeslots R')
                  = Z.max (last_stop_max (_timeslots self))
                      (time + component_duration schedule)).
  { rewrite <- HS.
    apply (DurationFacts.insert_tail_last_stop time schedule S R' R');
      try assumption.
    - unfold distinct_channels, channels in *. rewrite HS. exact Hkeys.
    - rewrite HS. exact Hord. }
  assert (Hpos : 0 <= last_stop_max (_timeslots self)).
  { apply DurationFacts.last_stop_max_nonneg; [exact Hord|].
    intros c l iv Hin Hiv. specialize (Hnn c l iv Hin Hiv). lia. }
  unfold duration_is_last_stop, duration in *.
  rewrite Hlast, Hd, <- Hdur. rewrite <- Hdur in Hpos.
  destruct inplace; split; lia.
Qed.

Lemma insert_keeps_duration_witness :
  exists R',
    insert (fun _ _ _ => Raise KeyError) 120
      (Sched two_channel_schedule) None false
      (single_play 100 (DriveChannel 0))
    = (single_play 100 (DriveChannel 0), Ok R')
    /\ duration R' = 130 /\ duration_is_last_stop R'.
Proof.
  destruct (insert (fun _ _ _ => Raise KeyError) 120
              (Sched two_channel_schedule) None false
              (single_play 100 (DriveChannel 0))) as [R [R'|e]] eqn:H;
    [|vm_compute in H; discriminate].
  destruct (insert_keeps_duration (fun _ _ _ => Raise KeyError) 120
              (Sched two_channel_schedule) None false
              (single_play 100 (DriveChannel 0)) R R') as [Hdur Hd].
  - split; [|split].
    + repeat constructor. cbn. intros [].
    + repeat constructor; cbn; discriminate.
    + intros c l iv [Hin|[]] Hiv. inversion Hin; subst.
      destruct Hiv as [<-|[]]. cbn. lia.
  - reflexivity.
  - split.
    + repeat constructor; cbn; intuition discriminate.
    + repeat constructor; unfold wf_interval; cbn; lia.
  - repeat constructor; cbn; discriminate.
  - split; [discriminate | reflexivity].
  - reflexivity.
  - exact H.
  - exists R'. split; [|split; [exact Hd | exact Hdur]].
    vm_compute in H. inversion H. reflexivity.
Defined.

(** X16.  Inserting in place a schedule that has no timeslots at a time
    past the receiver's duration succeeds, leaves the timeslots as they
    were and sets the cached duration to that time: a receiver whose
    duration was its largest last stop no longer has that property. *)
Theorem insert_empty_stretches_duration
  (merge : Schedule -> Z -> Schedule -> result (Schedule * Schedule))
  (time : Z) (empty : Schedule) (name : option string) (self : Schedule) :
  _timeslots empty = [] -> _duration empty = 0 ->
  starts_nonneg_after self 0 -> duration_is_last_stop self ->
  duration self < time ->
  exists R,
    insert merge time (Sched empty) name true self = (R, Ok R)
    /\ _timeslots R = _timeslots self
    /\ _children R = _children self ++ [(time, Sched empty)]
    /\ duration R = time
    /\ ~ duration_is_last_stop R.
Proof.
  intros Hts Hd Hnn Hdur Hlt. cbn [insert]. unfold _mutable_insert.
  assert (Hdp : dp_merge_applies self (Sched empty) = false).
  { unfold dp_merge_applies, channels. rewrite Hts. reflexivity. }
  rewrite Hdp. unfold insert_tail, _add_timeslots.
  cbn [_get_timeslots component_channels component_duration bind].
  unfold channels, duration. rewrite Hts, Hd. cbn [map add_channels].
  destruct self as [n m du ts ch].
  cbn [set_duration set_timeslots set_children _timeslots _name _duration
         _metadata _children duration] in *.
  rewrite ShiftFacts.check_nonnegative_ok.
  - eexists. split; [reflexivity|].
    unfold duration_is_last_stop, duration in *.
    cbn [set_duration set_timeslots set_children _timeslots _name _duration
           _metadata _children] in *.
    repeat split; lia.
  - intros c l iv Hin Hiv. specialize (Hnn c l iv Hin Hiv). lia.
Qed.

Lemma insert_empty_stretches_duration_witness :
  exists R,
    insert (fun _ _ _ => Raise KeyError) 150
      (Sched (empty_schedule "e" [])) None true
      (single_play 100 (DriveChannel 0)) = (R, Ok R)
    /\ duration R = 150
    /\ _timeslots R = [(DriveChannel 0, [(0, 100)])].
Proof.
  destruct (insert_empty_stretches_duration (fun _ _ _ => Raise KeyError)
              150 (empty_schedule "e" []) None
              (single_play 100 (DriveChannel 0)))
    as (R & H & Ht & _ & Hd & _).
  - reflexivity.
  - reflexivity.
  - intros c l iv [Hin|[]] Hiv. inversion Hin; subst.
    destruct Hiv as [<-|[]]. cbn. lia.
  - reflexivity.
  - cbn. lia.
  - exists R. split; [exact H|]. split; [exact Hd | exact Ht].
Defined.

(** ** Renewing the timeslots *)

Module RenewFacts.

(** [_add_timeslots] writes neither name, metadata nor children, and never
    lowers the duration, whatever its outcome. *)
Lemma add_timeslots_frame (time : Z) (schedule : ScheduleComponent)
  (self S : Schedule) (r : result unit) :
  _add_timeslots time schedule self = (S, r) ->
  _duration self <= _duration S /\ _children S = _children self
  /\ _name S = _name self /\ _metadata S = _metadata self.
Proof.
  unfold _add_timeslots.
  destruct (_get_timeslots schedule) as [other|e].
  - destruct (add_channels _ _ _ _ _ _) as [ts' [[]|e]];
      intros H; injection H as <- _; destruct self as [n m du ts ch];
      cbn; repeat split; lia.
  - intros H. injection H as <- _. repeat split. lia.
Qed.

Lemma add_all_frame (K : list (Z * Instruction)) (self S : Schedule)
  (r : result unit) :
  add_all_timeslots K self = (S, r) ->
  _duration self <= _duration S /\ _children S = _children self
  /\ _name S = _name self /\ _metadata S = _metadata self.
Proof.
  revert self. induction K as [|[t0 inst] K IH]; intros self H.
  - cbn in H. injection H as <- _. repeat split. lia.
  - cbn [add_all_timeslots] in H.
    destruct (_add_timeslots t0 (Inst inst) self) as [S1 [[]|e]] eqn:H1;
      apply add_timeslots_frame in H1; destruct H1 as (Hd & Hc & Hn & Hm).
    + apply IH in H. destruct H as (Hd' & Hc' & Hn' & Hm').
      repeat split; [lia | congruence | congruence | congruence].
    + injection H as <- _. repeat split; assumption.
Qed.

(** A successful [_add_timeslots] keeps the timeslots as the module keeps
    them. *)
Lemma add_timeslots_ok (time : Z) (schedule : ScheduleComponent)
  (self R : Schedule) :
  timeslots_ok self -> component_ok schedule ->
  match schedule with Sched s => no_empty_slot s | Inst _ => True end ->
  _add_timeslots time schedule self = (R, Ok tt) ->
  timeslots_ok R.
Proof.
  intros (Hnd & Hord & _) Hcomp Hne. unfold _add_timeslots.
  destruct (_get_timeslots schedule) as [other|e] eqn:Hget; [|discriminate].
  destruct (add_channels _ _ _ _ _ _) as [ts' [[]|e]] eqn:Hadd;
    [|discriminate].
  intros H. injection H as <- Hchk.
  destruct self as [n m du ts ch].
  cbn [set_duration set_timeslots set_children _timeslots _name _duration
         _metadata _children] in *.
  destruct (InvariantFacts.add_channels_ordered _ _ _ _ _ _ _
              (RoundTripFacts.component_lists schedule other Hcomp Hne Hget)
              Hnd Hord Hadd) as [Hnd' Hord'].
  split; [exact Hnd'|]. split; [exact Hord'|].
  intros c l iv Hin Hiv. cbn [_timeslots] in Hin.
  pose proof (InvariantFacts.checked_starts_nonneg ts' Hord' Hchk c l iv
                Hin Hiv). lia.
Qed.

(** The lists after a successful [_add_timeslots] of a leaf. *)
Lemma add_leaf_slots (t0 : Z) (inst : Instruction) (self R : Schedule) :
  NoDup (inst_channels inst) ->
  _add_timeslots t0 (Inst inst) self = (R, Ok tt) ->
  forall c,
    Permutation (slot_of c (_timeslots R))
      (slot_of c (_timeslots self) ++ leaf_intervals c [(t0, inst)]).
Proof.
  intros Hnd. unfold _add_timeslots.
  destruct (_get_timeslots (Inst inst)) as [other|e] eqn:Hget;
    [|discriminate].
  destruct (add_channels _ _ _ _ _ _) as [ts' [[]|e]] eqn:Hadd;
    [|discriminate].
  intros H. injection H as <- _. intros c.
  destruct self as [n m du ts ch].
  cbn [set_duration set_timeslots _timeslots _name _duration _metadata
         _children component_channels] in *.
  destruct (ContentFacts.add_channels_content _ _ _ _ _ _ _ Hnd Hadd)
    as [Hout Hin].
  unfold leaf_intervals. cbn [flat_map fst snd]. rewrite app_nil_r.
  destruct (chan_mem c (inst_channels inst)) eqn:E.
  - apply ChannelFacts.chan_mem_In in E.
    destruct (Hin c E) as (others & l' & Ho & Hl & Hp).
    cbn [_get_timeslots] in Hget.
    unfold instruction_duration_validation in Hget.
    destruct (0 <=? inst_duration inst); [|discriminate].
    cbn [bind] in Hget. injection Hget as <-.
    rewrite (InsertFacts.leaf_timeslots_get _ _ _ _ E) in Ho.
    injection Ho as <-. unfold slot_of at 1. rewrite Hl. exact Hp.
  - assert (Hc : ~ In c (inst_channels inst)).
    { intros Hc. apply ChannelFacts.chan_mem_In in Hc. congruence. }
    unfold slot_of. rewrite (Hout c Hc), app_nil_r. reflexivity.
Qed.

(** The loop of [_renew_timeslots] when it runs to its end. *)
Lemma add_all_content (K : list (Z * Instruction)) (self R : Schedule) :
  timeslots_ok self ->
  (forall p, In p K -> NoDup (inst_channels (snd p))) ->
  add_all_timeslots K self = (R, Ok tt) ->
  timeslots_ok R
  /\ (forall c,
        Permutation (slot_of c (_timeslots R))
          (slot_of c (_timeslots self) ++ leaf_intervals c K))
  /\ _duration R
     = fold_left Z.max
         (map (fun p : Z * Instruction => fst p + inst_duration (snd p)) K)
         (_duration self).
Proof.
  revert self. induction K as [|[t0 inst] K IH]; intros self Hok Hnd H.
  - cbn in H. injection H as <-. split; [exact Hok|].
    split; [|reflexivity]. intros c. cbn. rewrite app_nil_r. reflexivity.
  - cbn [add_all_timeslots] in H.
    destruct (_add_timeslots t0 (Inst inst) self) as [S1 [[]|e]] eqn:H1;
      [|discriminate].
    assert (Hi : NoDup (inst_channels inst))
      by (apply (Hnd (t0, inst)); left; reflexivity).
    assert (Hok1 : timeslots_ok S1).
    { apply (add_timeslots_ok t0 (Inst inst) self S1 Hok); [|exact I|exact H1].
      split; [exact Hi | exact I]. }
    destruct (IH S1 Hok1 (fun p Hp => Hnd p (or_intror Hp)) H)
      as (HokR & Hcont & Hdur).
    split; [exact HokR|]. split.
    + intros c. rewrite (Hcont c), (add_leaf_slots t0 inst self S1 Hi H1 c).
      rewrite <- app_assoc. apply Permutation_app_head.
      unfold leaf_intervals. cbn [flat_map]. rewrite app_nil_r.
      reflexivity.
    + rewrite Hdur. cbn [map fold_left fst snd]. f_equal.
      unfold _add_timeslots in H1. cbn [_get_timeslots] in H1.
      unfold instruction_duration_validation in H1.
      destruct (0 <=? inst_duration inst); [|discriminate].
      cbn [bind] in H1.
      destruct (add_channels _ _ _ _ _ _) as [ts' [[]|e]];
        [|discriminate].
      injection H1 as <- _. destruct self. reflexivity.
Qed.

(** The loop succeeds on leaves that do not collide. *)
Lemma add_all_leaves (K : list (Z * Instruction)) (self : Schedule) :
  Forall leaf_ok K -> leaves_disjoint K ->
  Forall (slot_ready K) (_timeslots self) ->
  exists R, add_all_timeslots K self = (R, Ok tt).
Proof.
  revert self. induction K as [|p K IH]; intros self Hok Hdis Hready.
  - exists self. reflexivity.
  - apply Forall_cons_iff in Hok. destruct Hok as [Hp Hok].
    destruct (FilterFacts.insert_next_leaf (fun _ _ _ => Raise KeyError)
                p K self Hp Hdis Hready) as (S1 & H1 & Hready1 & _).
    destruct p as [t0 inst]. cbn [fst snd] in H1.
    cbn [insert] in H1. unfold _mutable_insert in H1.
    cbn [dp_merge_applies] in H1. unfold insert_tail in H1.
    cbn [add_all_timeslots].
    destruct (_add_timeslots t0 (Inst inst) self) as [S2 [[]|e]];
      [|discriminate].
    injection H1 as <-. cbn [set_children _timeslots] in Hready1.
    apply (IH S2 Hok (proj2 Hdis)).
    destruct S2. exact Hready1.
Qed.

(** [_renew_timeslots] on a schedule whose leaves do not collide. *)
Lemma renew_ok (self : Schedule) :
  flat_consistent self ->
  exists R,
    _renew_timeslots self = (R, Ok tt)
    /\ timeslots_ok R
    /\ (forall c,
          Permutation (slot_of c (_timeslots R))
            (leaf_intervals c (instructions self)))
    /\ _children R = _children self
    /\ _duration R
       = fold_left Z.max
           (map (fun p : Z * Instruction => fst p + inst_duration (snd p))
              (instructions self))
           (_duration self).
Proof.
  intros [Hleaf Hdis]. unfold _renew_timeslots.
  assert (Hins : instructions (set_timeslots self []) = instructions self)
    by (destruct self; reflexivity).
  rewrite Hins.
  destruct (add_all_leaves (instructions self) (set_timeslots self []))
    as (R & HR); [exact Hleaf | exact Hdis | constructor |].
  exists R. split; [exact HR|].
  destruct (add_all_content (instructions self) (set_timeslots self []) R)
    as (Hok & Hcont & Hdur); [| |exact HR|].
  - split; [constructor|]. split; [constructor|]. intros c l iv [].
  - intros p Hp. rewrite Forall_forall in Hleaf. apply (Hleaf p Hp).
  - split; [exact Hok|]. split; [exact Hcont|].
    destruct (add_all_frame _ _ _ _ HR) as (_ & Hch & _).
    split; [rewrite Hch; destruct self; reflexivity|].
    rewrite Hdur. destruct self. reflexivity.
Qed.

End RenewFacts.

(** X17.  On a schedule whose time-ordered leaves do not collide,
    [_renew_timeslots] succeeds and leaves timeslots as the module keeps
    them, in which every channel holds exactly the intervals of the leaves
    on it; the children are untouched, and the duration is the largest of
    the old one and the leaves' stops, so it is never lowered. *)
Theorem renew_rebuilds_timeslots (self : Schedule) :
  flat_consistent self ->
  exists R,
    _renew_timeslots self = (R, Ok tt)
    /\ timeslots_ok R
    /\ (forall c,
          Permutation (slot_of c (_timeslots R))
            (leaf_intervals c (instructions self)))
    /\ _children R = _children self
    /\ _duration R
       = fold_left Z.max
           (map (fun p : Z * Instruction => fst p + inst_duration (snd p))
              (instructions self))
           (_duration self).
Proof.
  apply RenewFacts.renew_ok.
Qed.

Lemma renew_rebuilds_timeslots_witness :
  exists R,
    _renew_timeslots
      (mkSchedule "s" [] 60 [(DriveChannel 3, [(0, 60)])]
         [(20, Inst (play 10 (DriveChannel 0)));
          (0, Inst (play 10 (DriveChannel 0)))]) = (R, Ok tt)
    /\ _timeslots R = [(DriveChannel 0, [(0, 10); (20, 30)])]
    /\ _duration R = 60.
Proof.
  destruct (renew_rebuilds_timeslots
              (mkSchedule "s" [] 60 [(DriveChannel 3, [(0, 60)])]
                 [(20, Inst (play 10 (DriveChannel 0)));
                  (0, Inst (play 10 (DriveChannel 0)))]))
    as (R & H & _).
  - unfold flat_consistent.
    change (instructions _)
      with [(0, play 10 (DriveChannel 0)); (20, play 10 (DriveChannel 0))].
    split.
    + repeat constructor; cbn; try lia; intros [].
    + cbn. split; [|split; [constructor | exact I]].
      constructor; [|constructor]. intros c _ _. cbn. lia.
  - exists R. split; [exact H|].
    vm_compute in H. inversion H. split; reflexivity.
Defined.

(** X18.  An in-place [replace] puts the new children in place and never
    lowers the cached duration, also when it raises; what it returns is
    the receiver.  When the leaves of the new children do not collide it
    succeeds, and every channel then holds exactly the intervals of the
    leaves on it. *)
Theorem replace_in_place_spec
  (merge : Schedule -> Z -> Schedule -> result (Schedule * Schedule))
  (old new : ScheduleComponent) (self : Schedule) :
  _children (fst (replace merge old new true self))
  = replaced_children old new self
  /\ _duration self <= _duration (fst (replace merge old new true self))
  /\ (forall R, snd (replace merge old new true self) = Ok R ->
                R = fst (replace merge old new true self))
  /\ (flat_consistent (set_children self (replaced_children old new self)) ->
      exists R,
        replace merge old new true self = (R, Ok R)
        /\ timeslots_ok R
        /\ forall c,
             Permutation (slot_of c (_timeslots R))
               (leaf_intervals c (instructions R))).
Proof.
  unfold replace. fold (replaced_children old new self).
  set (self1 := set_children self (replaced_children old new self)).
  destruct (_renew_timeslots self1) as [R r] eqn:H.
  assert (Hframe : _duration self1 <= _duration R
                   /\ _children R = _children self1).
  { unfold _renew_timeslots in H.
    destruct (RenewFacts.add_all_frame _ _ _ _ H) as (Hd & Hc & _).
    split; [|rewrite Hc]; destruct self; cbn in *; [lia | reflexivity]. }
  destruct Hframe as [Hd Hc].
  assert (Hself : _duration self1 = _duration self
                  /\ _children self1 = replaced_children old new self)
    by (destruct self; split; reflexivity).
  destruct Hself as [Hd1 Hc1].
  split; [|split; [|split]].
  - destruct r; cbn [fst]; congruence.
  - destruct r; cbn [fst]; lia.
  - destruct r; cbn [fst snd]; [|discriminate].
    intros R' E. injection E as <-. reflexivity.
  - intros Hflat.
    destruct (RenewFacts.renew_ok self1 Hflat)
      as (R0 & HR0 & Hok & Hcont & Hch & _).
    rewrite HR0 in H. injection H as <- <-.
    exists R0. split; [reflexivity|]. split; [exact Hok|].
    intros c. rewrite (Hcont c).
    assert (E : instructions R0 = instructions self1).
    { unfold instructions. destruct R0, self1. cbn [_children] in Hch.
      subst. reflexivity. }
    rewrite E. reflexivity.
Qed.

Lemma replace_in_place_spec_witness :
  exists R,
    replace (fun _ _ _ => Raise KeyError)
      (Inst (play 100 (DriveChannel 0))) (Inst (play 50 (DriveChannel 0)))
      true (single_play 100 (DriveChannel 0)) = (R, Ok R)
    /\ timeslots_ok R.
Proof.
  destruct (proj2 (proj2 (proj2 (replace_in_place_spec
                                   (fun _ _ _ => Raise KeyError)
                                   (Inst (play 100 (DriveChannel 0)))
                                   (Inst (play 50 (DriveChannel 0)))
                                   (single_play 100 (DriveChannel 0))))))
    as (R & H & Hok & _).
  - unfold flat_consistent.
    change (instructions _) with [(0, play 50 (DriveChannel 0))].
    split.
    + repeat constructor; cbn; try lia; intros [].
    + cbn. repeat split; repeat constructor.
  - exists R. split; [exact H | exact Hok].
Defined.

(** ** Start and stop times over channels *)

Module TimeFacts.

Lemma fold_min_spec (r : list Z) (x : Z) :
  (fold_left Z.min r x = x \/ In (fold_left Z.min r x) r)
  /\ fold_left Z.min r x <= x
  /\ Forall (fun v => fold_left Z.min r x <= v) r.
Proof.
  revert x. induction r as [|y r IH]; intros x; cbn [fold_left].
  - repeat split; [left; reflexivity | lia | constructor].
  - destruct (IH (Z.min x y)) as (H1 & H2 & H3). repeat split.
    + destruct H1 as [H1|H1]; [|right; right; exact H1].
      rewrite H1. destruct (Z.min_spec x y) as [[_ ->]|[_ ->]];
        [left; reflexivity | right; left; reflexivity].
    + lia.
    + constructor; [lia | exact H3].
Qed.

Lemma py_min_spec (l : list Z) (m : Z) :
  py_min l = Ok m -> In m l /\ Forall (fun v => m <= v) l.
Proof.
  destruct l as [|x r]; [discriminate|]. cbn [py_min].
  intros H. injection H as <-.
  destruct (fold_min_spec r x) as (H1 & H2 & H3). split.
  - destruct H1 as [->|H1]; [left; reflexivity | right; exact H1].
  - constructor; assumption.
Qed.

(** The first starts gathered by [ch_start_time]. *)
Lemma first_starts_spec (self : Schedule) (chans : list Channel) :
  no_empty_slot self ->
  exists vs,
    first_starts (_timeslots self) chans = Ok vs
    /\ forall v, In v vs <->
                 exists c first rest,
                   In c chans
                   /\ ts_get c (_timeslots self) = Some (first :: rest)
                   /\ fst first = v.
Proof.
  intros Hne. induction chans as [|c chans (vs & Hvs & Hin)].
  - exists []. split; [reflexivity|]. intros v. split; [intros []|].
    intros (c & _ & _ & [] & _).
  - cbn [first_starts].
    destruct (ts_get c (_timeslots self)) as [l|] eqn:Hg.
    + pose proof (ChannelFacts.ts_get_In _ _ _ Hg) as Hl.
      unfold no_empty_slot in Hne. rewrite Forall_forall in Hne.
      specialize (Hne _ Hl). cbn [snd] in Hne.
      destruct l as [|i l]; [exfalso; apply Hne; reflexivity|].
      rewrite Hvs. cbn [bind].
      eexists. split; [reflexivity|]. intros v. cbn [In]. rewrite Hin.
      split.
      * intros [<-|(c' & f & r & Hc' & Hs)].
        -- exists c, i, l. repeat split; [left; reflexivity | exact Hg].
        -- exists c', f, r. split; [right; exact Hc' | exact Hs].
      * intros (c' & f & r & [<-|Hc'] & Hg' & Hv).
        -- left. rewrite Hg in Hg'. injection Hg' as <- _. exact Hv.
        -- right. exists c', f, r. repeat split; assumption.
    + exists vs. split; [exact Hvs|]. intros v. rewrite Hin. split.
      * intros (c' & f & r & Hc' & Hs).
        exists c', f, r. split; [right; exact Hc' | exact Hs].
      * intros (c' & f & r & [<-|Hc'] & Hg' & Hv).
        -- rewrite Hg in Hg'. discriminate.
        -- exists c', f, r. repeat split; assumption.
Qed.

(** A supplied channel recorded with an empty list makes both generators
    raise [IndexError]. *)
Lemma empty_slot_raises (ts : TimeSlots) (chans : list Channel) :
  (exists c, In c chans /\ ts_get c ts = Some []) ->
  first_starts ts chans = Raise IndexError
  /\ last_stops ts chans = Raise IndexError.
Proof.
  induction chans as [|c chans IH]; intros (c0 & Hin & Hg);
    [destruct Hin|].
  cbn [first_starts last_stops].
  destruct Hin as [<-|Hin].
  - rewrite Hg. split; reflexivity.
  - destruct (IH (ex_intro _ c0 (conj Hin Hg))) as [H1 H2].
    rewrite H1, H2.
    destruct (ts_get c ts) as [[|i l]|]; split; reflexivity.
Qed.

(** [ch_start_time] is the least first start over the supplied channels
    the schedule knows, and 0 when it knows none of them. *)
Lemma start_time_spec (self : Schedule) (chans : list Channel) :
  no_empty_slot self ->
  exists time,
    ch_start_time self chans = Ok time
    /\ (forall c first rest,
          In c chans ->
          ts_get c (_timeslots self) = Some (first :: rest) ->
          time <= fst first)
    /\ ((exists c, In c chans /\ In c (channels self)) ->
        exists c first rest,
          In c chans
          /\ ts_get c (_timeslots self) = Some (first :: rest)
          /\ fst first = time)
    /\ ((forall c, In c chans -> ~ In c (channels self)) -> time = 0).
Proof.
  intros Hne. unfold ch_start_time.
  destruct (first_starts_spec self chans Hne) as (vs & Hvs & Hin).
  rewrite Hvs. cbn [bind].
  assert (Hknown : forall c, In c chans -> In c (channels self) ->
                             exists v, In v vs).
  { intros c Hc Hk. unfold channels in Hk.
    destruct (ts_get c (_timeslots self)) as [l|] eqn:Hg;
      [|apply ChannelFacts.ts_get_None in Hg; contradiction].
    pose proof (ChannelFacts.ts_get_In _ _ _ Hg) as Hl.
    unfold no_empty_slot in Hne. rewrite Forall_forall in Hne.
    specialize (Hne _ Hl). cbn [snd] in Hne.
    destruct l as [|i l]; [exfalso; apply Hne; reflexivity|].
    exists (fst i). apply Hin. exists c, i, l. repeat split; assumption. }
  destruct vs as [|v vs].
  - exists 0. split; [reflexivity|]. split; [|split].
    + intros c f r Hc Hg. exfalso.
      apply (proj2 (Hin (fst f))). exists c, f, r. repeat split; assumption.
    + intros (c & Hc & Hk). destruct (Hknown c Hc Hk) as (x & []).
    + reflexivity.
  - destruct (py_min (v :: vs)) as [m|e] eqn:Hm; [|discriminate Hm].
    destruct (py_min_spec _ _ Hm) as [H1 H2]. rewrite Forall_forall in H2.
    exists m. cbn [except_ValueError]. split; [reflexivity|].
    split; [|split].
    + intros c f r Hc Hg. apply H2, Hin. exists c, f, r.
      repeat split; assumption.
    + intros _. apply Hin, H1.
    + intros Hnone. apply Hin in H1.
      destruct H1 as (c & f & r & Hc & Hg & _).
      exfalso. apply (Hnone c Hc).
      eapply ChannelFacts.ts_get_Some_key, Hg.
Qed.

(** With timeslots as the module keeps them the start time over some
    channels is not negative and not above the stop time over them. *)
Lemma start_le_stop (self : Schedule) (chans : list Channel) :
  timeslots_ok self ->
  exists t0 t1,
    ch_start_time self chans = Ok t0 /\ ch_stop_time self chans = Ok t1
    /\ 0 <= t0 <= t1.
Proof.
  intros Hok.
  pose proof (InvariantFacts.timeslots_ok_no_empty self Hok) as Hne.
  destruct (start_time_spec self chans Hne)
    as (t0 & H0 & Hle0 & Hin0 & Hno0).
  destruct (AppendFacts.ch_stop_time_spec self chans Hne)
    as (t1 & H1 & Hle1 & _ & Hno1).
  exists t0, t1. split; [exact H0|]. split; [exact H1|].
  assert (Hcase : (exists c, In c chans /\ In c (channels self))
                  \/ forall c, In c chans -> ~ In c (channels self)).
  { clear. induction chans as [|c chans IH].
    - right. intros c [].
    - destruct (chan_mem c (channels self)) eqn:E.
      + left. exists c. split; [left; reflexivity|].
        apply ChannelFacts.chan_mem_In, E.
      + destruct IH as [(c' & Hc' & Hk)|IH].
        * left. exists c'. split; [right; exact Hc' | exact Hk].
        * right. intros c' [<-|Hc']; [|apply IH, Hc'].
          intros Hk. apply ChannelFacts.chan_mem_In in Hk. congruence. }
  destruct Hcase as [Hsome|Hnone].
  - destruct (Hin0 Hsome) as (c & first & rest & Hc & Hg & Hf).
    destruct Hok as (_ & Hord & Hnn).
    pose proof (ChannelFacts.ts_get_In _ _ _ Hg) as Hl.
    specialize (Hnn c _ first Hl (or_introl eq_refl)).
    unfold slots_ordered in Hord. rewrite Forall_forall in Hord.
    destruct (Hord _ Hl) as [_ Ho]. cbn [snd] in Ho.
    pose proof (DurationFacts.stop_of_bound _ first Ho (or_introl eq_refl))
      as Hb.
    assert (Hs : stop_of (first :: rest) <= t1).
    { apply (Hle1 c _ Hc). exists (first :: rest), (last rest first).
      split; [exact Hg|]. split; [reflexivity|].
      symmetry. apply DurationFacts.stop_of_last. reflexivity. }
    destruct Ho as [Hwf _]. apply Forall_cons_iff in Hwf.
    destruct Hwf as [Hwf _]. unfold wf_interval in Hwf. lia.
  - rewrite (Hno0 Hnone), (Hno1 Hnone). lia.
Qed.

End TimeFacts.

(** X19.  When no recorded channel has an empty list, [ch_start_time]
    returns the least first start over the supplied channels the schedule
    knows, and 0 when it knows none of them.  When the timeslots are as
    the module keeps them it is not negative and not above
    [ch_stop_time] on the same channels.  A supplied channel recorded
    with an empty list makes both raise [IndexError], which the handler
    for [ValueError] does not catch. *)
Theorem ch_start_time_spec (self : Schedule) (chans : list Channel) :
  (no_empty_slot self ->
   exists time,
     ch_start_time self chans = Ok time
     /\ (forall c first rest,
           In c chans ->
           ts_get c (_timeslots self) = Some (first :: rest) ->
           time <= fst first)
     /\ ((exists c, In c chans /\ In c (channels self)) ->
         exists c first rest,
           In c chans
           /\ ts_get c (_timeslots self) = Some (first :: rest)
           /\ fst first = time)
     /\ ((forall c, In c chans -> ~ In c (channels self)) -> time = 0))
  /\ (timeslots_ok self ->
      exists t0 t1,
        ch_start_time self chans = Ok t0 /\ ch_stop_time self chans = Ok t1
        /\ 0 <= t0 <= t1)
  /\ ((exists c, In c chans /\ ts_get c (_timeslots self) = Some []) ->
      ch_start_time self chans = Raise IndexError
      /\ ch_stop_time self chans = Raise IndexError).
Proof.
  split; [apply TimeFacts.start_time_spec|]. split.
  - apply TimeFacts.start_le_stop.
  - intros Hex. unfold ch_start_time, ch_stop_time.
    destruct (TimeFacts.empty_slot_raises _ _ Hex) as [-> ->].
    split; reflexivity.
Qed.

Lemma ch_start_time_spec_witness :
  ch_start_time
    (mkSchedule "s" [] 50
       [(DriveChannel 0, [(5, 10); (20, 50)]); (DriveChannel 1, [(3, 8)])]
       [])
    [DriveChannel 1; DriveChannel 2; DriveChannel 0] = Ok 3.
Proof.
  destruct (proj1 (ch_start_time_spec
                     (mkSchedule "s" [] 50
                        [(DriveChannel 0, [(5, 10); (20, 50)]);
                         (DriveChannel 1, [(3, 8)])] [])
                     [DriveChannel 1; DriveChannel 2; DriveChannel 0]))
    as (time & H & _).
  - repeat constructor; cbn; discriminate.
  - rewrite H. vm_compute in H. inversion H. reflexivity.
Defined.

(** X23.  For a schedule whose timeslots are as the module keeps them and
    whose cached duration is its largest last stop, the stop time over all
    its channels is [stop_time], which is [duration]; so is [ch_duration];
    and [start_time] is not negative and not above [stop_time]. *)
Theorem stop_time_over_all_channels (self : Schedule) :
  timeslots_ok self -> duration_is_last_stop self ->
  ch_stop_time self (channels self) = Ok (stop_time self)
  /\ ch_duration self (channels self) = Ok (duration self)
  /\ exists t, start_time self = Ok t /\ 0 <= t <= stop_time self.
Proof.
  intros Hok Hdur.
  pose proof (InvariantFacts.timeslots_ok_no_empty self Hok) as Hne.
  assert (Hstop : ch_stop_time self (channels self) = Ok (duration self)).
  { destruct (AppendFacts.ch_stop_time_spec self (channels self) Hne)
      as (time & Htime & Hle & Hex & Hnone).
    rewrite Htime. f_equal. unfold duration_is_last_stop in Hdur.
    rewrite Hdur. symmetry.
    destruct (_timeslots self) as [|[c0 l0] ts] eqn:Ets.
    - rewrite Hnone; [reflexivity|]. unfold channels. rewrite Ets.
      intros c [].
    - rewrite <- Ets in *. apply DurationFacts.last_stop_max_unique.
      + intros c l Hcl.
        assert (Hc : In c (channels self)).
        { unfold channels. apply in_map_iff. exists (c, l).
          split; [reflexivity | exact Hcl]. }
        unfold no_empty_slot in Hne. rewrite Forall_forall in Hne.
        pose proof (Hne _ Hcl) as Hl. cbn [snd] in Hl.
        destruct l as [|i r]; [contradiction|].
        apply (Hle c _ Hc). exists (i :: r), (last r i).
        split; [apply DurationFacts.In_ts_get; [apply Hok | exact Hcl]|].
        split; [reflexivity|]. symmetry.
        apply DurationFacts.stop_of_last. reflexivity.
      + destruct Hex as (c & _ & l & final & Hg & Hf & Hs).
        * exists c0. unfold channels. rewrite Ets.
          split; left; reflexivity.
        * exists c, l. split; [apply ChannelFacts.ts_get_In, Hg|].
          rewrite (DurationFacts.stop_of_last l final Hf). exact Hs. }
  split; [exact Hstop|]. split; [exact Hstop|].
  destruct (TimeFacts.start_le_stop self (channels self) Hok)
    as (t0 & t1 & H0 & H1 & Hle).
  exists t0. split; [exact H0|].
  rewrite Hstop in H1. injection H1 as <-. exact Hle.
Qed.

Lemma stop_time_over_all_channels_witness :
  ch_stop_time two_channel_schedule (channels two_channel_schedule)
  = Ok (stop_time two_channel_schedule).
Proof.
  apply (stop_time_over_all_channels two_channel_schedule).
  - split; [|split].
    + repeat constructor; cbn; intuition discriminate.
    + repeat constructor; unfold wf_interval; cbn; try discriminate; lia.
    + intros c l iv [Hin|[Hin|[]]] Hiv; inversion Hin; subst;
        destruct Hiv as [<-|[]]; cbn; lia.
  - reflexivity.
Defined.

(** ** Equality of schedules *)

Module EqFacts.

Lemma list_eqb_eq {A} (eqb : A -> A -> bool) (l1 l2 : list A) :
  (forall a b, eqb a b = true <-> a = b) ->
  list_eqb eqb l1 l2 = true <-> l1 = l2.
Proof.
  intros H. revert l2. induction l1 as [|x l1 IH]; intros [|y l2]; cbn;
    try (split; [discriminate | discriminate]);
    [split; reflexivity|].
  rewrite andb_true_iff, H, IH. split.
  - intros [-> ->]. reflexivity.
  - intros E. injection E as -> ->. split; reflexivity.
Qed.

(** Two leaves are equal when class, fields, duration and channels
    agree. *)
Lemma Instruction_eqb_iff (a b : Instruction) :
  Instruction_eqb a b = true <->
  inst_kind a = inst_kind b /\ inst_operands a = inst_operands b
  /\ inst_duration a = inst_duration b /\ inst_channels a = inst_channels b.
Proof.
  unfold Instruction_eqb. rewrite !andb_true_iff.
  rewrite String.eqb_eq, Z.eqb_eq.
  rewrite (list_eqb_eq Z.eqb _ _ Z.eqb_eq).
  rewrite (list_eqb_eq Channel_eqb _ _ ChannelFacts.Channel_eqb_eq).
  tauto.
Qed.

Lemma time_inst_eqb_iff (p q : Z * Instruction) :
  time_inst_eqb p q = true <->
  fst p = fst q /\ Instruction_eqb (snd p) (snd q) = true.
Proof.
  unfold time_inst_eqb. rewrite andb_true_iff, Z.eqb_eq. tauto.
Qed.

Lemma time_inst_eqb_sym (p q : Z * Instruction) :
  time_inst_eqb p q = true -> time_inst_eqb q p = true.
Proof.
  rewrite !time_inst_eqb_iff, !Instruction_eqb_iff.
  intros (H1 & H2 & H3 & H4 & H5). repeat split; congruence.
Qed.

Lemma time_inst_eqb_trans (p q r : Z * Instruction) :
  time_inst_eqb p q = true -> time_inst_eqb q r = true ->
  time_inst_eqb p r = true.
Proof.
  rewrite !time_inst_eqb_iff, !Instruction_eqb_iff.
  intros (H1 & H2 & H3 & H4 & H5) (G1 & G2 & G3 & G4 & G5).
  repeat split; congruence.
Qed.

Lemma chan_set_eqb_iff (a b : list Channel) :
  chan_set_eqb a b = true <-> forall c, In c a <-> In c b.
Proof.
  unfold chan_set_eqb. rewrite andb_true_iff, !forallb_forall. split.
  - intros [H1 H2] c. split; intros H.
    + apply ChannelFacts.chan_mem_In, H1, H.
    + apply ChannelFacts.chan_mem_In, H2, H.
  - intros H. split; intros c Hc; apply ChannelFacts.chan_mem_In, H, Hc.
Qed.

(** The zipped comparison of two lists of the same length. *)
Lemma zip_all_sym {A} (eqb : A -> A -> bool) (l1 l2 : list A) :
  (forall a b, eqb a b = true -> eqb b a = true) ->
  forallb (fun p => eqb (fst p) (snd p)) (combine l1 l2) = true ->
  forallb (fun p => eqb (fst p) (snd p)) (combine l2 l1) = true.
Proof.
  intros Hs. revert l2. induction l1 as [|x l1 IH]; intros [|y l2]; cbn;
    try reflexivity.
  rewrite !andb_true_iff. intros [H1 H2]. split; [apply Hs, H1|apply IH, H2].
Qed.

Lemma zip_all_trans {A} (eqb : A -> A -> bool) (l1 l2 l3 : list A) :
  (forall a b c, eqb a b = true -> eqb b c = true -> eqb a c = true) ->
  length l1 = length l2 ->
  forallb (fun p => eqb (fst p) (snd p)) (combine l1 l2) = true ->
  forallb (fun p => eqb (fst p) (snd p)) (combine l2 l3) = true ->
  forallb (fun p => eqb (fst p) (snd p)) (combine l1 l3) = true.
Proof.
  intros Ht. revert l2 l3.
  induction l1 as [|x l1 IH]; intros [|y l2] [|z l3]; cbn;
    try reflexivity; try discriminate.
  rewrite !andb_true_iff. intros Hl [H1 H2] [G1 G2].
  split; [eapply Ht; eassumption|].
  apply (IH l2 l3); [lia | assumption | assumption].
Qed.

(** [==] unfolded into its three checks. *)
Lemma Schedule_eq_iff (self : Schedule) (other : ScheduleComponent) :
  Schedule_eq self other = true <->
  (forall c, In c (channels self) <-> In c (component_channels other))
  /\ length (instructions self) = length (component_instructions other)
  /\ forallb (fun p => time_inst_eqb (fst p) (snd p))
       (combine (instructions self) (component_instructions other)) = true.
Proof.
  unfold Schedule_eq. rewrite <- chan_set_eqb_iff.
  destruct (chan_set_eqb (channels self) (component_channels other));
    cbn [negb]; [|split; [discriminate | intros [H _]; discriminate]].
  destruct (Nat.eqb_spec (length (instructions self))
              (length (component_instructions other))) as [E|E];
    cbn [negb]; [tauto|].
  split; [discriminate | intros (_ & H & _); contradiction].
Qed.

End EqFacts.

(** X20.  [==] between schedules is reflexive, symmetric and transitive.
    It looks at the channel set and the time-ordered instructions only:
    equal schedules have the same length and channel set, and name,
    metadata and cached duration play no part.  A schedule equals a leaf
    exactly when their channel sets agree and the schedule's instructions
    are one equal leaf at time 0. *)
Theorem Schedule_eq_equivalence :
  (forall a, Schedule_eq a (Sched a) = true)
  /\ (forall a b, Schedule_eq a (Sched b) = true ->
                  Schedule_eq b (Sched a) = true)
  /\ (forall a b c, Schedule_eq a (Sched b) = true ->
                    Schedule_eq b (Sched c) = true ->
                    Schedule_eq a (Sched c) = true)
  /\ (forall a b, Schedule_eq a (Sched b) = true ->
                  Schedule_len a = Schedule_len b
                  /\ forall ch, In ch (channels a) <-> In ch (channels b))
  /\ (forall a name metadata duration,
         Schedule_eq a
           (Sched (mkSchedule name metadata duration (_timeslots a)
                     (_children a))) = true)
  /\ (forall a i,
         Schedule_eq a (Inst i) = true <->
         (forall ch, In ch (channels a) <-> In ch (inst_channels i))
         /\ exists i', instructions a = [(0, i')]
                       /\ Instruction_eqb i' i = true).
Proof.
  split; [|split; [|split; [|split; [|split]]]].
  - intros a. apply ShiftFacts.Schedule_eq_same; reflexivity.
  - intros a b. rewrite !EqFacts.Schedule_eq_iff.
    cbn [component_channels component_instructions].
    intros (Hc & Hl & Hz). split; [intros c; symmetry; apply Hc|].
    split; [symmetry; exact Hl|].
    apply (EqFacts.zip_all_sym time_inst_eqb); [|exact Hz].
    apply EqFacts.time_inst_eqb_sym.
  - intros a b c. rewrite !EqFacts.Schedule_eq_iff.
    cbn [component_channels component_instructions].
    intros (Hc & Hl & Hz) (Hc' & Hl' & Hz').
    split; [intros ch; rewrite (Hc ch); apply Hc'|].
    split; [congruence|].
    apply (EqFacts.zip_all_trans time_inst_eqb _ (instructions b));
      [apply EqFacts.time_inst_eqb_trans | exact Hl | exact Hz | exact Hz'].
  - intros a b. rewrite EqFacts.Schedule_eq_iff.
    cbn [component_channels component_instructions].
    intros (Hc & Hl & _). split; [exact Hl | exact Hc].
  - intros a name metadata duration.
    apply ShiftFacts.Schedule_eq_same; destruct a; reflexivity.
  - intros a i. rewrite EqFacts.Schedule_eq_iff.
    cbn [component_channels component_instructions]. split.
    + intros (Hc & Hl & Hz). split; [exact Hc|].
      destruct (instructions a) as [|[t i'] [|q r]]; try discriminate.
      cbn [combine forallb fst snd] in Hz. rewrite andb_true_r in Hz.
      apply EqFacts.time_inst_eqb_iff in Hz. cbn [fst snd] in Hz.
      destruct Hz as [-> Hi]. exists i'. split; [reflexivity | exact Hi].
    + intros (Hc & i' & -> & Hi). split; [exact Hc|].
      split; [reflexivity|]. cbn [combine forallb fst snd].
      rewrite andb_true_r.
      apply EqFacts.time_inst_eqb_iff. split; [reflexivity | exact Hi].
Qed.

Lemma Schedule_eq_equivalence_witness :
  Schedule_eq (single_play 100 (DriveChannel 0))
    (Sched (mkSchedule "other" [] 7 [(DriveChannel 0, [])]
              [(0, Sched (single_play 100 (DriveChannel 0)))])) = true.
Proof.
  apply (proj1 (proj2 Schedule_eq_equivalence)). reflexivity.
Defined.

(** ** Appending *)

Module EndFacts.

(** Intervals that start after the last stop are put at the end. *)
Lemma merge_intervals_at_end (time : Z) (err : Interval -> PulseReason)
  (current others : list Interval) (final : Interval) :
  last_interval current = Ok final -> snd final <= time ->
  (forall iv, In iv others -> 0 <= fst iv) ->
  merge_intervals time err current others
  = (current ++ map (shift_interval time) others, Ok tt).
Proof.
  intros Hf Hle Hnn. destruct others as [|first rest].
  - cbn. rewrite app_nil_r. reflexivity.
  - cbn [merge_intervals]. rewrite Hf.
    specialize (Hnn first (or_introl eq_refl)).
    rewrite Z.geb_leb.
    destruct (Z.leb_spec (snd final) (fst first + time)); [reflexivity|lia].
Qed.

Lemma add_channels_at_end (time : Z) (new old : string) (other : TimeSlots)
  (chans : list Channel) (ts : TimeSlots) :
  NoDup chans ->
  (forall c, In c chans ->
             exists others, ts_get c other = Some others
                            /\ forall iv, In iv others -> 0 <= fst iv) ->
  (forall c l, In c chans -> ts_get c ts = Some l ->
               exists final, last_interval l = Ok final
                             /\ snd final <= time) ->
  exists ts', add_channels time new old other chans ts = (ts', Ok tt).
Proof.
  intros Hnd Hoth. revert ts.
  induction chans as [|channel rest IH]; intros ts Hcur.
  - exists ts. reflexivity.
  - apply NoDup_cons_iff in Hnd. destruct Hnd as [Hfresh Hnd].
    destruct (Hoth channel (or_introl eq_refl)) as (others & Ho & Hnn).
    cbn [add_channels]. rewrite Ho.
    assert (Hstep : forall l1,
               exists ts',
                 add_channels time new old other rest (ts_set channel l1 ts)
                 = (ts', Ok tt)).
    { intros l1. apply (IH Hnd (fun c Hc => Hoth c (or_intror Hc))).
      intros c l Hc Hg. rewrite InsertFacts.ts_get_set_other in Hg.
      - apply (Hcur c l (or_intror Hc) Hg).
      - intros ->. contradiction. }
    destruct (ts_get channel ts) as [current|] eqn:Hg.
    + destruct (Hcur channel current (or_introl eq_refl) Hg)
        as (final & Hf & Hle).
      rewrite (merge_intervals_at_end time _ current others final Hf Hle Hnn).
      apply Hstep.
    + apply Hstep.
Qed.

Lemma last_interval_In (l : list Interval) (final : Interval) :
  last_interval l = Ok final -> In final l.
Proof.
  destruct l as [|i r]; [discriminate|]. cbn [last_interval].
  intros H. injection H as <-. revert i.
  induction r as [|j r IH]; intros i; [left; reflexivity|].
  right. cbn [last]. destruct r as [|k r]; [left; reflexivity|].
  rewrite (InsertFacts.last_default k i j r). apply (IH j).
Qed.

(** A component without both kinds of channel never opens the
    channel-merging branch. *)
Lemma no_mix_no_merge (self : Schedule) (schedule : ScheduleComponent) :
  ~ has_dp_and_other schedule -> dp_merge_applies self schedule = false.
Proof.
  intros Hmix. destruct schedule as [i|s]; [reflexivity|].
  cbn [dp_merge_applies].
  destruct (chan_diff (channels s) dp_channels) as [|x l] eqn:E1;
    [reflexivity|].
  destruct (chan_inter (chan_inter (channels self) (channels s)) dp_channels)
    as [|y l'] eqn:E2; [apply andb_false_r|].
  exfalso. apply Hmix. split.
  - exists y.
    assert (H : In y (chan_inter (chan_inter (channels self) (channels s))
                        dp_channels)) by (rewrite E2; left; reflexivity).
    apply ChannelFacts.chan_inter_In in H. destruct H as [H Hd].
    apply ChannelFacts.chan_inter_In in H. destruct H as [_ H].
    split; assumption.
  - exists x.
    assert (H : In x (chan_diff (channels s) dp_channels))
      by (rewrite E1; left; reflexivity).
    apply ChannelFacts.chan_diff_In in H. exact H.
Qed.

(** The statements that end [_mutable_insert] succeed at a time that is
    not below zero nor before the last stop of a channel of the
    component. *)
Lemma insert_tail_at_end (time : Z) (schedule : ScheduleComponent)
  (self : Schedule) :
  timeslots_ok self -> component_ok schedule ->
  match schedule with Sched s => no_empty_slot s | Inst _ => True end ->
  component_starts_nonneg schedule -> 0 <= time ->
  (forall c l, In c (component_channels schedule) ->
               ts_get c (_timeslots self) = Some l ->
               exists final, last_interval l = Ok final
                             /\ snd final <= time) ->
  exists R,
    insert_tail time schedule self = (R, Ok R)
    /\ timeslots_ok R
    /\ _children R = _children self ++ [(time, schedule)].
Proof.
  intros (Hkeys & Hord & Hnn) Hcomp Hne Hstart Htime Hcur.
  unfold insert_tail, _add_timeslots.
  assert (Hget : exists other, _get_timeslots schedule = Ok other
                   /\ forall c l iv, In (c, l) other -> In iv l ->
                                     0 <= fst iv).
  { destruct schedule as [i|s]; cbn [_get_timeslots component_starts_nonneg]
      in *.
    - unfold instruction_duration_validation.
      destruct (Z.leb_spec 0 (inst_duration i)); [|lia]. cbn [bind].
      eexists. split; [reflexivity|]. intros c l iv Hin Hiv.
      destruct (DurationFacts.leaf_entries _ _ _ _ _ Hin) as [[_ ->]|[]].
      destruct Hiv as [<-|[]]. cbn. lia.
    - eexists. split; [reflexivity|]. intros c l iv Hin Hiv.
      specialize (Hstart c l iv Hin Hiv). lia. }
  destruct Hget as (other & Hget & Hothnn). rewrite Hget.
  destruct self as [n m du ts ch].
  cbn [set_duration set_timeslots set_children _timeslots _name _duration
         _metadata _children] in *.
  unfold distinct_channels, channels in Hkeys. cbn [_timeslots] in Hkeys.
  pose proof (RoundTripFacts.component_lists schedule other Hcomp Hne Hget)
    as Hoth.
  destruct (add_channels_at_end time (component_name schedule) n other
              (component_channels schedule) ts (proj1 Hcomp))
    as (ts' & Hadd).
  { intros c Hc.
    destruct (RaiseFacts.component_has_lists schedule other Hget c Hc)
      as (others & Ho).
    exists others. split; [exact Ho|]. intros iv Hiv.
    apply (Hothnn c others iv (ChannelFacts.ts_get_In _ _ _ Ho) Hiv). }
  { exact Hcur. }
  rewrite Hadd.
  destruct (InvariantFacts.add_channels_ordered _ _ _ _ _ _ _ Hoth Hkeys
              Hord Hadd) as [Hkeys' Hord'].
  destruct (ContentFacts.add_channels_content _ _ _ _ _ _ _ (proj1 Hcomp)
              Hadd) as [Hout Hin].
  assert (Hnn' : forall c l iv, In (c, l) ts' -> In iv l -> 0 <= fst iv).
  { intros c l' iv Hcl Hiv.
    pose proof (DurationFacts.In_ts_get c l' ts' Hkeys' Hcl) as Hg.
    assert (Hold : forall l, ts_get c ts = Some l -> In iv l -> 0 <= fst iv).
    { intros l Hl Hil.
      specialize (Hnn c l iv (ChannelFacts.ts_get_In _ _ _ Hl) Hil). lia. }
    destruct (chan_mem c (component_channels schedule)) eqn:E.
    - apply ChannelFacts.chan_mem_In in E.
      destruct (Hin c E) as (others & l'' & Ho & Hl & Hp).
      rewrite Hg in Hl. injection Hl as <-.
      apply (Permutation_in _ Hp), in_app_or in Hiv.
      destruct Hiv as [Hiv|Hiv].
      + unfold slot_of in Hiv.
        destruct (ts_get c ts) as [l|] eqn:El; [|destruct Hiv].
        apply (Hold l eq_refl Hiv).
      + apply in_map_iff in Hiv. destruct Hiv as (iv0 & <- & Hiv0).
        pose proof (Hothnn c others iv0 (ChannelFacts.ts_get_In _ _ _ Ho)
                      Hiv0).
        cbn [shift_interval fst]. lia.
    - assert (Hc : ~ In c (component_channels schedule)).
      { intros Hc. apply ChannelFacts.chan_mem_In in Hc. congruence. }
      rewrite (Hout c Hc) in Hg. apply (Hold l' Hg Hiv). }
  rewrite (ShiftFacts.check_nonnegative_ok ts' Hnn').
  eexists. split; [reflexivity|]. split; [|reflexivity].
  split; [exact Hkeys'|]. split; [exact Hord'|].
  intros c l iv Hcl Hiv. specialize (Hnn' c l iv Hcl Hiv). lia.
Qed.

End EndFacts.

(** X21.  When the receiver's timeslots are as the module keeps them, the
    component is one the module builds with no interval below zero, and it
    does not have both a channel of [dp_channels] and another channel,
    [append] always succeeds, in place or not: the offset is not negative,
    no overlap is met, the result's timeslots are again as the module
    keeps them and the component is its last child, at the offset. *)
Theorem append_succeeds
  (merge : Schedule -> Z -> Schedule -> result (Schedule * Schedule))
  (schedule : ScheduleComponent) (name : option string) (inplace : bool)
  (self : Schedule) :
  timeslots_ok self -> component_ok schedule ->
  match schedule with Sched s => no_empty_slot s | Inst _ => True end ->
  component_starts_nonneg schedule ->
  ~ has_dp_and_other schedule ->
  exists time R,
    append_time self schedule = Ok time /\ 0 <= time
    /\ append merge schedule name inplace self
       = ((if inplace then R else self), Ok R)
    /\ timeslots_ok R
    /\ _children R
       = (if inplace then _children self else [(0, Sched self)])
         ++ [(time, schedule)].
Proof.
  intros Hok Hcomp Hne Hstart Hmix.
  pose proof (InvariantFacts.timeslots_ok_no_empty self Hok) as Hnoempty.
  destruct (AppendFacts.ch_stop_time_spec self
              (append_channels self schedule) Hnoempty)
    as (time & Htime & Hle & Hex & Hnone).
  assert (Hshared : forall c, In c (append_channels self schedule) <->
                              In c (channels self)
                              /\ In c (component_channels schedule)).
  { intros c. rewrite AppendFacts.append_channels_In. tauto. }
  assert (Hpos : 0 <= time).
  { destruct (append_channels self schedule) as [|c0 rest] eqn:E.
    - rewrite Hnone; [lia | intros c []].
    - destruct Hex as (c & _ & l & final & Hg & Hf & <-).
      + exists c0. split; [left; reflexivity|].
        apply (Hshared c0). left. reflexivity.
      + destruct Hok as (_ & Hord & Hnn).
        pose proof (ChannelFacts.ts_get_In _ _ _ Hg) as Hl.
        pose proof (EndFacts.last_interval_In l final Hf) as Hin.
        specialize (Hnn c l final Hl Hin).
        unfold slots_ordered in Hord. rewrite Forall_forall in Hord.
        destruct (Hord _ Hl) as [_ [Hwf _]]. cbn [snd] in Hwf.
        rewrite Forall_forall in Hwf. specialize (Hwf final Hin).
        unfold wf_interval in Hwf. lia. }
  assert (Hcur : forall c l,
             In c (component_channels schedule) ->
             ts_get c (_timeslots self) = Some l ->
             exists final, last_interval l = Ok final /\ snd final <= time).
  { intros c l Hc Hg.
    pose proof (ChannelFacts.ts_get_In _ _ _ Hg) as Hl.
    unfold no_empty_slot in Hnoempty. rewrite Forall_forall in Hnoempty.
    specialize (Hnoempty _ Hl). cbn [snd] in Hnoempty.
    destruct l as [|i r]; [contradiction|].
    exists (last r i). split; [reflexivity|].
    apply (Hle c).
    - apply Hshared. split; [|exact Hc].
      eapply ChannelFacts.ts_get_Some_key, Hg.
    - exists (i :: r), (last r i). repeat split. exact Hg. }
  exists time. unfold append, append_time. rewrite Htime.
  destruct inplace; cbn [insert].
  - unfold _mutable_insert.
    rewrite (EndFacts.no_mix_no_merge self schedule Hmix).
    destruct (EndFacts.insert_tail_at_end time schedule self Hok Hcomp Hne
                Hstart Hpos Hcur) as (R & HR & HokR & Hch).
    exists R. rewrite HR. split; [reflexivity|]. split; [exact Hpos|].
    split; [reflexivity|]. split; assumption.
  - unfold _immutable_insert.
    rewrite (ShapeFacts.copy_of_receiver_full merge self name Hok).
    set (S0 := mkSchedule _ _ _ _ _).
    unfold _mutable_insert.
    rewrite (EndFacts.no_mix_no_merge S0 schedule Hmix).
    assert (HokS : timeslots_ok S0) by exact Hok.
    assert (HcurS : forall c l,
               In c (component_channels schedule) ->
               ts_get c (_timeslots S0) = Some l ->
               exists final, last_interval l = Ok final
                             /\ snd final <= time) by exact Hcur.
    destruct (EndFacts.insert_tail_at_end time schedule S0 HokS Hcomp Hne
                Hstart Hpos HcurS) as (R & HR & HokR & Hch).
    exists R. rewrite HR. split; [reflexivity|]. split; [exact Hpos|].
    split; [reflexivity|]. split; assumption.
Qed.

Lemma append_succeeds_witness :
  exists R,
    append (fun _ _ _ => Raise KeyError)
      (Sched (mkSchedule "pair" [] 10
                [(DriveChannel 0, [(0, 10)]); (DriveChannel 2, [(0, 10)])]
                [(0, Inst (play 10 (DriveChannel 0)));
                 (0, Inst (play 10 (DriveChannel 2)))]))
      None false (single_play 100 (DriveChannel 0))
    = (single_play 100 (DriveChannel 0), Ok R)
    /\ _timeslots R
       = [(DriveChannel 0, [(0, 100); (100, 110)]);
          (DriveChannel 2, [(100, 110)])].
Proof.
  destruct (append_succeeds (fun _ _ _ => Raise KeyError)
              (Sched (mkSchedule "pair" [] 10
                        [(DriveChannel 0, [(0, 10)]);
                         (DriveChannel 2, [(0, 10)])]
                        [(0, Inst (play 10 (DriveChannel 0)));
                         (0, Inst (play 10 (DriveChannel 2)))]))
              None false (single_play 100 (DriveChannel 0)))
    as (time & R & _ & _ & H & _).
  - split; [|split].
    + repeat constructor. cbn. intros [].
    + repeat constructor; cbn; discriminate.
    + intros c l iv [Hin|[]] Hiv. inversion Hin; subst.
      destruct Hiv as [<-|[]]. cbn. lia.
  - split.
    + repeat constructor; cbn; intuition discriminate.
    + repeat constructor; unfold wf_interval; cbn; lia.
  - repeat constructor; cbn; discriminate.
  - intros c l iv [Hin|[Hin|[]]] Hiv; inversion Hin; subst;
      destruct Hiv as [<-|[]]; cbn; lia.
  - intros [(c & [<-|[<-|[]]] & [Hd|[Hd|[]]]) _]; discriminate Hd.
  - exists R. split; [exact H|].
    vm_compute in H. inversion H. reflexivity.
Defined.

(** ** Building a schedule *)

Module InitFacts.

Section Insert.
Variable merge : Schedule -> Z -> Schedule -> result (Schedule * Schedule).

(** The loop of insertions keeps the timeslots as the module keeps them
    and the duration at the largest last stop. *)
Lemma insert_all_invariant (pairs : list (Z * ScheduleComponent))
  (self R : Schedule) :
  Forall (fun p => plain_component (snd p)) pairs ->
  timeslots_ok self -> duration_is_last_stop self ->
  insert_all merge pairs self = (R, Ok tt) ->
  timeslots_ok R /\ duration_is_last_stop R
  /\ _children R = _children self ++ pairs
  /\ _name R = _name self /\ _metadata R = _metadata self.
Proof.
  revert self. induction pairs as [|[time c] pairs IH];
    intros self Hall Hok Hdur H.
  - cbn in H. injection H as <-. rewrite app_nil_r. repeat split; try apply Hok.
    exact Hdur.
  - apply Forall_cons_iff in Hall.
    destruct Hall as [(Hcomp & Hne & Htimed & Hmix) Hall].
    cbn [snd] in *. cbn [insert_all] in H.
    pose proof (EndFacts.no_mix_no_merge self c Hmix) as Hdp.
    destruct (insert merge time c None true self) as [S1 [S1'|e]] eqn:Hins;
      [|discriminate].
    destruct (InvariantFacts.insert_keeps_timeslots_ok merge _ _ _ _ _ _
                Hok Hcomp Hne Hdp Hins) as (Hok1 & -> & Hch1).
    cbn [insert] in Hins. unfold _mutable_insert in Hins.
    rewrite Hdp in Hins.
    destruct (ShapeFacts.insert_tail_shape _ _ _ _ _ Hins)
      as (_ & _ & Hd1 & Hn1 & Hm1).
    pose proof (DurationFacts.insert_tail_last_stop time c self S1 S1
                  (proj1 Hok) (proj1 (proj2 Hok)) Hcomp Hne Htimed Hins)
      as Hlast.
    assert (Hdur1 : duration_is_last_stop S1).
    { unfold duration_is_last_stop, duration in *.
      rewrite Hd1, Hlast, Hdur. reflexivity. }
    destruct (IH S1 Hall Hok1 Hdur1 H) as (HokR & HdurR & Hch & Hn & Hm).
    split; [exact HokR|]. split; [exact HdurR|].
    split; [rewrite Hch, Hch1, <- app_assoc; reflexivity|].
    split; congruence.
Qed.

End Insert.

End InitFacts.

(** X22.  When the constructor succeeds on components the module builds,
    each with a channel and none with both a channel of [dp_channels] and
    another one, the new schedule has the given name and metadata, its
    children are the given pairs in order, its timeslots are as the module
    keeps them and its duration is its largest last stop.  With no
    component it is the empty schedule. *)
Theorem init_builds_consistent
  (merge : Schedule -> Z -> Schedule -> result (Schedule * Schedule))
  (schedules : list (Z * ScheduleComponent)) (name : string)
  (metadata : list (string * string)) :
  (forall R,
      Forall (fun p => plain_component (snd p)) schedules ->
      Schedule_init merge schedules name metadata = Ok R ->
      timeslots_ok R /\ duration_is_last_stop R
      /\ _children R = schedules
      /\ _name R = name /\ _metadata R = metadata)
  /\ Schedule_init merge [] name metadata = Ok (empty_schedule name metadata).
Proof.
  split; [|reflexivity]. intros R Hall. unfold Schedule_init.
  destruct (insert_all merge schedules (empty_schedule name metadata))
    as [S [[]|e]] eqn:H; [|discriminate].
  cbn beta iota. intros E. injection E as <-.
  apply (InitFacts.insert_all_invariant merge schedules
           (empty_schedule name metadata) S Hall
           (InvariantFacts.empty_schedule_ok name metadata) eq_refl H).
Qed.

Lemma init_builds_consistent_witness :
  exists R,
    Schedule_init (fun _ _ _ => Raise KeyError)
      [(5, Inst (play 10 (DriveChannel 0)));
       (20, Sched (single_play 30 (DriveChannel 2)))] "s" [] = Ok R
    /\ timeslots_ok R /\ duration R = 50.
Proof.
  destruct (Schedule_init (fun _ _ _ => Raise KeyError)
              [(5, Inst (play 10 (DriveChannel 0)));
               (20, Sched (single_play 30 (DriveChannel 2)))] "s" [])
    as [R|e] eqn:H; [|vm_compute in H; discriminate].
  destruct (proj1 (init_builds_consistent (fun _ _ _ => Raise KeyError)
                     [(5, Inst (play 10 (DriveChannel 0)));
                      (20, Sched (single_play 30 (DriveChannel 2)))]
                     "s" []) R)
    as (Hok & _).
  - constructor; [|constructor; [|constructor]]; cbn [snd].
    + split; [|split; [exact I|split]].
      * split; [|exact I]. repeat constructor. cbn. intros [].
      * cbn. discriminate.
      * intros [(c & [<-|[]] & [Hd|[Hd|[]]]) _]; discriminate Hd.
    + split; [|split; [|split]].
      * split.
        -- repeat constructor. cbn. intros [].
        -- repeat constructor; unfold wf_interval; cbn; lia.
      * repeat constructor; cbn; discriminate.
      * split; [discriminate | reflexivity].
      * intros [(c & [<-|[]] & [Hd|[Hd|[]]]) _]; discriminate Hd.
  - exact H.
  - exists R. split; [reflexivity|]. split; [exact Hok|].
    vm_compute in H. inversion H. reflexivity.
Defined.
